(* ===== verification/_CoqProject ===== *)
-Q . S2P
Prelude.v
Encoding.v
Move.v
Zobrist.v
Board.v
Attack.v
MakeMove.v
MoveGen.v
Validate.v
Fen.v
Scenarios.v
