(* ===== verification/Prelude.v ===== *)
(** * A verified model of the playchess board core

    The program is a chess position engine ([src/unnamed/part_001], the
    file board.cpp).  A [Board] holds a 120-cell mailbox [m_pieces]
    (the 64 playing squares framed by sentinel cells), one fixed array
    of ten squares per piece type [m_positions] with its live length
    [m_num_pieces], the side to move, the castle mask, the en-passant
    target, the two clocks, an incrementally maintained Zobrist hash,
    a stack of undo records and a cache of generated moves.  The FEN
    constructor builds a board; [make_move] and [unmake_move] change it
    through the primitives [remove_piece], [add_piece], [move_piece],
    [set_castle_state], [set_en_passant], [update_castling] and
    [switch_colours]; [square_attacked] gives the legality verdict;
    [validate_board] checks the piece lists in debug builds.

    ** Files

    - [Prelude]: notations, the [chess] hint database, XOR sums, list
      lemmas (swaps, prefixes, counting loops as folds).
    - [Encoding], [Move], [Zobrist]: the headers that are not in the
      repository (square.h, piece.h, castle_state.h, move.hpp,
      hash.hpp), modelled from the specification.  The hash tables are
      a type class [Zobrist] with laws [ZobristOk]; every hash theorem
      holds for all tables that satisfy the laws, and [example_tables]
      is one instance used to run examples.
    - [Board]: the state as a record of stdpp lists, the primitive
      mutators (lines 580-649), [compute_hash] (256-274), the invariant
      [board_wf] (each live piece list holds, without repetition,
      exactly the squares carrying that piece), [hash_ok], and the
      equivalence [≃b] that identifies boards whose piece lists differ
      only in order.
    - [Attack]: [square_attacked] (309-359) and [king_in_check].
    - [MakeMove]: [make_move] (651-744) and [unmake_move] (746-803).
    - [MoveGen]: [pseudo_moves] (366-567) with its cache and cutoffs,
      [legal_moves] (569-578) over a scratch copy of the board, and the
      perft count of the specification built on them.
    - [Validate]: [validate_board] (136-188).
    - [Fen]: the constructor [Board::Board(fen)] (13-134).
    - [Scenarios]: boards parsed from FEN strings, on which the
      theorems are applied, and the runs that exhibit divergences.

    ** Modelling choices

    A failed [ASSERT] is [None]: it aborts a debug build and is
    undefined behaviour in a release build.  An out-of-range array
    write is also [None].  Operations return [option Board] and are
    composed in the option monad.  Unsigned counters of the FEN parser
    are kept modulo 2^32 ([u32]); the clocks [m_fifty_move] and
    [m_half_move] are unbounded integers, where the unsigned fields
    would wrap only after 2^32 moves.  The ray loop of [square_attacked] is
    a fixpoint with fuel [RAY_FUEL] = 8: from a playing square a ray
    crosses at most seven playing squares before it reaches a sentinel,
    and [Attack.ray_end_fuel_enough] shows that more fuel changes
    nothing.  The FEN loops recurse on the unread suffix of the string,
    so they terminate without fuel.

    ** Theorems

    - Primitives: each one succeeds under its precondition and keeps
      [board_wf] and [hash_ok] ([remove_piece_correct],
      [add_piece_correct], [move_piece_correct],
      [scalar_updates_hash_ok]).
    - [make_move] on a move satisfying [move_ok] succeeds with the cells
      of [make_cells], keeps the invariant and the hash, and returns the
      king-safety verdict ([make_move_ok]); [unmake_move] then restores
      the board up to the order of the piece lists
      ([make_unmake_restores]).
    - Every move [pseudo_moves] generates on a consistent position
      satisfies [move_ok] and can be made and unmade
      ([pseudo_moves_reversible]).  Equivalent boards give the same
      verdicts ([make_move_equiv]), so [legal_moves], whose scratch
      board drifts to an equivalent one with each make/unmake round,
      returns exactly the pseudo-moves whose verdict is [true], in
      generation order ([legal_moves_filter]).
    - A board built by the debug constructor satisfies [board_wf] and
      [hash_ok] ([board_of_fen_debug_ok]), through the theorem that
      [validate_board] establishes [board_wf] on a board of the right
      shape with empty border cells ([validate_board_wf]).
    - The ray loop terminates within its fuel at its exit condition
      ([ray_end_fuel_enough]); [square_attacked]'s first guard is dead
      code ([square_attacked_guard_dead]).
    - The findings as general theorems: a capture by a non-castling
      piece keeps the castle mask, also when it takes a rook on its
      home square ([capture_keeps_castle_right]); the constructor keeps
      an en-passant target only with a pawn of the mover on the
      target's own rank ([fen_en_passant_beside_target]); every
      generated promotion gives a piece of the opponent's colour
      ([promotion_to_opponent]); a castle right that outlived its rook
      yields a generated castle that [make_move] cannot make
      ([castle_without_rook_fails]); and the exact make/unmake round
      trip of the specification fails ([make_unmake_not_identity]).
    - [Scenarios] applies the theorems to concrete boards and runs the
      model: the perft counts of the specification's table at depth
      two (the fifth position differs, 1516 for 1486, because of the
      promotions), the castle-without-rook position reached by legal
      moves, the cache consulted before the 75-move cutoff, and a
      piece on a border cell that passes [validate_board].

    ** Not modelled

    The logging macros ([INFO], [WARN]), [to_string], [fen()] and the
    printing helpers (text output), the test harness
    [src/tests/test_perft.hpp] (file I/O), the assertion macros of
    [src/src/assert.h] (modelled as [None] rather than as code), and the
    older header [src/unnamed/part_000], and the debug-build
    [validate_board] calls inside [make_move] and [pseudo_moves]
    (assertions that only abort a debug build; [Validate] models the
    check itself). *)

From stdpp Require Export base list option gmap.
From Stdlib Require Export ZArith Lia Btauto.

Declare Scope chess_scope.
Delimit Scope chess_scope with chess.
Open Scope Z_scope.

Create HintDb chess discriminated.

(** ** XOR sums: the Zobrist fingerprint is a fold of [Z.lxor]. *)

(** Close an equation between XOR expressions of the same atoms. *)
Ltac xor_solve :=
  apply Z.bits_inj'; intros ?n _; rewrite ?Z.lxor_spec, ?Z.bits_0; btauto.

(** Split boolean conjunctions and equality tests in the hypotheses. *)
Ltac andb_hyps :=
  repeat match goal with
  | H : _ && _ = true |- _ => apply andb_true_iff in H as [H ?]
  | H : negb _ = true |- _ => apply negb_true_iff in H
  | H : (_ =? _) = true |- _ => apply Z.eqb_eq in H
  end.

Definition xor_sum (l : list Z) : Z := foldr Z.lxor 0 l.

Lemma xor_sum_cons x l : xor_sum (x :: l) = Z.lxor x (xor_sum l).
Proof. reflexivity. Qed.

Lemma xor_sum_app l k : xor_sum (l ++ k) = Z.lxor (xor_sum l) (xor_sum k).
Proof.
  induction l as [|x l IH]; simpl; [by rewrite Z.lxor_0_l|].
  rewrite IH. by rewrite Z.lxor_assoc.
Qed.

(** Replacing one summand [x] by [y] changes the sum by [x ⊕ y]. *)
Lemma xor_sum_insert (l : list Z) i x y :
  l !! i = Some x ->
  xor_sum (<[i:=y]> l) = Z.lxor (xor_sum l) (Z.lxor x y).
Proof.
  intros Hi. pose proof (lookup_lt_Some _ _ _ Hi) as Hlt.
  rewrite (insert_take_drop l i y Hlt).
  assert (Hl : xor_sum l = xor_sum (take i l ++ x :: drop (S i) l))
    by (by rewrite take_drop_middle).
  rewrite Hl, !xor_sum_app, !xor_sum_cons. xor_solve.
Qed.

(** XOR of values of width [w] stays of width [w]. *)
Lemma lxor_bound w a b :
  0 <= a < 2 ^ w -> 0 <= b < 2 ^ w -> 0 <= Z.lxor a b < 2 ^ w.
Proof.
  intros Ha Hb. split; [apply Z.lxor_nonneg; lia|].
  destruct (Z.eq_dec (Z.lxor a b) 0) as [->|Hne]; [lia|].
  assert (0 < w).
  { destruct (Z.lt_ge_cases 0 w) as [|Hw]; [done|].
    destruct (Z.eq_dec w 0) as [->|]; [|rewrite Z.pow_neg_r in Ha by lia; lia].
    simpl in *. assert (a = 0) as -> by lia. assert (b = 0) as -> by lia.
    done. }
  apply Z.log2_lt_pow2; [pose proof (Z.lxor_nonneg a b); lia|].
  eapply Z.le_lt_trans; [apply Z.log2_lxor; lia|].
  apply Z.max_lub_lt.
  - destruct (Z.eq_dec a 0) as [->|]; [simpl; lia|apply Z.log2_lt_pow2; lia].
  - destruct (Z.eq_dec b 0) as [->|]; [simpl; lia|apply Z.log2_lt_pow2; lia].
Qed.

Lemma lxor_cancel_r a b : Z.lxor (Z.lxor a b) b = a.
Proof. by rewrite Z.lxor_assoc, Z.lxor_nilpotent, Z.lxor_0_r. Qed.

(** ** Lists used as fixed-size arrays *)

(** [std::swap(l[i], l[j])]. *)
Definition list_swap {A} `{Inhabited A} (i j : nat) (l : list A) : list A :=
  <[j := l !!! i]> (<[i := l !!! j]> l).

Lemma length_list_swap {A} `{Inhabited A} i j (l : list A) :
  length (list_swap i j l) = length l.
Proof. unfold list_swap. by rewrite !length_insert. Qed.

(** Writing [y] at position [i] and appending the old value is a
    permutation of appending [y]. *)
Lemma insert_app_perm {A} (k : list A) i x y :
  k !! i = Some x -> <[i:=y]> k ++ [x] ≡ₚ k ++ [y].
Proof.
  intros Hi. rewrite (insert_take_drop k i y) by eauto using lookup_lt_Some.
  assert (Hk : k ++ [y] = (take i k ++ x :: drop (S i) k) ++ [y])
    by (by rewrite take_drop_middle).
  rewrite Hk, <-!app_assoc. apply Permutation_app_head. simpl.
  rewrite <-!Permutation_cons_append. apply Permutation_swap.
Qed.


(** Changing a function at one point [s] of a duplicate-free list
    changes the XOR of its image by [f s ⊕ g s]. *)
Lemma xor_sum_map_update (f g : Z -> Z) (l : list Z) s :
  NoDup l -> s ∈ l -> (forall x, x <> s -> f x = g x) ->
  xor_sum (map g l) = Z.lxor (xor_sum (map f l)) (Z.lxor (f s) (g s)).
Proof.
  intros Hnd Hin Hfg. induction l as [|x l IH]; [by apply not_elem_of_nil in Hin|].
  apply NoDup_cons in Hnd as [Hx Hnd]. cbn [map]. rewrite !xor_sum_cons.
  apply elem_of_cons in Hin as [->|Hin].
  - assert (Hl : map g l = map f l).
    { apply map_ext_in. intros y Hy%list_elem_of_In. symmetry. apply Hfg. set_solver. }
    rewrite Hl. xor_solve.
  - assert (x <> s) as Hxs by set_solver. rewrite <-(Hfg x Hxs), IH by done.
    xor_solve.
Qed.

(** A function that agrees with another off the list has the same XOR. *)
Lemma xor_sum_map_ext (f g : Z -> Z) (l : list Z) :
  (forall x, x ∈ l -> f x = g x) -> xor_sum (map f l) = xor_sum (map g l).
Proof.
  intros Hfg. f_equal. apply map_ext_in. intros y Hy%list_elem_of_In. by apply Hfg.
Qed.

(** ** Piece lists: a live prefix [take n l] of a fixed-size array *)

Lemma list_swap_same {A} `{Inhabited A} i (l : list A) : list_swap i i l = l.
Proof.
  unfold list_swap. destruct (l !! i) as [x|] eqn:Hi.
  - rewrite (list_lookup_total_correct l i x Hi). by rewrite !(list_insert_id l i x Hi).
  - assert (Hge : (length l <= i)%nat) by (by apply lookup_ge_None).
    by rewrite !(list_insert_ge l i) by done.
Qed.

(** [remove_piece]: swapping the found entry to the end of the live
    prefix and shortening it by one removes exactly that entry. *)
Lemma take_swap_last_perm {A} `{Inhabited A} (l : list A) i n x :
  (i < n)%nat -> (n <= length l)%nat -> l !! i = Some x ->
  take (n - 1) (list_swap i (n - 1) l) ++ [x] ≡ₚ take n l.
Proof.
  intros Hin Hn Hi.
  assert (Hlast : is_Some (l !! (n - 1)%nat)) by (apply lookup_lt_is_Some; lia).
  destruct Hlast as [y Hy].
  replace n with (S (n - 1)) at 3 by lia. rewrite (take_S_r l (n - 1) y Hy).
  destruct (decide (i = n - 1)%nat) as [->|Hne].
  - rewrite list_swap_same. rewrite Hi in Hy. by simplify_eq.
  - unfold list_swap. rewrite take_insert. rewrite decide_False by lia.
    rewrite take_insert, decide_True by lia.
    rewrite (list_lookup_total_correct l _ y Hy).
    apply insert_app_perm. rewrite lookup_take, decide_True by lia. done.
Qed.

Lemma take_insert_last {A} (l : list A) n x :
  (n < length l)%nat -> take (S n) (<[n:=x]> l) = take n l ++ [x].
Proof.
  intros Hn. rewrite (take_S_r _ n x) by (by apply list_lookup_insert_eq).
  rewrite take_insert, decide_False by lia. done.
Qed.

(** Membership after overwriting position [i] of a duplicate-free list. *)
Lemma elem_of_insert_nodup {A} (k : list A) i x y z :
  NoDup k -> k !! i = Some x ->
  z ∈ <[i:=y]> k <-> z = y \/ (z ∈ k /\ z <> x).
Proof.
  intros Hnd Hi. pose proof (lookup_lt_Some _ _ _ Hi) as Hlt.
  rewrite (insert_take_drop k i y Hlt).
  pose proof (take_drop_middle k i x Hi) as Hk.
  remember (take i k) as k1. remember (drop (S i) k) as k2.
  rewrite <-Hk in Hnd |- *.
  apply NoDup_app in Hnd as (_ & Hdisj & Hnd2). apply NoDup_cons in Hnd2 as [Hx _].
  assert (Hx' : x ∉ k1) by (intros Hin; by apply (Hdisj x Hin), elem_of_cons; left).
  rewrite !elem_of_app, !elem_of_cons. split.
  - intros [Hz|[->|Hz]]; [right; split; [by left|congruence]|by left|].
    right. split; [by right; right|congruence].
  - intros [->|[[Hz|[->|Hz]] Hne]]; auto; done.
Qed.

(** A list extended by one element is a permutation of a duplicate-free
    list: the prefix is duplicate-free and misses exactly that element. *)
Lemma perm_snoc_nodup {A} (k k0 : list A) s :
  k ++ [s] ≡ₚ k0 -> NoDup k0 ->
  NoDup k /\ (s ∉ k) /\ (forall t, t ∈ k <-> t ∈ k0 /\ t <> s).
Proof.
  intros Hp Hnd. assert (Hnd' : NoDup (k ++ [s])) by (by rewrite Hp).
  apply NoDup_app in Hnd' as (Hk & Hdisj & _).
  assert (Hs : s ∉ k) by (intros Hin; apply (Hdisj s Hin); by left).
  split; [done|split; [done|]]. intros t. rewrite <-Hp, elem_of_app, list_elem_of_singleton.
  split; [intros Ht; split; [by left|congruence]|intros [[Ht|Ht] Hne]; [done|congruence]].
Qed.

(** Overwriting the [i]-th entry [x] of a duplicate-free list by a fresh
    [y] keeps it duplicate-free and swaps [x] for [y] in its elements. *)
Lemma insert_fresh_nodup {A} (k : list A) i x y :
  NoDup k -> k !! i = Some x -> y ∉ k ->
  NoDup (<[i:=y]> k) /\ (forall t, t ∈ <[i:=y]> k <-> t = y \/ (t ∈ k /\ t <> x)).
Proof.
  intros Hnd Hi Hy. pose proof (insert_app_perm k i x y Hi) as Hp.
  assert (Hnd' : NoDup (k ++ [y])).
  { apply NoDup_app. split; [done|split; [|apply NoDup_singleton]].
    intros t Ht Ht'%list_elem_of_singleton. congruence. }
  rewrite <-Hp in Hnd'. apply NoDup_app in Hnd' as (Hk & Hdisj & _).
  split; [done|]. intros t. split.
  - intros Ht. assert (t ∈ k ++ [y]) as Ht' by (rewrite <-Hp; apply elem_of_app; by left).
    apply elem_of_app in Ht' as [Ht'|Ht']; [|apply list_elem_of_singleton in Ht'; by left].
    right. split; [done|]. intros ->. apply (Hdisj x Ht). by left.
  - intros Ht. assert (t ∈ k ++ [y]) as Ht'.
    { apply elem_of_app. destruct Ht as [->|[? _]]; [right; by left|by left]. }
    rewrite <-Hp in Ht'. apply elem_of_app in Ht' as [|Ht']; [done|].
    apply list_elem_of_singleton in Ht' as ->.
    destruct Ht as [Hty|[_ Hne]]; [|done].
    subst. apply list_elem_of_insert. by eapply lookup_lt_Some.
Qed.

(** ** Bounded loops as [forallb] over a range *)

Lemma forallb_seqZ (f : Z -> bool) m n :
  forallb f (seqZ m n) = true <-> forall x, m <= x < m + n -> f x = true.
Proof.
  rewrite forallb_forall. split; intros Hf x Hx; apply Hf.
  - apply list_elem_of_In, elem_of_seqZ. lia.
  - apply list_elem_of_In, elem_of_seqZ in Hx. lia.
Qed.

Lemma forallb_seq (f : nat -> bool) m n :
  forallb f (seq m n) = true <-> forall x, (m <= x < m + n)%nat -> f x = true.
Proof.
  rewrite forallb_forall. split; intros Hf x Hx; apply Hf.
  - apply in_seq. lia.
  - apply in_seq in Hx. lia.
Qed.

(** [cnt[g(s)]++] for each [s] of [l] counts the [s] with [g s = i]. *)
Lemma foldl_count {A} (g : A -> nat) (l : list A) (cnt : list nat) i :
  Forall (fun s => g s < length cnt)%nat l -> (i < length cnt)%nat ->
  foldl (fun c s => <[g s := S (c !!! g s)]> c) cnt l !!! i =
    (cnt !!! i + length (filter (fun s => g s = i) l))%nat.
Proof.
  remember (length cnt) as n eqn:Hn. revert cnt Hn.
  induction l as [|a l IH]; intros cnt Hn Hl Hi; simpl; [lia|].
  apply Forall_cons in Hl as [Ha Hl].
  rewrite IH by (rewrite ?length_insert; done). rewrite filter_cons.
  case_decide as Hgi.
  - subst i. rewrite list_lookup_total_insert, decide_True by lia. cbn [length]. lia.
  - by rewrite list_lookup_total_insert_ne.
Qed.

(** A prefix without repeated entries, from the pairwise check. *)
Lemma NoDup_take_pairwise {A} `{Inhabited A} (l : list A) n :
  (forall i j, (i < j < n)%nat -> l !!! i <> l !!! j) -> NoDup (take n l).
Proof.
  intros Hpw. apply NoDup_alt. intros i j x Hi Hj.
  rewrite lookup_take_Some in Hi, Hj. destruct Hi as [Hi Hin], Hj as [Hj Hjn].
  apply list_lookup_total_correct in Hi, Hj.
  destruct (Nat.lt_total i j) as [Hlt|[Heq|Hlt]]; [|done|].
  - exfalso. apply (Hpw i j); [lia|congruence].
  - exfalso. apply (Hpw j i); [lia|congruence].
Qed.

Lemma elem_of_take_total {A} `{Inhabited A} (l : list A) n x :
  (n <= length l)%nat -> x ∈ take n l <-> exists i, (i < n)%nat /\ l !!! i = x.
Proof.
  intros Hn. rewrite list_elem_of_lookup. split.
  - intros [i Hi]. apply lookup_take_Some in Hi as [Hi Hin].
    exists i. split; [done|]. by apply list_lookup_total_correct.
  - intros (i & Hin & <-). exists i. apply lookup_take_Some. split; [|done].
    apply list_lookup_lookup_total_lt. lia.
Qed.

Lemma Forall_flat_map {A B} (P : B -> Prop) (f : A -> list B) (l : list A) :
  (forall x, x ∈ l -> Forall P (f x)) -> Forall P (flat_map f l).
Proof.
  induction l as [|x l IH]; intros Hf; simpl; [constructor|].
  apply Forall_app. split; [apply Hf; by left|]. apply IH. intros y Hy. apply Hf. by right.
Qed.

Lemma existsb_ext_in {A} (f g : A -> bool) (l : list A) :
  (forall x, x ∈ l -> f x = g x) -> existsb f l = existsb g l.
Proof.
  induction l as [|x l IH]; intros Hfg; simpl; [done|].
  rewrite (Hfg x) by (by left). f_equal. apply IH. intros y Hy. apply Hfg. by right.
Qed.

(** Two lists whose one-element prefixes are permutations of each other
    have the same first entry. *)
Lemma take_1_perm_lookup {A} (l1 l2 : list A) :
  take 1 l1 ≡ₚ take 1 l2 -> l1 !! 0%nat = l2 !! 0%nat.
Proof.
  destruct l1 as [|x l1], l2 as [|y l2]; cbn; intros Hp; try done.
  - by apply Permutation_nil_cons in Hp.
  - symmetry in Hp. by apply Permutation_nil_cons in Hp.
  - by apply Permutation_length_1 in Hp as ->.
Qed.
