(* ===== verification/Encoding.v ===== *)
(** * Encoding: squares, pieces, sides and castle rights

    The headers [square.h], [piece.h] and [castle_state.h] that
    [board.cpp] includes are not part of the repository; their
    definitions are modelled from the specification (§3): a 10×12
    mailbox of squares, piece identifiers whose low three bits are the
    species and whose bit 3 is the colour, and a 4-bit castle mask.
    Enumeration constants are notations, as the C++ enumerators are. *)

From S2P Require Import Prelude.

(** ** Sides.  [m_next_move_colour] is a [bool]: WHITE = 0, BLACK = 1. *)
Abbreviation WHITE := false (only parsing).
Abbreviation BLACK := true (only parsing).

(** ** Squares of the 10×12 mailbox *)
Abbreviation A1 := 21 (only parsing).
Abbreviation B1 := 22 (only parsing).
Abbreviation C1 := 23 (only parsing).
Abbreviation D1 := 24 (only parsing).
Abbreviation E1 := 25 (only parsing).
Abbreviation F1 := 26 (only parsing).
Abbreviation G1 := 27 (only parsing).
Abbreviation H1 := 28 (only parsing).
Abbreviation A8 := 91 (only parsing).
Abbreviation B8 := 92 (only parsing).
Abbreviation C8 := 93 (only parsing).
Abbreviation D8 := 94 (only parsing).
Abbreviation E8 := 95 (only parsing).
Abbreviation F8 := 96 (only parsing).
Abbreviation G8 := 97 (only parsing).
Abbreviation H8 := 98 (only parsing).
Abbreviation INVALID_SQUARE := 0 (only parsing).

Abbreviation RANK_1 := 0 (only parsing).
Abbreviation RANK_2 := 1 (only parsing).
Abbreviation RANK_3 := 2 (only parsing).
Abbreviation RANK_6 := 5 (only parsing).
Abbreviation RANK_7 := 6 (only parsing).
Abbreviation RANK_8 := 7 (only parsing).

(** A playing square: the 8×8 interior of the mailbox. *)
Definition valid_square (sq : Z) : bool :=
  (21 <=? sq) && (sq <=? 98) && (1 <=? sq mod 10) && (sq mod 10 <=? 8).

Definition get_square_row (sq : Z) : Z := sq / 10 - 2.
Definition get_square_col (sq : Z) : Z := sq mod 10 - 1.
Definition get_square_120_rc (row col : Z) : Z := 21 + 10 * row + col.

(** ** Pieces: species in the low bits, colour in bit 3. *)
Abbreviation INVALID_PIECE := 0 (only parsing).
Abbreviation PAWN := 1 (only parsing).
Abbreviation KNIGHT := 2 (only parsing).
Abbreviation BISHOP := 3 (only parsing).
Abbreviation ROOK := 4 (only parsing).
Abbreviation QUEEN := 5 (only parsing).
Abbreviation KING := 6 (only parsing).
Abbreviation WHITE_PAWN := 1 (only parsing).
Abbreviation WHITE_KNIGHT := 2 (only parsing).
Abbreviation WHITE_BISHOP := 3 (only parsing).
Abbreviation WHITE_ROOK := 4 (only parsing).
Abbreviation WHITE_QUEEN := 5 (only parsing).
Abbreviation WHITE_KING := 6 (only parsing).
Abbreviation BLACK_PAWN := 9 (only parsing).
Abbreviation BLACK_KNIGHT := 10 (only parsing).
Abbreviation BLACK_BISHOP := 11 (only parsing).
Abbreviation BLACK_ROOK := 12 (only parsing).
Abbreviation BLACK_QUEEN := 13 (only parsing).
Abbreviation BLACK_KING := 14 (only parsing).
Abbreviation MAX_PIECE_FREQ := 10%nat (only parsing).

Definition piece_species (p : Z) : Z := Z.land p 7.

Definition valid_piece (p : Z) : bool :=
  (0 <=? p) && (p <? 16) && (1 <=? piece_species p) && (piece_species p <=? 6).

Definition get_side (p : Z) : bool := Z.testbit p 3.

Definition is_pawn (p : Z) : bool := valid_piece p && (piece_species p =? PAWN).
Definition is_king (p : Z) : bool := valid_piece p && (piece_species p =? KING).
Definition is_diag (p : Z) : bool :=
  valid_piece p && ((piece_species p =? BISHOP) || (piece_species p =? QUEEN)).
Definition is_ortho (p : Z) : bool :=
  valid_piece p && ((piece_species p =? ROOK) || (piece_species p =? QUEEN)).
(** Pieces whose departure from a home square costs castle rights. *)
Definition is_castle (p : Z) : bool :=
  valid_piece p && ((piece_species p =? ROOK) || (piece_species p =? KING)).
Definition opposite_colours (a b : Z) : bool :=
  valid_piece a && valid_piece b && xorb (get_side a) (get_side b).

(** The pieces of the side to move, as [pseudo_moves] selects them. *)
Definition side_piece (side : bool) (species : Z) : Z :=
  if side then species + 8 else species.

(** ** Castle rights: a 4-bit mask. *)
Abbreviation WHITE_SHORT := 1 (only parsing).
Abbreviation WHITE_LONG := 2 (only parsing).
Abbreviation BLACK_SHORT := 4 (only parsing).
Abbreviation BLACK_LONG := 8 (only parsing).

(** ** Basic facts, by enumeration of the finitely many codes *)

Lemma valid_square_range sq : valid_square sq = true -> 21 <= sq <= 98.
Proof. unfold valid_square. intros H. repeat (apply andb_prop in H as [H ?]). lia. Qed.

(** Every valid square is one of the 64 interior cells. *)
Lemma valid_square_cases sq :
  valid_square sq = true -> sq ∈ (filter (fun s => valid_square s = true) (seqZ 21 78)).
Proof.
  intros H. pose proof (valid_square_range sq H).
  apply list_elem_of_filter. split; [done|]. apply elem_of_seqZ. lia.
Qed.

Lemma valid_piece_range p : valid_piece p = true -> 0 <= p < 16.
Proof. unfold valid_piece. intros H. repeat (apply andb_prop in H as [H ?]). lia. Qed.

Lemma valid_piece_not_invalid p : valid_piece p = true -> p <> INVALID_PIECE.
Proof. intros H ->. discriminate. Qed.

#[export] Hint Resolve valid_square_range valid_piece_range valid_piece_not_invalid : chess.
