(* ===== verification/Move.v ===== *)
(** * Move: the packed move word

    [move.hpp] is not part of the repository; the move type, its
    constructors and accessors are modelled from the specification
    (§4.1).  A move carries six fields; [encode_move] packs them into
    one 29-bit word (7 bits per square, 4 bits per piece, 3 bits of
    flag) and [decode_move] unpacks it.  [board.cpp] only uses the
    accessors, so the board model works on the decoded record and the
    round-trip theorem [decode_encode_move] justifies it. *)

From S2P Require Import Prelude Encoding.

Inductive MoveFlag :=
  | QUIET_MOVE | DOUBLE_PAWN_MOVE | CAPTURE_MOVE | EN_PASSANT_MOVE
  | SHORT_CASTLE_MOVE | LONG_CASTLE_MOVE | PROMOTE_MOVE | PROMOTE_CAPTURE_MOVE.

#[export] Instance MoveFlag_eq_dec : EqDecision MoveFlag.
Proof. solve_decision. Defined.

Record move_t := mk_move {
  move_from : Z;
  move_to : Z;
  moved_piece : Z;
  captured_piece : Z;
  promoted_piece : Z;
  move_flag : MoveFlag
}.

#[export] Instance move_t_eq_dec : EqDecision move_t.
Proof. solve_decision. Defined.

(** ** Constructors *)
Definition quiet_move (from to moved : Z) : move_t :=
  mk_move from to moved INVALID_PIECE INVALID_PIECE QUIET_MOVE.
Definition double_move (from to moved : Z) : move_t :=
  mk_move from to moved INVALID_PIECE INVALID_PIECE DOUBLE_PAWN_MOVE.
Definition capture_move (from to moved captured : Z) : move_t :=
  mk_move from to moved captured INVALID_PIECE CAPTURE_MOVE.
(** The captured pawn is the opponent's pawn, [moved ^ 8]. *)
Definition en_passant_move (from to moved : Z) : move_t :=
  mk_move from to moved (Z.lxor moved 8) INVALID_PIECE EN_PASSANT_MOVE.
Definition castle_move (from to moved : Z) (flag : MoveFlag) : move_t :=
  mk_move from to moved INVALID_PIECE INVALID_PIECE flag.
Definition promote_move (from to moved promoted : Z) : move_t :=
  mk_move from to moved INVALID_PIECE promoted PROMOTE_MOVE.
Definition promote_capture_move (from to moved promoted captured : Z) : move_t :=
  mk_move from to moved captured promoted PROMOTE_CAPTURE_MOVE.

(** ** Derived predicates *)
Definition move_promoted (m : move_t) : bool :=
  match move_flag m with PROMOTE_MOVE | PROMOTE_CAPTURE_MOVE => true | _ => false end.
Definition move_captured (m : move_t) : bool :=
  match move_flag m with
  | CAPTURE_MOVE | EN_PASSANT_MOVE | PROMOTE_CAPTURE_MOVE => true
  | _ => false
  end.
Definition move_castled (m : move_t) : bool :=
  match move_flag m with SHORT_CASTLE_MOVE | LONG_CASTLE_MOVE => true | _ => false end.

(** ** Packing into one word *)
Definition flag_to_Z (f : MoveFlag) : Z :=
  match f with
  | QUIET_MOVE => 0 | DOUBLE_PAWN_MOVE => 1 | CAPTURE_MOVE => 2
  | EN_PASSANT_MOVE => 3 | SHORT_CASTLE_MOVE => 4 | LONG_CASTLE_MOVE => 5
  | PROMOTE_MOVE => 6 | PROMOTE_CAPTURE_MOVE => 7
  end.

Definition flag_of_Z (z : Z) : MoveFlag :=
  match z with
  | 1 => DOUBLE_PAWN_MOVE | 2 => CAPTURE_MOVE | 3 => EN_PASSANT_MOVE
  | 4 => SHORT_CASTLE_MOVE | 5 => LONG_CASTLE_MOVE | 6 => PROMOTE_MOVE
  | 7 => PROMOTE_CAPTURE_MOVE | _ => QUIET_MOVE
  end.

(** [lo] in the low [w] bits, [hi] above them. *)
Definition pack (lo : Z) (w : Z) (hi : Z) : Z := Z.lor lo (Z.shiftl hi w).
Definition low_bits (w z : Z) : Z := Z.land z (Z.ones w).

Definition encode_move (m : move_t) : Z :=
  pack (move_from m) 7 (pack (move_to m) 7 (pack (moved_piece m) 4
    (pack (captured_piece m) 4 (pack (promoted_piece m) 4 (flag_to_Z (move_flag m)))))).

Definition decode_move (z : Z) : move_t :=
  let z1 := Z.shiftr z 7 in
  let z2 := Z.shiftr z1 7 in
  let z3 := Z.shiftr z2 4 in
  let z4 := Z.shiftr z3 4 in
  let z5 := Z.shiftr z4 4 in
  mk_move (low_bits 7 z) (low_bits 7 z1) (low_bits 4 z2) (low_bits 4 z3)
          (low_bits 4 z4) (flag_of_Z (low_bits 3 z5)).

(** The fields a move word can hold. *)
Definition move_fields_ok (m : move_t) : Prop :=
  0 <= move_from m < 2 ^ 7 /\ 0 <= move_to m < 2 ^ 7 /\
  0 <= moved_piece m < 2 ^ 4 /\ 0 <= captured_piece m < 2 ^ 4 /\
  0 <= promoted_piece m < 2 ^ 4.

(** ** Bit-level lemmas *)

Lemma land_low_high_zero lo w hi :
  0 <= w -> 0 <= lo < 2 ^ w -> Z.land lo (hi * 2 ^ w) = 0.
Proof.
  intros Hw Hlo. apply Z.bits_inj'. intros n Hn.
  rewrite Z.land_spec, Z.bits_0, <-Z.shiftl_mul_pow2 by done.
  destruct (Z.lt_ge_cases n w).
  - by rewrite Z.shiftl_spec_low, andb_false_r.
  - rewrite <-(Z.mod_small lo (2 ^ w)) by lia.
    by rewrite Z.mod_pow2_bits_high by lia.
Qed.

Lemma pack_add lo w hi :
  0 <= w -> 0 <= lo < 2 ^ w -> pack lo w hi = lo + hi * 2 ^ w.
Proof.
  intros Hw Hlo. unfold pack. rewrite Z.shiftl_mul_pow2 by done.
  rewrite <-Z.lxor_lor by (by apply land_low_high_zero).
  symmetry. apply Z.add_nocarry_lxor. by apply land_low_high_zero.
Qed.

Lemma low_bits_pack lo w hi :
  0 <= w -> 0 <= lo < 2 ^ w -> low_bits w (pack lo w hi) = lo.
Proof.
  intros Hw Hlo. unfold low_bits. rewrite pack_add, Z.land_ones by lia.
  rewrite Z.mod_add by (apply Z.pow_nonzero; lia). by apply Z.mod_small.
Qed.

Lemma shiftr_pack lo w hi :
  0 <= w -> 0 <= lo < 2 ^ w -> Z.shiftr (pack lo w hi) w = hi.
Proof.
  intros Hw Hlo. rewrite pack_add, Z.shiftr_div_pow2 by lia.
  rewrite Z.div_add by (apply Z.pow_nonzero; lia). rewrite Z.div_small by lia. lia.
Qed.

Lemma flag_of_to_Z f : flag_of_Z (flag_to_Z f) = f.
Proof. by destruct f. Qed.

Lemma flag_to_Z_range f : 0 <= flag_to_Z f < 2 ^ 3.
Proof. destruct f; simpl; lia. Qed.

Lemma pack_range lo w hi v :
  0 <= w -> 0 <= lo < 2 ^ w -> 0 <= hi < 2 ^ v -> 0 <= pack lo w hi < 2 ^ (v + w).
Proof.
  intros Hw Hlo Hhi. rewrite pack_add by done.
  assert (0 <= v) by (destruct (Z.lt_ge_cases v 0); [rewrite Z.pow_neg_r in Hhi by lia; lia|done]).
  rewrite Z.pow_add_r by lia. nia.
Qed.

Lemma low_bits_small w z : 0 <= w -> 0 <= z < 2 ^ w -> low_bits w z = z.
Proof. intros. unfold low_bits. rewrite Z.land_ones by done. by apply Z.mod_small. Qed.

Create Rewrite HintDb chess_bits.
#[export] Hint Rewrite low_bits_pack shiftr_pack using lia : chess_bits.

(** ** Round trip *)

(** Packing then unpacking a move whose fields fit their widths gives
    the move back. *)
Theorem decode_encode_move (m : move_t) :
  move_fields_ok m -> decode_move (encode_move m) = m.
Proof.
  destruct m as [f t mv c p fl]. unfold move_fields_ok; simpl.
  intros (Hf & Ht & Hmv & Hc & Hp).
  unfold decode_move, encode_move; cbn [move_from move_to moved_piece
    captured_piece promoted_piece move_flag].
  autorewrite with chess_bits.
  rewrite low_bits_small by (pose proof (flag_to_Z_range fl); lia).
  by rewrite flag_of_to_Z.
Qed.

(** The packed word fits in 29 bits, hence in a 32-bit [move_t]. *)
Theorem encode_move_range (m : move_t) :
  move_fields_ok m -> 0 <= encode_move m < 2 ^ 29.
Proof.
  destruct m as [f t mv c p fl]. unfold move_fields_ok; simpl.
  intros (Hf & Ht & Hmv & Hc & Hp). unfold encode_move; cbn [move_from move_to
    moved_piece captured_piece promoted_piece move_flag].
  pose proof (flag_to_Z_range fl).
  change 29 with (((((3 + 4) + 4) + 4) + 7) + 7).
  repeat (apply pack_range; [lia|lia|]). lia.
Qed.

Corollary encode_move_inj (m1 m2 : move_t) :
  move_fields_ok m1 -> move_fields_ok m2 -> encode_move m1 = encode_move m2 -> m1 = m2.
Proof.
  intros H1 H2 He. rewrite <-(decode_encode_move m1 H1), <-(decode_encode_move m2 H2).
  by rewrite He.
Qed.
