(* ===== verification/Zobrist.v ===== *)
(** * Zobrist: the hash tables as an interface

    [hash.hpp] is not part of the repository.  The specification (§4.2)
    fixes only what the board relies on: a table [piece_hash[sq][piece]]
    that is zero for the empty marker, a table [castle_hash] over the 16
    castle masks, a table [enpas_hash] that is zero at [INVALID_SQUARE],
    and one [side_hash], all 64-bit.  [Zobrist] holds the tables and
    [ZobristOk] their laws; every theorem about the incremental hash
    is proved for any tables that satisfy the laws.  [example_tables]
    is one concrete instance, used by the witnesses. *)

From S2P Require Import Prelude Encoding.

Class Zobrist := {
  piece_hash : Z -> Z -> Z;
  castle_hash : Z -> Z;
  enpas_hash : Z -> Z;
  side_hash : Z
}.

Definition hash_width : Z := 64.

Class ZobristOk `{Zobrist} := {
  piece_hash_invalid : forall sq, piece_hash sq INVALID_PIECE = 0;
  enpas_hash_invalid : enpas_hash INVALID_SQUARE = 0;
  piece_hash_range : forall sq p, 0 <= piece_hash sq p < 2 ^ hash_width;
  castle_hash_range : forall c, 0 <= castle_hash c < 2 ^ hash_width;
  enpas_hash_range : forall sq, 0 <= enpas_hash sq < 2 ^ hash_width;
  side_hash_range : 0 <= side_hash < 2 ^ hash_width
}.

(** ** A concrete instance: multiplicative mixing modulo 2^64 *)

Definition mix (k : Z) : Z := (k * 11400714819323198485 + 7046029254386353131) mod 2 ^ 64.

#[local] Instance example_tables : Zobrist := {|
  piece_hash sq p := if valid_piece p && valid_square sq then mix (16 * sq + p) else 0;
  castle_hash c := mix (4096 + c);
  enpas_hash sq := if valid_square sq then mix (8192 + sq) else 0;
  side_hash := mix 16384
|}.

Lemma mix_range k : 0 <= mix k < 2 ^ hash_width.
Proof. unfold mix, hash_width. apply Z.mod_pos_bound. lia. Qed.

#[local] Instance example_tables_ok : ZobristOk.
Proof.
  split.
  - done.
  - done.
  - intros sq p. cbn -[mix]. destruct (_ && _); [apply mix_range|unfold hash_width; lia].
  - intros c. apply mix_range.
  - intros sq. cbn -[mix]. destruct (valid_square sq); [apply mix_range|unfold hash_width; lia].
  - apply mix_range.
Qed.
