(* ===== verification/Board.v ===== *)
(** * Board: the position, its piece-list index and its hash

    Models the state of [class Board] ([board.cpp]) and its primitive
    mutators [remove_piece], [add_piece], [move_piece],
    [set_castle_state], [set_en_passant], [update_castling] and
    [switch_colours] (lines 580-649), together with [compute_hash]
    (lines 256-274).  The 120-cell mailbox [m_pieces] and the 16 piece
    lists [m_positions] (fixed arrays of [MAX_PIECE_FREQ] squares, of
    which the first [m_num_pieces[p]] are live) are stdpp lists updated
    by index.  A failed [ASSERT] and an out-of-range array write are
    both "no result": the primitives return [option Board].

    The invariant [board_wf] is the content of [validate_board]'s
    piece-list checks: each live piece list holds, without repetition,
    exactly the squares carrying that piece.  [hash_ok] states that the
    stored hash is the recomputed one.  Both are preserved by every
    primitive, for any Zobrist tables satisfying [ZobristOk]. *)

From S2P Require Import Prelude Encoding Move Zobrist.

(** ** State *)

(** One undo record of [m_history]. *)
Record history_t := mk_history {
  h_move : move_t;
  h_castle_state : Z;
  h_en_passant : Z;
  h_fifty_move : Z;
  h_hash : Z
}.

Record Board := mk_board {
  m_pieces : list Z;
  m_positions : list (list Z);
  m_num_pieces : list nat;
  m_next_move_colour : bool;
  m_castle_state : Z;
  m_en_passant : Z;
  m_fifty_move : Z;
  m_half_move : Z;
  m_hash : Z;
  m_history : list history_t;
  m_move_cache : gmap Z (list move_t)
}.

(** ** Reading the arrays *)

(** [m_pieces[sq]]; an index outside the array reads as empty, and the
    bound theorems show that the code never reads there. *)
Definition piece_at (b : Board) (sq : Z) : Z :=
  if 0 <=? sq then default INVALID_PIECE (m_pieces b !! Z.to_nat sq) else INVALID_PIECE.

Definition plist (b : Board) (p : Z) : list Z := default [] (m_positions b !! Z.to_nat p).
Definition pcount (b : Board) (p : Z) : nat := default 0%nat (m_num_pieces b !! Z.to_nat p).
(** The live part [m_positions[p][0 .. m_num_pieces[p])]. *)
Definition plive (b : Board) (p : Z) : list Z := take (pcount b p) (plist b p).

Definition in_board (sq : Z) : bool := (0 <=? sq) && (sq <? 120).

(** ** Field updates *)

Definition with_pieces (l : list Z) (b : Board) : Board :=
  mk_board l (m_positions b) (m_num_pieces b) (m_next_move_colour b) (m_castle_state b)
    (m_en_passant b) (m_fifty_move b) (m_half_move b) (m_hash b) (m_history b) (m_move_cache b).
Definition with_positions (l : list (list Z)) (b : Board) : Board :=
  mk_board (m_pieces b) l (m_num_pieces b) (m_next_move_colour b) (m_castle_state b)
    (m_en_passant b) (m_fifty_move b) (m_half_move b) (m_hash b) (m_history b) (m_move_cache b).
Definition with_num_pieces (l : list nat) (b : Board) : Board :=
  mk_board (m_pieces b) (m_positions b) l (m_next_move_colour b) (m_castle_state b)
    (m_en_passant b) (m_fifty_move b) (m_half_move b) (m_hash b) (m_history b) (m_move_cache b).
Definition with_colour (c : bool) (b : Board) : Board :=
  mk_board (m_pieces b) (m_positions b) (m_num_pieces b) c (m_castle_state b)
    (m_en_passant b) (m_fifty_move b) (m_half_move b) (m_hash b) (m_history b) (m_move_cache b).
Definition with_castle (c : Z) (b : Board) : Board :=
  mk_board (m_pieces b) (m_positions b) (m_num_pieces b) (m_next_move_colour b) c
    (m_en_passant b) (m_fifty_move b) (m_half_move b) (m_hash b) (m_history b) (m_move_cache b).
Definition with_en_passant (e : Z) (b : Board) : Board :=
  mk_board (m_pieces b) (m_positions b) (m_num_pieces b) (m_next_move_colour b)
    (m_castle_state b) e (m_fifty_move b) (m_half_move b) (m_hash b) (m_history b) (m_move_cache b).
Definition with_fifty (f : Z) (b : Board) : Board :=
  mk_board (m_pieces b) (m_positions b) (m_num_pieces b) (m_next_move_colour b)
    (m_castle_state b) (m_en_passant b) f (m_half_move b) (m_hash b) (m_history b) (m_move_cache b).
Definition with_half (h : Z) (b : Board) : Board :=
  mk_board (m_pieces b) (m_positions b) (m_num_pieces b) (m_next_move_colour b)
    (m_castle_state b) (m_en_passant b) (m_fifty_move b) h (m_hash b) (m_history b) (m_move_cache b).
Definition with_hash (h : Z) (b : Board) : Board :=
  mk_board (m_pieces b) (m_positions b) (m_num_pieces b) (m_next_move_colour b)
    (m_castle_state b) (m_en_passant b) (m_fifty_move b) (m_half_move b) h (m_history b) (m_move_cache b).
Definition with_history (h : list history_t) (b : Board) : Board :=
  mk_board (m_pieces b) (m_positions b) (m_num_pieces b) (m_next_move_colour b)
    (m_castle_state b) (m_en_passant b) (m_fifty_move b) (m_half_move b) (m_hash b) h (m_move_cache b).
Definition with_cache (c : gmap Z (list move_t)) (b : Board) : Board :=
  mk_board (m_pieces b) (m_positions b) (m_num_pieces b) (m_next_move_colour b)
    (m_castle_state b) (m_en_passant b) (m_fifty_move b) (m_half_move b) (m_hash b) (m_history b) c.

(** [m_pieces[sq] = v], [m_positions[p] = l], [m_num_pieces[p] = n], [m_hash ^= d]. *)
Definition write_piece (sq v : Z) (b : Board) : Board :=
  with_pieces (<[Z.to_nat sq := v]> (m_pieces b)) b.
Definition write_plist (p : Z) (l : list Z) (b : Board) : Board :=
  with_positions (<[Z.to_nat p := l]> (m_positions b)) b.
Definition write_pcount (p : Z) (n : nat) (b : Board) : Board :=
  with_num_pieces (<[Z.to_nat p := n]> (m_num_pieces b)) b.
Definition xor_hash (d : Z) (b : Board) : Board := with_hash (Z.lxor (m_hash b) d) b.

Section Primitives.
Context `{Zobrist}.

(** ** The full recomputation, [Board::compute_hash] *)

(** The loop over the 120 cells, for a given cell contents. *)
Definition cells_hash (cell : Z -> Z) : Z :=
  xor_sum (map (fun sq => piece_hash sq (cell sq)) (seqZ 0 120)).

Definition compute_hash (b : Board) : Z :=
  Z.lxor (Z.lxor (Z.lxor (cells_hash (piece_at b))
    (castle_hash (m_castle_state b)))
    (enpas_hash (m_en_passant b)))
    (if m_next_move_colour b then side_hash else 0).

(** ** [Board::remove_piece] *)
Definition remove_piece (sq : Z) (b : Board) : option Board :=
  let piece := piece_at b sq in
  if negb (valid_piece piece) then None else
  let n := pcount b piece in
  let l := plist b piece in
  match list_find (fun x => x = sq) (take n l) with
  | None => None
  | Some (i, _) =>
      Some (xor_hash (piece_hash sq piece)
        (write_plist piece (list_swap i (n - 1) l)
          (write_pcount piece (n - 1) (write_piece sq INVALID_PIECE b))))
  end.

(** ** [Board::add_piece]; writing [m_positions[piece][MAX_PIECE_FREQ]]
    or outside [m_pieces] is undefined behaviour, hence no result. *)
Definition add_piece (sq piece : Z) (b : Board) : option Board :=
  if negb (valid_piece piece) then None else
  if negb (piece_at b sq =? INVALID_PIECE) then None else
  if negb (in_board sq) then None else
  let n := pcount b piece in
  let l := plist b piece in
  if negb (n <? length l)%nat then None else
  Some (xor_hash (piece_hash sq piece)
    (write_pcount piece (S n) (write_plist piece (<[n := sq]> l) (write_piece sq piece b)))).

(** ** [Board::set_castle_state] and [Board::set_en_passant] *)
Definition set_castle_state (state : Z) (b : Board) : Board :=
  with_castle state
    (xor_hash (Z.lxor (castle_hash (m_castle_state b)) (castle_hash state)) b).

Definition set_en_passant (sq : Z) (b : Board) : Board :=
  with_en_passant sq
    (xor_hash (Z.lxor (enpas_hash (m_en_passant b)) (enpas_hash sq)) b).

(** ** [Board::move_piece] *)
Definition move_piece (from to : Z) (b : Board) : option Board :=
  if negb (piece_at b to =? INVALID_PIECE) then None else
  if negb (in_board to) then None else
  let piece := piece_at b from in
  let b1 := write_piece to piece (write_piece from INVALID_PIECE b) in
  let l := plist b piece in
  match list_find (fun x => x = from) (take (pcount b piece) l) with
  | None => None
  | Some (i, _) =>
      Some (xor_hash (Z.lxor (piece_hash from piece) (piece_hash to piece))
        (write_plist piece (<[i := to]> l) b1))
  end.

(** ** [Board::update_castling] *)
Definition update_castling (sq moved : Z) (b : Board) : Board :=
  if negb (is_castle moved) then b else
  let s0 := m_castle_state b in
  let s1 := if (sq =? E1) || (sq =? A1) then Z.land s0 (Z.lnot WHITE_LONG) else s0 in
  let s2 := if (sq =? E1) || (sq =? H1) then Z.land s1 (Z.lnot WHITE_SHORT) else s1 in
  let s3 := if (sq =? E8) || (sq =? A8) then Z.land s2 (Z.lnot BLACK_LONG) else s2 in
  let s4 := if (sq =? E8) || (sq =? H8) then Z.land s3 (Z.lnot BLACK_SHORT) else s3 in
  with_castle s4 (xor_hash (Z.lxor (castle_hash s0) (castle_hash s4)) b).

(** ** [Board::switch_colours] *)
Definition switch_colours (b : Board) : Board :=
  xor_hash side_hash (with_colour (negb (m_next_move_colour b)) b).

End Primitives.

(** ** The piece-list invariant ([validate_board], lines 140-168) *)

Record board_wf (b : Board) : Prop := {
  wf_pieces_len : length (m_pieces b) = 120%nat;
  wf_positions_len : length (m_positions b) = 16%nat;
  wf_num_len : length (m_num_pieces b) = 16%nat;
  wf_plist_len : forall p, 0 <= p < 16 -> length (plist b p) = MAX_PIECE_FREQ;
  wf_cells : forall sq, piece_at b sq = INVALID_PIECE \/
                   (valid_square sq = true /\ valid_piece (piece_at b sq) = true);
  wf_count : forall p, 0 <= p < 16 -> (pcount b p <= MAX_PIECE_FREQ)%nat;
  wf_nodup : forall p, 0 <= p < 16 -> NoDup (plive b p);
  wf_index : forall p sq, 0 <= p < 16 ->
               sq ∈ plive b p <-> piece_at b sq = p /\ valid_piece p = true;
  wf_castle : 0 <= m_castle_state b < 16
}.

Definition hash_ok `{Zobrist} (b : Board) : Prop := m_hash b = compute_hash b.

(** ** Reading after writing *)

Lemma piece_at_write b s v t :
  0 <= s -> (Z.to_nat s < length (m_pieces b))%nat ->
  piece_at (write_piece s v b) t = if decide (t = s) then v else piece_at b t.
Proof.
  intros Hs Hlen. unfold piece_at, write_piece; cbn [m_pieces with_pieces].
  case_decide as Hts.
  - subst. rewrite (proj2 (Z.leb_le 0 s) Hs). by rewrite list_lookup_insert_eq.
  - destruct (Z.leb_spec 0 t); [|done].
    rewrite list_lookup_insert_ne; [done|lia].
Qed.

Lemma plist_write b p l q :
  0 <= p -> 0 <= q -> (Z.to_nat p < length (m_positions b))%nat ->
  plist (write_plist p l b) q = if decide (q = p) then l else plist b q.
Proof.
  intros Hp Hq Hlen. unfold plist, write_plist; cbn [m_positions with_positions].
  case_decide as Hqp.
  - subst. by rewrite list_lookup_insert_eq.
  - rewrite list_lookup_insert_ne; [done|lia].
Qed.

Lemma pcount_write b p n q :
  0 <= p -> 0 <= q -> (Z.to_nat p < length (m_num_pieces b))%nat ->
  pcount (write_pcount p n b) q = if decide (q = p) then n else pcount b q.
Proof.
  intros Hp Hq Hlen. unfold pcount, write_pcount; cbn [m_num_pieces with_num_pieces].
  case_decide as Hqp.
  - subst. by rewrite list_lookup_insert_eq.
  - rewrite list_lookup_insert_ne; [done|lia].
Qed.

Lemma piece_at_in_board b sq : piece_at b sq <> INVALID_PIECE ->
  length (m_pieces b) = 120%nat -> 0 <= sq < 120.
Proof.
  unfold piece_at. intros Hne Hlen. destruct (Z.leb_spec 0 sq); [|done].
  destruct (m_pieces b !! Z.to_nat sq) eqn:E; [|done].
  apply lookup_lt_Some in E. lia.
Qed.

Lemma plive_length b p : board_wf b -> 0 <= p < 16 -> length (plive b p) = pcount b p.
Proof.
  intros Hwf Hp. unfold plive. rewrite length_take.
  pose proof (wf_plist_len b Hwf p Hp). pose proof (wf_count b Hwf p Hp). lia.
Qed.

(** A piece on the board is in its own range of identifiers. *)
Lemma piece_at_range b sq : board_wf b -> 0 <= piece_at b sq < 16.
Proof.
  intros Hwf. destruct (wf_cells b Hwf sq) as [->|[_ Hv]]; [lia|].
  by apply valid_piece_range.
Qed.

#[export] Hint Resolve piece_at_range plive_length : chess.

(** ** What the primitives leave alone *)

(** The fields other than the arrays and the hash. *)
Definition same_scalars (b b' : Board) : Prop :=
  m_next_move_colour b' = m_next_move_colour b /\ m_castle_state b' = m_castle_state b /\
  m_en_passant b' = m_en_passant b /\ m_fifty_move b' = m_fifty_move b /\
  m_half_move b' = m_half_move b /\ m_history b' = m_history b /\
  m_move_cache b' = m_move_cache b.

(** The array sizes. *)
Definition same_shape (b b' : Board) : Prop :=
  length (m_pieces b') = length (m_pieces b) /\
  length (m_positions b') = length (m_positions b) /\
  length (m_num_pieces b') = length (m_num_pieces b) /\
  forall p, 0 <= p -> length (plist b' p) = length (plist b p).

Lemma same_shape_wf b b' : same_shape b b' -> board_wf b ->
  length (m_pieces b') = 120%nat /\ length (m_positions b') = 16%nat /\
  length (m_num_pieces b') = 16%nat /\
  (forall p, 0 <= p < 16 -> length (plist b' p) = MAX_PIECE_FREQ).
Proof.
  intros (H1 & H2 & H3 & H4) Hwf. rewrite H1, H2, H3. split; [apply Hwf|].
  split; [apply Hwf|]. split; [apply Hwf|]. intros p Hp. rewrite H4 by lia. by apply Hwf.
Qed.

(** Push the array readers through wrappers that do not touch the
    array they read. *)
Ltac board_norm :=
  repeat match goal with
  | |- context [piece_at (?w ?b) ?t] => progress change (piece_at (w b) t) with (piece_at b t)
  | |- context [piece_at (?w ?b)] => progress change (piece_at (w b)) with (piece_at b)
  | |- context [plist (?w ?b) ?t] => progress change (plist (w b) t) with (plist b t)
  | |- context [pcount (?w ?b) ?t] => progress change (pcount (w b) t) with (pcount b t)
  | |- context [plive (?w ?b) ?t] => progress change (plive (w b) t) with (plive b t)
  | |- context [m_pieces (?w ?b)] => progress change (m_pieces (w b)) with (m_pieces b)
  | |- context [m_positions (?w ?b)] => progress change (m_positions (w b)) with (m_positions b)
  | |- context [m_num_pieces (?w ?b)] => progress change (m_num_pieces (w b)) with (m_num_pieces b)
  end.

Ltac board_simpl :=
  cbn [m_pieces m_positions m_num_pieces m_next_move_colour m_castle_state m_en_passant
       m_fifty_move m_half_move m_hash m_history m_move_cache with_pieces with_positions
       with_num_pieces with_colour with_castle with_en_passant with_fifty with_half with_hash
       with_history with_cache write_piece write_plist write_pcount xor_hash] in *.

Lemma board_wf_of b b' :
  board_wf b -> same_shape b b' -> m_castle_state b' = m_castle_state b ->
  (forall t, piece_at b' t = INVALID_PIECE \/
             (valid_square t = true /\ valid_piece (piece_at b' t) = true)) ->
  (forall q, 0 <= q < 16 -> (pcount b' q <= MAX_PIECE_FREQ)%nat /\ NoDup (plive b' q) /\
     forall t, t ∈ plive b' q <-> piece_at b' t = q /\ valid_piece q = true) ->
  board_wf b'.
Proof.
  intros Hwf Hsh Hc Hcells Hq. destruct (same_shape_wf b b' Hsh Hwf) as (? & ? & ? & ?).
  constructor; try done.
  - intros q Hr. by apply Hq.
  - intros q Hr. by apply Hq.
  - intros q t Hr. by apply Hq.
  - rewrite Hc. apply Hwf.
Qed.

(** The piece lists and counts of every piece but [p]. *)
Definition other_lists_same (b b' : Board) (p : Z) : Prop :=
  forall q, 0 <= q -> q <> p -> plist b' q = plist b q /\ pcount b' q = pcount b q.

(** A piece list the operation did not touch still indexes its piece. *)
Lemma untouched_list_ok b b' p q :
  board_wf b -> other_lists_same b b' p -> 0 <= q < 16 -> q <> p ->
  (forall t, valid_piece q = true -> piece_at b' t = q <-> piece_at b t = q) ->
  (pcount b' q <= MAX_PIECE_FREQ)%nat /\ NoDup (plive b' q) /\
  forall t, t ∈ plive b' q <-> piece_at b' t = q /\ valid_piece q = true.
Proof.
  intros Hwf Hoth Hq Hqp Hcell. destruct (Hoth q ltac:(lia) Hqp) as [Hl Hc].
  unfold plive. rewrite Hl, Hc. fold (plive b q).
  split; [by apply Hwf|]. split; [by apply Hwf|].
  intros t. rewrite (wf_index b Hwf q t Hq). split; intros [Ht Hv]; split; try done;
    by apply Hcell.
Qed.

Section PrimitiveSpecs.
Context `{Zobrist}.

(** *** [remove_piece] *)
Lemma remove_piece_spec b sq b' :
  board_wf b -> remove_piece sq b = Some b' ->
  let p := piece_at b sq in
  valid_piece p = true /\ 0 <= sq < 120 /\ same_scalars b b' /\ same_shape b b' /\
  (forall t, piece_at b' t = if decide (t = sq) then INVALID_PIECE else piece_at b t) /\
  other_lists_same b b' p /\ pcount b' p = (pcount b p - 1)%nat /\
  plive b' p ++ [sq] ≡ₚ plive b p /\
  m_hash b' = Z.lxor (m_hash b) (piece_hash sq p).
Proof.
  intros Hwf Hrem p. unfold remove_piece in Hrem. fold p in Hrem.
  destruct (valid_piece p) eqn:Hv; [|done]. cbn [negb] in Hrem.
  destruct (list_find _ _) as [[i x]|] eqn:Hf; [|done]. simplify_eq/=.
  apply list_find_Some in Hf as (Hix & -> & _).
  pose proof (piece_at_range b sq Hwf) as Hpr. fold p in Hpr.
  assert (Hsq : 0 <= sq < 120)
    by (apply (piece_at_in_board b); [fold p; by apply valid_piece_not_invalid|apply Hwf]).
  pose proof (wf_pieces_len b Hwf). pose proof (wf_positions_len b Hwf).
  pose proof (wf_num_len b Hwf). pose proof (wf_plist_len b Hwf p Hpr).
  pose proof (wf_count b Hwf p Hpr).
  rewrite lookup_take_Some in Hix. destruct Hix as [Hix Hin].
  split; [done|]. split; [done|]. split; [by repeat split|].
  split; [|split; [|split; [|split; [|split]]]].
  - repeat split; board_simpl; rewrite ?length_insert; try done.
    intros q Hq. board_norm. rewrite plist_write by (board_simpl; rewrite ?length_insert; lia).
    case_decide; [subst; by rewrite length_list_swap|done].
  - intros t. board_norm. by rewrite piece_at_write by lia.
  - intros q Hq Hqp. board_norm.
    rewrite plist_write, pcount_write by (board_simpl; rewrite ?length_insert; lia).
    by rewrite !decide_False.
  - board_norm. rewrite pcount_write by (board_simpl; lia). by rewrite decide_True.
  - unfold plive. board_norm.
    rewrite plist_write, pcount_write by (board_simpl; rewrite ?length_insert; lia).
    rewrite !decide_True by done. apply take_swap_last_perm; [lia|lia|done].
  - done.
Qed.

(** *** [add_piece] *)
Lemma add_piece_spec b sq piece b' :
  board_wf b -> add_piece sq piece b = Some b' ->
  valid_piece piece = true /\ 0 <= sq < 120 /\ piece_at b sq = INVALID_PIECE /\
  same_scalars b b' /\ same_shape b b' /\
  (forall t, piece_at b' t = if decide (t = sq) then piece else piece_at b t) /\
  other_lists_same b b' piece /\ pcount b' piece = S (pcount b piece) /\
  (pcount b piece < length (plist b piece))%nat /\
  plive b' piece = plive b piece ++ [sq] /\
  m_hash b' = Z.lxor (m_hash b) (piece_hash sq piece).
Proof.
  intros Hwf Hadd. unfold add_piece in Hadd.
  destruct (valid_piece piece) eqn:Hv; [|done].
  destruct (Z.eqb_spec (piece_at b sq) INVALID_PIECE) as [Hempty|]; [|done].
  destruct (in_board sq) eqn:Hin; [|done].
  destruct (Nat.ltb_spec (pcount b piece) (length (plist b piece))) as [Hlt|]; [|done].
  simplify_eq/=. unfold in_board in Hin. apply andb_prop in Hin as [H1 H2].
  apply Z.leb_le in H1. apply Z.ltb_lt in H2.
  pose proof (valid_piece_range piece Hv) as Hpr.
  pose proof (wf_pieces_len b Hwf). pose proof (wf_positions_len b Hwf).
  pose proof (wf_num_len b Hwf).
  split; [done|]. split; [lia|]. split; [done|]. split; [by repeat split|].
  split; [|split; [|split; [|split; [|split; [|split]]]]].
  - repeat split; board_simpl; rewrite ?length_insert; try done.
    intros q Hq. board_norm. rewrite plist_write by (board_simpl; rewrite ?length_insert; lia).
    case_decide; [subst; by rewrite length_insert|done].
  - intros t. board_norm. by rewrite piece_at_write by lia.
  - intros q Hq Hqp. board_norm.
    rewrite pcount_write, plist_write by (board_simpl; rewrite ?length_insert; lia).
    by rewrite !decide_False.
  - board_norm. rewrite pcount_write by (board_simpl; lia). by rewrite decide_True.
  - done.
  - unfold plive. board_norm.
    rewrite pcount_write, plist_write by (board_simpl; rewrite ?length_insert; lia).
    rewrite !decide_True by done. by apply take_insert_last.
  - done.
Qed.

(** *** [move_piece] *)
Lemma move_piece_spec b from to b' :
  board_wf b -> move_piece from to b = Some b' ->
  let p := piece_at b from in
  valid_piece p = true /\ 0 <= from < 120 /\ 0 <= to < 120 /\
  piece_at b to = INVALID_PIECE /\ same_scalars b b' /\ same_shape b b' /\
  (forall t, piece_at b' t =
     if decide (t = to) then p else if decide (t = from) then INVALID_PIECE else piece_at b t) /\
  other_lists_same b b' p /\ pcount b' p = pcount b p /\
  (exists i, plive b p !! i = Some from /\ plive b' p = <[i:=to]> (plive b p)) /\
  m_hash b' = Z.lxor (m_hash b) (Z.lxor (piece_hash from p) (piece_hash to p)).
Proof.
  intros Hwf Hmv p. unfold move_piece in Hmv. fold p in Hmv.
  destruct (Z.eqb_spec (piece_at b to) INVALID_PIECE) as [Hempty|]; [|done].
  destruct (in_board to) eqn:Hin; [|done].
  destruct (list_find _ _) as [[i x]|] eqn:Hf; [|done]. simplify_eq/=.
  apply list_find_Some in Hf as (Hix & -> & _).
  unfold in_board in Hin. apply andb_prop in Hin as [H1 H2].
  apply Z.leb_le in H1. apply Z.ltb_lt in H2.
  pose proof (piece_at_range b from Hwf) as Hpr. fold p in Hpr.
  assert (Hmem : from ∈ plive b p) by (by eapply list_elem_of_lookup_2).
  apply (wf_index b Hwf p from Hpr) in Hmem as [_ Hv].
  assert (Hfrom : 0 <= from < 120)
    by (apply (piece_at_in_board b); [fold p; by apply valid_piece_not_invalid|apply Hwf]).
  pose proof (wf_pieces_len b Hwf). pose proof (wf_positions_len b Hwf).
  pose proof (wf_num_len b Hwf).
  apply lookup_take_Some in Hix as Hix'. destruct Hix' as [Hil Hin].
  split; [done|]. split; [done|]. split; [lia|]. split; [done|]. split; [by repeat split|].
  split; [|split; [|split; [|split; [|split]]]].
  - repeat split; board_simpl; rewrite ?length_insert; try done.
    intros q Hq. board_norm. rewrite plist_write by (board_simpl; rewrite ?length_insert; lia).
    case_decide; [subst; by rewrite length_insert|done].
  - intros t. board_norm.
    rewrite piece_at_write by (board_simpl; rewrite ?length_insert; lia).
    by rewrite piece_at_write by lia.
  - intros q Hq Hqp. board_norm.
    rewrite plist_write by (board_simpl; rewrite ?length_insert; lia).
    by rewrite !decide_False.
  - by board_norm.
  - exists i. split; [done|]. unfold plive. board_norm.
    rewrite plist_write by (board_simpl; rewrite ?length_insert; lia).
    rewrite decide_True by done. rewrite take_insert, decide_True by lia. done.
  - done.
Qed.

Lemma remove_piece_wf b sq b' :
  board_wf b -> remove_piece sq b = Some b' -> board_wf b'.
Proof.
  intros Hwf Hrem.
  destruct (remove_piece_spec b sq b' Hwf Hrem)
    as (Hv & Hsq & Hsc & Hsh & Hcell & Hoth & Hpc & Hperm & _).
  set (p := piece_at b sq) in *. pose proof (piece_at_range b sq Hwf) as Hpr.
  apply (board_wf_of b); [done|done|apply Hsc| |].
  - intros t. rewrite Hcell. case_decide; [by left|apply Hwf].
  - intros q Hq. destruct (decide (q = p)) as [->|Hqp].
    + destruct (perm_snoc_nodup _ _ _ Hperm (wf_nodup b Hwf p Hpr)) as (Hnd & _ & Hmem).
      split; [pose proof (wf_count b Hwf p Hpr); lia|]. split; [done|].
      intros t. rewrite Hmem, (wf_index b Hwf p t Hpr), Hcell.
      case_decide as Ht; [subst; split; [intros [_ []]; done|intros [Hi _]]|].
      * exfalso. by apply (valid_piece_not_invalid p).
      * naive_solver.
    + apply (untouched_list_ok b b' p); try done.
      intros t Hvq. rewrite Hcell. case_decide; [subst|done].
      split; intros Hi; [|done]. subst q. by apply valid_piece_not_invalid in Hvq.
Qed.

(** [add_piece] does not check that [sq] is a playing square; the
    callers only add pieces on playing squares. *)
Lemma add_piece_wf b sq piece b' :
  board_wf b -> valid_square sq = true -> add_piece sq piece b = Some b' -> board_wf b'.
Proof.
  intros Hwf Hvs Hadd.
  destruct (add_piece_spec b sq piece b' Hwf Hadd)
    as (Hv & Hsq & Hempty & Hsc & Hsh & Hcell & Hoth & Hpc & Hlt & Hlive & _).
  pose proof (valid_piece_range piece Hv) as Hpr.
  apply (board_wf_of b); [done|done|apply Hsc| |].
  - intros t. rewrite Hcell. case_decide as Ht; [subst; by right|apply Hwf].
  - intros q Hq. destruct (decide (q = piece)) as [->|Hqp].
    + rewrite Hlive. pose proof (wf_plist_len b Hwf piece Hpr).
      split; [lia|]. split.
      * apply NoDup_app. split; [by apply Hwf|]. split; [|apply NoDup_singleton].
        intros t Ht ->%list_elem_of_singleton.
        apply (wf_index b Hwf piece sq Hpr) in Ht as [Ht _]. rewrite Ht in Hempty.
        by apply (valid_piece_not_invalid piece).
      * intros t. rewrite elem_of_app, list_elem_of_singleton, (wf_index b Hwf piece t Hpr), Hcell.
        case_decide; naive_solver.
    + apply (untouched_list_ok b b' piece); try done.
      intros t Hvq. rewrite Hcell. case_decide; [subst|done].
      split; [done|]. intros Hq'. rewrite Hq' in Hempty. subst q.
      by apply valid_piece_not_invalid in Hvq.
Qed.

Lemma move_piece_wf b from to b' :
  board_wf b -> valid_square to = true -> move_piece from to b = Some b' -> board_wf b'.
Proof.
  intros Hwf Hvs Hmv.
  destruct (move_piece_spec b from to b' Hwf Hmv)
    as (Hv & Hfrom & Hto & Hempty & Hsc & Hsh & Hcell & Hoth & Hpc & (i & Hi & Hlive) & _).
  set (p := piece_at b from) in *. pose proof (piece_at_range b from Hwf) as Hpr.
  assert (Hne : from <> to) by (intros ->; fold p in Hempty; by apply valid_piece_not_invalid in Hv).
  apply (board_wf_of b); [done|done|apply Hsc| |].
  - intros t. rewrite Hcell. case_decide as Ht; [subst; by right|].
    case_decide; [by left|apply Hwf].
  - intros q Hq. destruct (decide (q = p)) as [->|Hqp].
    + assert (Hfresh : to ∉ plive b p).
      { intros Ht%(wf_index b Hwf p to Hpr). destruct Ht as [Ht _]. rewrite Ht in Hempty.
        by apply valid_piece_not_invalid in Hv. }
      destruct (insert_fresh_nodup _ _ _ _ (wf_nodup b Hwf p Hpr) Hi Hfresh) as [Hnd Hmem].
      rewrite Hlive, Hpc. split; [by apply Hwf|]. split; [done|].
      intros t. rewrite Hmem, (wf_index b Hwf p t Hpr), Hcell.
      case_decide as Ht; [naive_solver|]. case_decide as Hf.
      * subst. split; [intros [|[_ []]]; done|intros [Hz _]].
        exfalso. by apply (valid_piece_not_invalid p).
      * naive_solver.
    + apply (untouched_list_ok b b' p); try done.
      intros t Hvq. rewrite Hcell. case_decide as Ht; [subst t|].
      * split; [intros <-; done|intros Hq'; rewrite Hq' in Hempty; subst q].
        by apply valid_piece_not_invalid in Hvq.
      * case_decide; [subst t|done]. split; [intros <-|intros <-; done].
        by apply valid_piece_not_invalid in Hvq.
Qed.

End PrimitiveSpecs.

(** ** The primitives succeed under their preconditions *)

Section PrimitiveLive.
Context `{Zobrist}.

Lemma remove_piece_Some b sq :
  board_wf b -> valid_piece (piece_at b sq) = true -> is_Some (remove_piece sq b).
Proof.
  intros Hwf Hv. unfold remove_piece. rewrite Hv. cbn [negb].
  pose proof (piece_at_range b sq Hwf) as Hpr.
  assert (Hin : sq ∈ plive b (piece_at b sq)) by (by apply (wf_index b Hwf)).
  destruct (list_find_elem_of (fun x => x = sq) _ sq Hin eq_refl) as [[i x] Hf].
  unfold plive in Hf. rewrite Hf. eauto.
Qed.

Lemma add_piece_Some b sq piece :
  board_wf b -> valid_piece piece = true -> valid_square sq = true ->
  piece_at b sq = INVALID_PIECE -> (pcount b piece < MAX_PIECE_FREQ)%nat ->
  is_Some (add_piece sq piece b).
Proof.
  intros Hwf Hv Hsq Hempty Hn. unfold add_piece. rewrite Hv, Hempty. cbn [negb Z.eqb].
  apply valid_square_range in Hsq.
  replace (in_board sq) with true by (symmetry; unfold in_board; apply andb_true_iff; lia).
  rewrite (wf_plist_len b Hwf piece (valid_piece_range piece Hv)).
  destruct (Nat.ltb_spec (pcount b piece) 10); [eauto|lia].
Qed.

Lemma move_piece_Some b from to :
  board_wf b -> valid_square to = true -> piece_at b to = INVALID_PIECE ->
  valid_piece (piece_at b from) = true -> is_Some (move_piece from to b).
Proof.
  intros Hwf Hsq Hempty Hv. unfold move_piece. rewrite Hempty. cbn [negb Z.eqb].
  apply valid_square_range in Hsq.
  replace (in_board to) with true by (symmetry; unfold in_board; apply andb_true_iff; lia).
  pose proof (piece_at_range b from Hwf) as Hpr.
  assert (Hin : from ∈ plive b (piece_at b from)) by (by apply (wf_index b Hwf)).
  destruct (list_find_elem_of (fun x => x = from) _ from Hin eq_refl) as [[i x] Hf].
  unfold plive in Hf. rewrite Hf. eauto.
Qed.

End PrimitiveLive.

(** ** Boards equal up to the order of the piece lists *)

(** [remove_piece] swaps entries of a piece list, so a move and its
    reversal may leave a piece list permuted: the faithful notion of
    "the same board" compares the live piece lists as multisets. *)
Definition board_equiv (b1 b2 : Board) : Prop :=
  m_pieces b1 = m_pieces b2 /\ m_num_pieces b1 = m_num_pieces b2 /\
  length (m_positions b1) = length (m_positions b2) /\
  (forall p, 0 <= p -> length (plist b1 p) = length (plist b2 p) /\ plive b1 p ≡ₚ plive b2 p) /\
  same_scalars b2 b1 /\ m_hash b1 = m_hash b2.

Infix "≃b" := board_equiv (at level 70) : chess_scope.
Open Scope chess_scope.

#[export] Instance board_equiv_equivalence : Equivalence board_equiv.
Proof.
  split.
  - intros b. unfold board_equiv, same_scalars. naive_solver.
  - intros b1 b2 (H1 & H2 & H3 & H4 & H5 & H6). unfold board_equiv, same_scalars in *.
    split_and!; try done; try naive_solver;
      intros p Hp; destruct (H4 p Hp) as [Hl Hperm]; by split.
  - intros b1 b2 b3 (H1 & H2 & H3 & H4 & H5 & H6) (G1 & G2 & G3 & G4 & G5 & G6).
    unfold board_equiv, same_scalars in *. destruct_and!. split_and!; try congruence;
      intros p Hp; destruct (H4 p Hp) as [Hl Hperm]; destruct (G4 p Hp) as [Gl Gperm];
      split; [congruence|by rewrite Hperm].
Qed.

#[export] Instance piece_at_proper : Proper (board_equiv ==> eq ==> eq) piece_at.
Proof. intros b1 b2 (H1 & _) s ? <-. unfold piece_at. by rewrite H1. Qed.

#[export] Instance pcount_proper : Proper (board_equiv ==> eq ==> eq) pcount.
Proof. intros b1 b2 (_ & H2 & _) p ? <-. unfold pcount. by rewrite H2. Qed.

#[export] Instance compute_hash_proper `{Zobrist} : Proper (board_equiv ==> eq) compute_hash.
Proof.
  intros b1 b2 Heq. unfold compute_hash.
  destruct Heq as (H1 & _ & _ & _ & (Hc & Hcs & He & _) & _).
  rewrite Hc, Hcs, He. unfold cells_hash, piece_at. by rewrite H1.
Qed.

(** Two well-formed boards with the same cells, shape, scalar fields
    and stored hash are equivalent: the piece lists are determined as
    multisets by the cells. *)
Lemma equiv_of_cells b1 b2 :
  board_wf b1 -> board_wf b2 -> (forall t, piece_at b1 t = piece_at b2 t) ->
  same_shape b1 b2 -> same_scalars b1 b2 -> m_hash b1 = m_hash b2 -> b1 ≃b b2.
Proof.
  intros Hw1 Hw2 Hc Hsh Hsc Hh.
  assert (Hperm : forall p, 0 <= p -> plive b1 p ≡ₚ plive b2 p).
  { intros p Hp. destruct (decide (p < 16)) as [Hlt|Hge].
    - apply NoDup_Permutation; [by apply Hw1|by apply Hw2|]. intros t.
      rewrite (wf_index b1 Hw1 p t), (wf_index b2 Hw2 p t), Hc by lia. done.
    - unfold plive, pcount. rewrite !lookup_ge_None_2 by (rewrite ?(wf_num_len _ Hw1),
        ?(wf_num_len _ Hw2); lia). done. }
  destruct Hsh as (Hl1 & Hl2 & Hl3 & Hl4).
  split; [|split; [|split; [|split; [|split]]]].
  - apply list_eq. intros i. destruct (decide (i < 120)%nat) as [Hi|Hi].
    + specialize (Hc (Z.of_nat i)). unfold piece_at in Hc.
      rewrite (proj2 (Z.leb_le 0 _)), Nat2Z.id in Hc by lia.
      destruct (lookup_lt_is_Some_2 (m_pieces b1) i) as [x1 E1]; [rewrite (wf_pieces_len _ Hw1); lia|].
      destruct (lookup_lt_is_Some_2 (m_pieces b2) i) as [x2 E2]; [rewrite (wf_pieces_len _ Hw2); lia|].
      rewrite E1, E2 in Hc |- *. simpl in Hc. by subst.
    + rewrite !lookup_ge_None_2 by (rewrite ?(wf_pieces_len _ Hw1), ?(wf_pieces_len _ Hw2); lia).
      done.
  - apply list_eq. intros i. destruct (decide (i < 16)%nat) as [Hi|Hi].
    + assert (Hp : 0 <= Z.of_nat i < 16) by lia.
      pose proof (Permutation_length (Hperm (Z.of_nat i) ltac:(lia))) as HL.
      rewrite !plive_length in HL by done. unfold pcount in HL. rewrite Nat2Z.id in HL.
      destruct (lookup_lt_is_Some_2 (m_num_pieces b1) i) as [x1 E1]; [rewrite (wf_num_len _ Hw1); lia|].
      destruct (lookup_lt_is_Some_2 (m_num_pieces b2) i) as [x2 E2]; [rewrite (wf_num_len _ Hw2); lia|].
      rewrite E1, E2 in HL |- *. simpl in HL. by subst.
    + rewrite !lookup_ge_None_2 by (rewrite ?(wf_num_len _ Hw1), ?(wf_num_len _ Hw2); lia).
      done.
  - rewrite (wf_positions_len _ Hw1), (wf_positions_len _ Hw2). done.
  - intros p Hp. split; [by rewrite Hl4|by apply Hperm].
  - unfold same_scalars in *. naive_solver.
  - done.
Qed.

(** ** The incremental hash *)

Section HashSpecs.
Context `{ZobristOk}.

Lemma cells_hash_update (c c' : Z -> Z) s :
  0 <= s < 120 -> (forall t, t <> s -> c' t = c t) ->
  cells_hash c' = Z.lxor (cells_hash c) (Z.lxor (piece_hash s (c s)) (piece_hash s (c' s))).
Proof.
  intros Hs Hc. unfold cells_hash.
  apply (xor_sum_map_update (fun sq => piece_hash sq (c sq)) (fun sq => piece_hash sq (c' sq))).
  - apply NoDup_seqZ.
  - apply elem_of_seqZ. lia.
  - intros x Hx. by rewrite Hc.
Qed.

Lemma compute_hash_cells b b' :
  same_scalars b b' ->
  compute_hash b' = Z.lxor (compute_hash b)
                      (Z.lxor (cells_hash (piece_at b)) (cells_hash (piece_at b'))).
Proof.
  intros (Hc & Hcs & He & _). unfold compute_hash. rewrite Hc, Hcs, He. xor_solve.
Qed.

Lemma remove_piece_hash b sq b' :
  board_wf b -> hash_ok b -> remove_piece sq b = Some b' -> hash_ok b'.
Proof.
  intros Hwf Hh Hrem.
  destruct (remove_piece_spec b sq b' Hwf Hrem) as (_ & Hsq & Hsc & _ & Hcell & _ & _ & _ & Hm).
  unfold hash_ok in *. rewrite Hm, Hh, (compute_hash_cells b b' Hsc).
  rewrite (cells_hash_update (piece_at b) (piece_at b') sq Hsq)
    by (intros t Ht; rewrite Hcell; by case_decide).
  rewrite Hcell, decide_True, piece_hash_invalid by done. xor_solve.
Qed.

Lemma add_piece_hash b sq piece b' :
  board_wf b -> hash_ok b -> add_piece sq piece b = Some b' -> hash_ok b'.
Proof.
  intros Hwf Hh Hadd.
  destruct (add_piece_spec b sq piece b' Hwf Hadd)
    as (_ & Hsq & Hempty & Hsc & _ & Hcell & _ & _ & _ & _ & Hm).
  unfold hash_ok in *. rewrite Hm, Hh, (compute_hash_cells b b' Hsc).
  rewrite (cells_hash_update (piece_at b) (piece_at b') sq Hsq)
    by (intros t Ht; rewrite Hcell; by case_decide).
  rewrite Hcell, decide_True, Hempty, piece_hash_invalid by done. xor_solve.
Qed.

Lemma move_piece_hash b from to b' :
  board_wf b -> hash_ok b -> move_piece from to b = Some b' -> hash_ok b'.
Proof.
  intros Hwf Hh Hmv.
  destruct (move_piece_spec b from to b' Hwf Hmv)
    as (Hv & Hfrom & Hto & Hempty & Hsc & _ & Hcell & _ & _ & _ & Hm).
  set (p := piece_at b from) in *.
  assert (Hne : from <> to) by (intros ->; fold p in Hempty; by apply valid_piece_not_invalid in Hv).
  set (mid := fun t => if decide (t = from) then INVALID_PIECE else piece_at b t).
  unfold hash_ok in *. rewrite Hm, Hh, (compute_hash_cells b b' Hsc).
  rewrite (cells_hash_update mid (piece_at b') to Hto)
    by (intros t Ht; rewrite Hcell; unfold mid; by case_decide).
  rewrite (cells_hash_update (piece_at b) mid from Hfrom)
    by (intros t Ht; unfold mid; by case_decide).
  unfold mid. rewrite Hcell.
  rewrite (decide_True (P := to = to)), (decide_True (P := from = from)),
    (decide_False (P := to = from)) by done.
  fold p. rewrite Hempty, !piece_hash_invalid. xor_solve.
Qed.

Lemma set_castle_state_hash b s : hash_ok b -> hash_ok (set_castle_state s b).
Proof. unfold hash_ok, compute_hash, set_castle_state. intros Hh. board_simpl. board_norm. rewrite Hh. xor_solve. Qed.

Lemma set_en_passant_hash b s : hash_ok b -> hash_ok (set_en_passant s b).
Proof. unfold hash_ok, compute_hash, set_en_passant. intros Hh. board_simpl. board_norm. rewrite Hh. xor_solve. Qed.

Lemma switch_colours_hash b : hash_ok b -> hash_ok (switch_colours b).
Proof.
  unfold hash_ok, compute_hash, switch_colours. intros Hh. board_simpl. board_norm. rewrite Hh.
  destruct (m_next_move_colour b); cbn [negb]; xor_solve.
Qed.

Lemma update_castling_hash b sq moved : hash_ok b -> hash_ok (update_castling sq moved b).
Proof.
  unfold update_castling. destruct (is_castle moved); [|done]. cbn [negb].
  unfold hash_ok, compute_hash. intros Hh. board_simpl. board_norm. rewrite Hh. xor_solve.
Qed.

End HashSpecs.

(** ** The cell view: what the primitives do to [m_pieces] *)

Definition set_cell (c : Z -> Z) (s v : Z) : Z -> Z :=
  fun t => if decide (t = s) then v else c t.
Definition move_cell (c : Z -> Z) (from to : Z) : Z -> Z :=
  set_cell (set_cell c from INVALID_PIECE) to (c from).

(** The number of cells holding [p], as [validate_board] counts them. *)
Definition cell_count (c : Z -> Z) (p : Z) : nat :=
  length (filter (fun sq => c sq = p) (seqZ 0 120)).

Definition cells_eq (b : Board) (c : Z -> Z) : Prop := forall t, piece_at b t = c t.

(** The fields that only [make_move] and [unmake_move] themselves touch. *)
Definition same_meta (b b' : Board) : Prop :=
  m_next_move_colour b' = m_next_move_colour b /\ m_fifty_move b' = m_fifty_move b /\
  m_half_move b' = m_half_move b /\ m_history b' = m_history b /\
  m_move_cache b' = m_move_cache b.

Lemma same_scalars_meta b b' : same_scalars b b' -> same_meta b b'.
Proof. unfold same_scalars, same_meta. naive_solver. Qed.

Lemma same_shape_trans b1 b2 b3 : same_shape b1 b2 -> same_shape b2 b3 -> same_shape b1 b3.
Proof.
  intros (A1 & A2 & A3 & A4) (B1 & B2 & B3 & B4). split_and!; try congruence.
  intros p Hp. rewrite B4, A4 by done. done.
Qed.

Lemma same_meta_trans b1 b2 b3 : same_meta b1 b2 -> same_meta b2 b3 -> same_meta b1 b3.
Proof. unfold same_meta. intros. destruct_and!. split_and!; congruence. Qed.

(** The live list of a piece is, as a multiset, the set of its cells. *)
Lemma pcount_cells b p :
  board_wf b -> 0 <= p < 16 -> valid_piece p = true -> pcount b p = cell_count (piece_at b) p.
Proof.
  intros Hwf Hp Hv. rewrite <-(plive_length b p Hwf Hp). unfold cell_count.
  apply Permutation_length, NoDup_Permutation.
  - by apply Hwf.
  - apply NoDup_filter, NoDup_seqZ.
  - intros t. rewrite (wf_index b Hwf p t Hp), list_elem_of_filter, elem_of_seqZ.
    split; [intros [Ht _]; split; [done|]|intros [Ht _]; by split].
    apply (piece_at_in_board b); [rewrite Ht; by apply valid_piece_not_invalid|apply Hwf].
Qed.

Lemma castle_mask_range s k : 0 <= s < 16 -> 0 <= Z.land s (Z.lnot k) < 16.
Proof.
  intros Hs. split; [apply Z.land_nonneg; lia|].
  assert (Hs' : s = Z.land s (Z.ones 4)) by (rewrite Z.land_ones, Z.mod_small; lia).
  rewrite Hs', <-Z.land_assoc, (Z.land_comm (Z.ones 4)), Z.land_assoc, Z.land_ones by lia.
  apply Z.mod_pos_bound. lia.
Qed.

(** A board with the same arrays and a castle mask in range is as
    well formed as the original. *)
Lemma board_wf_arrays b b' :
  board_wf b -> m_pieces b' = m_pieces b -> m_positions b' = m_positions b ->
  m_num_pieces b' = m_num_pieces b -> 0 <= m_castle_state b' < 16 -> board_wf b'.
Proof.
  intros Hwf H1 H2 H3 Hc.
  assert (Hpa : forall t, piece_at b' t = piece_at b t) by (intros t; unfold piece_at; by rewrite H1).
  assert (Hpl : forall p, plive b' p = plive b p) by (intros p; unfold plive, plist, pcount; by rewrite H2, H3).
  constructor.
  - rewrite H1. apply Hwf.
  - rewrite H2. apply Hwf.
  - rewrite H3. apply Hwf.
  - intros p Hp. unfold plist. rewrite H2. by apply Hwf.
  - intros t. rewrite Hpa. apply Hwf.
  - intros p Hp. unfold pcount. rewrite H3. by apply Hwf.
  - intros p Hp. rewrite Hpl. by apply Hwf.
  - intros p t Hp. rewrite Hpl, Hpa. by apply Hwf.
  - done.
Qed.

Section Steps.
Context `{ZobristOk}.

Lemma remove_piece_step b s b1 :
  board_wf b -> hash_ok b -> remove_piece s b = Some b1 ->
  board_wf b1 /\ hash_ok b1 /\ cells_eq b1 (set_cell (piece_at b) s INVALID_PIECE) /\
  same_shape b b1 /\ same_scalars b b1.
Proof.
  intros Hwf Hh Hr. split; [by eapply remove_piece_wf|]. split; [by eapply remove_piece_hash|].
  destruct (remove_piece_spec b s b1 Hwf Hr) as (_ & _ & Hsc & Hsh & Hc & _). done.
Qed.

Lemma add_piece_step b s p b1 :
  board_wf b -> valid_square s = true -> hash_ok b -> add_piece s p b = Some b1 ->
  board_wf b1 /\ hash_ok b1 /\ cells_eq b1 (set_cell (piece_at b) s p) /\
  same_shape b b1 /\ same_scalars b b1.
Proof.
  intros Hwf Hs Hh Ha. split; [by eapply add_piece_wf|]. split; [by eapply add_piece_hash|].
  destruct (add_piece_spec b s p b1 Hwf Ha) as (_ & _ & _ & Hsc & Hsh & Hc & _). done.
Qed.

Lemma move_piece_step b from to b1 :
  board_wf b -> valid_square to = true -> hash_ok b -> move_piece from to b = Some b1 ->
  board_wf b1 /\ hash_ok b1 /\ cells_eq b1 (move_cell (piece_at b) from to) /\
  same_shape b b1 /\ same_scalars b b1.
Proof.
  intros Hwf Hs Hh Hm. split; [by eapply move_piece_wf|]. split; [by eapply move_piece_hash|].
  destruct (move_piece_spec b from to b1 Hwf Hm) as (_ & _ & _ & _ & Hsc & Hsh & Hc & _).
  split; [|done]. intros t. rewrite Hc. unfold move_cell, set_cell.
  repeat case_decide; congruence.
Qed.

End Steps.

Lemma filter_set_cell_notin (c : Z -> Z) s v p (l : list Z) :
  s ∉ l -> filter (fun t => set_cell c s v t = p) l = filter (fun t => c t = p) l.
Proof.
  intros Hs. induction l as [|x l IH]; [done|]. apply not_elem_of_cons in Hs as [Hxs Hs].
  rewrite !filter_cons. assert (E : set_cell c s v x = c x) by (unfold set_cell; by case_decide).
  rewrite E, IH by done. done.
Qed.

(** Emptying one cell holding [p] lowers the count of [p] by one. *)
Lemma cell_count_filter_hole (c : Z -> Z) s p (l : list Z) :
  NoDup l -> s ∈ l -> c s = p -> p <> INVALID_PIECE ->
  S (length (filter (fun t => set_cell c s INVALID_PIECE t = p) l)) =
  length (filter (fun t => c t = p) l).
Proof.
  intros Hnd Hin Hs Hp. induction l as [|x l IH]; [by apply not_elem_of_nil in Hin|].
  apply NoDup_cons in Hnd as [Hx Hnd]. rewrite !filter_cons.
  destruct (decide (x = s)) as [->|Hxs].
  - assert (Hset : set_cell c s INVALID_PIECE s = INVALID_PIECE) by (unfold set_cell; by case_decide).
    rewrite Hset, decide_False by congruence. rewrite decide_True by done. cbn [length].
    f_equal. f_equal. by apply filter_set_cell_notin.
  - apply elem_of_cons in Hin as [->|Hin]; [done|].
    assert (Hset : set_cell c s INVALID_PIECE x = c x) by (unfold set_cell; by case_decide).
    rewrite Hset. specialize (IH Hnd Hin).
    destruct (decide (c x = p)); cbn [length]; lia.
Qed.

Lemma cell_count_hole (c c' : Z -> Z) s p :
  0 <= s < 120 -> (forall t, c' t = set_cell c s INVALID_PIECE t) -> c s = p ->
  p <> INVALID_PIECE -> (cell_count c p <= MAX_PIECE_FREQ)%nat ->
  (cell_count c' p < MAX_PIECE_FREQ)%nat.
Proof.
  intros Hs Hc Hcs Hp Hle. unfold cell_count in *.
  rewrite <-(cell_count_filter_hole c s p) in Hle; [|apply NoDup_seqZ|apply elem_of_seqZ; lia|done|done].
  assert (E : filter (fun t => c' t = p) (seqZ 0 120) =
              filter (fun t => set_cell c s INVALID_PIECE t = p) (seqZ 0 120))
    by (apply list_filter_iff; intros t; by rewrite Hc).
  rewrite E. lia.
Qed.

Lemma cell_count_set_invalid_le (c : Z -> Z) s p :
  p <> INVALID_PIECE -> (cell_count (set_cell c s INVALID_PIECE) p <= cell_count c p)%nat.
Proof.
  intros Hp. unfold cell_count. destruct (decide (0 <= s < 120)) as [Hs|Hs].
  - destruct (decide (c s = p)) as [Hcs|Hcs].
    + rewrite <-(cell_count_filter_hole c s p); [lia|apply NoDup_seqZ|apply elem_of_seqZ; lia|done|done].
    + erewrite (list_filter_iff _ (fun t => c t = p)); [done|]. intros t. unfold set_cell.
      case_decide; [subst; split; intros; congruence|done].
  - rewrite filter_set_cell_notin; [done|]. rewrite elem_of_seqZ. lia.
Qed.

(** A piece on the board stands on a playing square. *)
Lemma piece_on_valid_square b s :
  board_wf b -> valid_piece (piece_at b s) = true -> valid_square s = true.
Proof.
  intros Hw Hv. destruct (wf_cells b Hw s) as [He|[Hs _]]; [|done].
  rewrite He in Hv. discriminate.
Qed.

(** The board holds at most [MAX_PIECE_FREQ] pieces of each kind. *)
Lemma cell_count_bound b p :
  board_wf b -> valid_piece p = true -> (cell_count (piece_at b) p <= MAX_PIECE_FREQ)%nat.
Proof.
  intros Hw Hv. pose proof (valid_piece_range p Hv).
  rewrite <-pcount_cells by done. by apply Hw.
Qed.

(** The array primitives never touch the scalar fields, whatever the
    board. *)
Section ScalarFrame.
Context `{Zobrist}.

Lemma remove_piece_scalars s b b' : remove_piece s b = Some b' -> same_scalars b b'.
Proof.
  unfold remove_piece. destruct (valid_piece _); [|done]. cbn [negb].
  destruct (list_find _ _) as [[??]|]; [|done]. intros [= <-]. by repeat split.
Qed.

Lemma add_piece_scalars s p b b' : add_piece s p b = Some b' -> same_scalars b b'.
Proof.
  unfold add_piece. repeat case_match; try done. intros [= <-]. by repeat split.
Qed.

Lemma move_piece_scalars f t b b' : move_piece f t b = Some b' -> same_scalars b b'.
Proof.
  unfold move_piece. repeat case_match; try done. intros [= <-]. by repeat split.
Qed.

End ScalarFrame.

Lemma same_scalars_trans b1 b2 b3 : same_scalars b1 b2 -> same_scalars b2 b3 -> same_scalars b1 b3.
Proof. unfold same_scalars. intros. destruct_and!. split_and!; congruence. Qed.

(** All well-formed boards have the same array sizes. *)
Lemma wf_same_shape b1 b2 : board_wf b1 -> board_wf b2 -> same_shape b1 b2.
Proof.
  intros Hw1 Hw2. split_and!.
  - by rewrite (wf_pieces_len _ Hw1), (wf_pieces_len _ Hw2).
  - by rewrite (wf_positions_len _ Hw1), (wf_positions_len _ Hw2).
  - by rewrite (wf_num_len _ Hw1), (wf_num_len _ Hw2).
  - intros p Hp. destruct (decide (p < 16)).
    + rewrite (wf_plist_len _ Hw1), (wf_plist_len _ Hw2) by lia. done.
    + unfold plist. rewrite !lookup_ge_None_2 by (rewrite ?(wf_positions_len _ Hw1),
        ?(wf_positions_len _ Hw2); lia). done.
Qed.

Lemma cells_hash_ext `{Zobrist} (c c' : Z -> Z) :
  (forall t, c t = c' t) -> cells_hash c = cells_hash c'.
Proof. intros Hc. unfold cells_hash. apply xor_sum_map_ext. intros t _. by rewrite Hc. Qed.

(** ** The primitives' contracts *)

Section Contracts.
Context `{ZobristOk}.

(** C5: on a well-formed, correctly hashed board, [remove_piece] on an
    occupied square succeeds, empties the square, drops the square from
    its piece list (the rest of the list is kept up to order) and keeps
    the invariant and the hash. *)
Theorem remove_piece_correct b sq :
  board_wf b -> hash_ok b -> valid_piece (piece_at b sq) = true ->
  exists b', remove_piece sq b = Some b' /\ board_wf b' /\ hash_ok b' /\
    cells_eq b' (set_cell (piece_at b) sq INVALID_PIECE) /\
    plive b' (piece_at b sq) ++ [sq] ≡ₚ plive b (piece_at b sq) /\ same_scalars b b'.
Proof.
  intros Hw Hh Hv. destruct (remove_piece_Some b sq Hw Hv) as [b' E].
  destruct (remove_piece_step b sq b' Hw Hh E) as (Hw' & Hh' & Hc & _ & Hs).
  destruct (remove_piece_spec b sq b' Hw E) as (_ & _ & _ & _ & _ & _ & _ & Hp & _).
  exists b'. done.
Qed.

(** C6: [add_piece] on an empty playing square, with room in the piece
    list, succeeds, places the piece, appends the square to the piece
    list and keeps the invariant and the hash. *)
Theorem add_piece_correct b sq p :
  board_wf b -> hash_ok b -> valid_piece p = true -> valid_square sq = true ->
  piece_at b sq = INVALID_PIECE -> (pcount b p < MAX_PIECE_FREQ)%nat ->
  exists b', add_piece sq p b = Some b' /\ board_wf b' /\ hash_ok b' /\
    cells_eq b' (set_cell (piece_at b) sq p) /\ plive b' p = plive b p ++ [sq] /\
    same_scalars b b'.
Proof.
  intros Hw Hh Hv Hsq He Hn. destruct (add_piece_Some b sq p Hw Hv Hsq He Hn) as [b' E].
  destruct (add_piece_step b sq p b' Hw Hsq Hh E) as (Hw' & Hh' & Hc & _ & Hs).
  destruct (add_piece_spec b sq p b' Hw E) as (_ & _ & _ & _ & _ & _ & _ & _ & _ & Hl & _).
  exists b'. done.
Qed.

(** C7: [move_piece] of a piece to an empty playing square succeeds,
    moves the piece, replaces the square in its piece list in place and
    keeps the invariant and the hash. *)
Theorem move_piece_correct b from to :
  board_wf b -> hash_ok b -> valid_square to = true -> piece_at b to = INVALID_PIECE ->
  valid_piece (piece_at b from) = true ->
  exists b', move_piece from to b = Some b' /\ board_wf b' /\ hash_ok b' /\
    cells_eq b' (move_cell (piece_at b) from to) /\
    (exists i, plive b (piece_at b from) !! i = Some from /\
       plive b' (piece_at b from) = <[i:=to]> (plive b (piece_at b from))) /\
    same_scalars b b'.
Proof.
  intros Hw Hh Hsq He Hv. destruct (move_piece_Some b from to Hw Hsq He Hv) as [b' E].
  destruct (move_piece_step b from to b' Hw Hsq Hh E) as (Hw' & Hh' & Hc & _ & Hs).
  destruct (move_piece_spec b from to b' Hw E) as (_ & _ & _ & _ & _ & _ & _ & _ & _ & Hl & _).
  exists b'. done.
Qed.

(** C8: the updates of the castle mask, the en-passant square and the
    side to move keep the stored hash equal to the recomputed one. *)
Theorem scalar_updates_hash_ok b s e sq moved :
  hash_ok b ->
  hash_ok (set_castle_state s b) /\ hash_ok (set_en_passant e b) /\
  hash_ok (switch_colours b) /\ hash_ok (update_castling sq moved b).
Proof.
  intros Hh. split_and!;
    [apply set_castle_state_hash|apply set_en_passant_hash|apply switch_colours_hash
    |apply update_castling_hash]; exact Hh.
Qed.

End Contracts.

(** ** The invariants respect [≃b] *)

Lemma board_wf_equiv b1 b2 : b1 ≃b b2 -> board_wf b1 -> board_wf b2.
Proof.
  intros Heq Hw. pose proof Heq as (H1 & H2 & H3 & H4 & (_ & Hc & _) & _).
  assert (Hpa : forall t, piece_at b2 t = piece_at b1 t) by (intros t; by rewrite Heq).
  assert (Hpc : forall p, pcount b2 p = pcount b1 p) by (intros p; by rewrite Heq).
  constructor.
  - rewrite <-H1. apply Hw.
  - rewrite <-H3. apply Hw.
  - rewrite <-H2. apply Hw.
  - intros p Hp. rewrite <-(proj1 (H4 p ltac:(lia))). by apply Hw.
  - intros sq. rewrite Hpa. apply Hw.
  - intros p Hp. rewrite Hpc. by apply Hw.
  - intros p Hp. rewrite <-(proj2 (H4 p ltac:(lia))). by apply Hw.
  - intros p sq Hp. rewrite <-(proj2 (H4 p ltac:(lia))), Hpa. by apply Hw.
  - rewrite <-Hc. apply Hw.
Qed.

#[export] Instance board_wf_proper : Proper (board_equiv ==> iff) board_wf.
Proof. intros b1 b2 Heq. split; apply board_wf_equiv; by rewrite Heq. Qed.

#[export] Instance hash_ok_proper `{Zobrist} : Proper (board_equiv ==> iff) hash_ok.
Proof.
  intros b1 b2 Heq. unfold hash_ok. pose proof Heq as (_ & _ & _ & _ & _ & Hh).
  by rewrite Hh, Heq.
Qed.

(** ** Counting cells after an update *)

Lemma filter_set_cell_count (c : Z -> Z) s v p (l : list Z) :
  NoDup l -> s ∈ l ->
  (length (filter (fun t => set_cell c s v t = p) l) + (if decide (c s = p) then 1 else 0) =
   length (filter (fun t => c t = p) l) + (if decide (v = p) then 1 else 0))%nat.
Proof.
  intros Hnd Hin. induction l as [|x l IH]; [by apply not_elem_of_nil in Hin|].
  apply NoDup_cons in Hnd as [Hx Hnd]. rewrite !filter_cons.
  destruct (decide (x = s)) as [->|Hxs].
  - assert (Hset : set_cell c s v s = v) by (unfold set_cell; by rewrite decide_True).
    rewrite Hset, filter_set_cell_notin by done.
    repeat case_decide; cbn [length]; lia.
  - apply elem_of_cons in Hin as [->|Hin]; [done|].
    assert (Hset : set_cell c s v x = c x) by (unfold set_cell; by rewrite decide_False).
    rewrite Hset. specialize (IH Hnd Hin). repeat case_decide; cbn [length] in *; lia.
Qed.

Lemma cell_count_set (c : Z -> Z) s v p :
  0 <= s < 120 ->
  (cell_count (set_cell c s v) p + (if decide (c s = p) then 1 else 0) =
   cell_count c p + (if decide (v = p) then 1 else 0))%nat.
Proof. intros Hs. apply filter_set_cell_count; [apply NoDup_seqZ|apply elem_of_seqZ; lia]. Qed.

(** Writing a cell that neither held nor receives [p] keeps the count of [p]. *)
Lemma cell_count_set_other (c : Z -> Z) s v p :
  0 <= s < 120 -> c s <> p -> v <> p -> cell_count (set_cell c s v) p = cell_count c p.
Proof.
  intros Hs Hc Hv. pose proof (cell_count_set c s v p Hs).
  rewrite !decide_False in * by done. lia.
Qed.

(** Moving a piece to an empty cell keeps every count of a piece. *)
Lemma cell_count_move (c : Z -> Z) f t p :
  0 <= f < 120 -> 0 <= t < 120 -> c t = INVALID_PIECE -> p <> INVALID_PIECE ->
  cell_count (move_cell c f t) p = cell_count c p.
Proof.
  intros Hf Ht He Hp. unfold move_cell.
  pose proof (cell_count_set c f INVALID_PIECE p Hf) as E1.
  pose proof (cell_count_set (set_cell c f INVALID_PIECE) t (c f) p Ht) as E2.
  assert (Ht0 : set_cell c f INVALID_PIECE t = INVALID_PIECE) by (unfold set_cell; destruct (decide (t = f)); done).
  assert (Hn0 : INVALID_PIECE <> p) by congruence. rewrite Ht0 in E2.
  rewrite (decide_False (P := INVALID_PIECE = p)) in E1, E2 by done.
  revert E1 E2. case_decide; intros; lia.
Qed.
