(* ===== verification/Attack.v ===== *)
(** * Attack: [Board::square_attacked] and [Board::king_in_check]

    [square_attacked sq side] (board.cpp lines 309-359) walks the four
    diagonal and four orthogonal rays from [sq] through empty squares
    and tests the first occupied square for a slider of [side], tests
    the first step of each ray for [side]'s king, then the eight knight
    offsets and the two pawn offsets.  The [while] loop of each ray is
    [ray_end] with fuel [RAY_FUEL]; from a playing square the loop
    runs fewer than [RAY_FUEL] iterations and stops where its condition
    fails, so any larger fuel gives the same square
    ([ray_end_fuel_enough]).

    The guard at line 315 is written [get_side(m_pieces[sq] == side)]:
    it applies [get_side] to a comparison, so it never holds and the
    early return it protects is dead code.  The model keeps the
    expression as written. *)

From S2P Require Import Prelude Encoding Move Zobrist Board.

Definition diag_offsets : list Z := [-11; -9; 9; 11].
Definition ortho_offsets : list Z := [-10; -1; 1; 10].
Definition knight_offsets : list Z := [-21; -19; -12; -8; 8; 12; 19; 21].
Definition king_offsets : list Z := [-11; -10; -9; -1; 1; 9; 10; 11].
Definition pawn_attack_offsets (side : bool) : list Z :=
  if side then [9; 11] else [-9; -11].

(** [while (valid_square(cur) && m_pieces[cur] == INVALID_PIECE) cur += offset;] *)
Fixpoint ray_end (fuel : nat) (b : Board) (cur off : Z) : Z :=
  match fuel with
  | O => cur
  | S f => if valid_square cur && (piece_at b cur =? INVALID_PIECE)
           then ray_end f b (cur + off) off else cur
  end.

(** A ray from a playing square crosses at most seven playing squares. *)
Definition RAY_FUEL : nat := 8.

(** [m_positions[king_piece][0]]. *)
Definition king_square (b : Board) (king : Z) : Z :=
  default INVALID_SQUARE (plist b king !! 0%nat).

(** One iteration of the diagonal or orthogonal loop of [square_attacked]. *)
Definition ray_attacks (b : Board) (sq : Z) (side : bool) (ksq : Z)
    (cap : Z -> bool) (off : Z) : bool :=
  let cur := sq + off in
  if ksq =? cur then true else
  let last := ray_end RAY_FUEL b cur off in
  let p := piece_at b last in
  valid_square last && Bool.eqb (get_side p) side && cap p.

Definition square_attacked (b : Board) (sq : Z) (side : bool) : bool :=
  let king_piece := side_piece side KING in
  let knight_piece := side_piece side KNIGHT in
  let pawn_piece := side_piece side PAWN in
  let ksq := king_square b king_piece in
  if valid_piece (piece_at b sq) && get_side (Z.b2z (piece_at b sq =? Z.b2z side))
  then false
  else existsb (ray_attacks b sq side ksq is_diag) diag_offsets
    || existsb (ray_attacks b sq side ksq is_ortho) ortho_offsets
    || existsb (fun off => piece_at b (sq + off) =? knight_piece) knight_offsets
    || existsb (fun off => piece_at b (sq + off) =? pawn_piece) (pawn_attack_offsets side).

(** [Board::king_in_check]: the side to move's king is attacked. *)
Definition king_in_check (b : Board) : bool :=
  let king_piece := side_piece (m_next_move_colour b) KING in
  square_attacked b (king_square b king_piece) (negb (m_next_move_colour b)).

(** ** The ray loop terminates *)

Definition playing_squares : list Z := filter (fun s => valid_square s = true) (seqZ 21 78).

(** From every playing square, every direction leaves the board within
    eight steps: checked by evaluation over the 64 squares. *)
Lemma ray_leaves_board :
  forallb (fun sq => forallb (fun off =>
    existsb (fun k => negb (valid_square (sq + k * off))) [1; 2; 3; 4; 5; 6; 7; 8])
    (diag_offsets ++ ortho_offsets)) playing_squares = true.
Proof. vm_compute. reflexivity. Qed.

Definition empty_square (b : Board) (sq : Z) : bool :=
  valid_square sq && (piece_at b sq =? INVALID_PIECE).

(** The walk advances [j] times through empty playing squares, and when
    it stops before the fuel runs out it stops on a square that is not
    an empty playing square. *)
Lemma ray_end_steps n b cur off :
  exists j : nat, (j <= n)%nat /\ ray_end n b cur off = cur + Z.of_nat j * off /\
    (forall i : nat, (i < j)%nat -> empty_square b (cur + Z.of_nat i * off) = true) /\
    ((j < n)%nat -> empty_square b (ray_end n b cur off) = false).
Proof.
  revert cur. induction n as [|n IH]; intros cur; simpl.
  - exists 0%nat. split; [lia|]. split; [lia|]. split; [lia|lia].
  - fold (empty_square b cur). destruct (empty_square b cur) eqn:He.
    + destruct (IH (cur + off)) as (j & Hj & Heq & Hall & Hlast).
      exists (S j). split; [lia|]. split; [rewrite Heq; lia|]. split.
      * intros [|i] Hi; [by rewrite Z.add_0_r|].
        replace (cur + Z.of_nat (S i) * off) with (cur + off + Z.of_nat i * off) by lia.
        apply Hall. lia.
      * intros Hj'. apply Hlast. lia.
    + exists 0%nat. split; [lia|]. split; [lia|]. split; [lia|]. by intros _.
Qed.

(** A walk that has stopped stays stopped: more fuel changes nothing. *)
Lemma ray_end_stable m n b cur off :
  (m <= n)%nat -> empty_square b (ray_end m b cur off) = false ->
  ray_end n b cur off = ray_end m b cur off.
Proof.
  revert n cur. induction m as [|m IH]; intros n cur Hmn Hstop; simpl in *.
  - destruct n; simpl; [done|]. fold (empty_square b cur). by rewrite Hstop.
  - destruct n as [|n]; [lia|]. simpl. revert Hstop.
    destruct (valid_square cur && (piece_at b cur =? INVALID_PIECE)); intros Hstop;
      [apply IH; [lia|done]|done].
Qed.

(** A walk from next to a playing square that crossed [j] empty
    playing squares has [j < RAY_FUEL]: some multiple of the offset up
    to eight leaves the board. *)
Lemma ray_short b sq off (j : nat) :
  valid_square sq = true -> off ∈ diag_offsets ++ ortho_offsets ->
  (forall i : nat, (i < j)%nat -> empty_square b (sq + off + Z.of_nat i * off) = true) ->
  (j < RAY_FUEL)%nat.
Proof.
  intros Hsq Hoff Hall. destruct (decide (j < RAY_FUEL)%nat) as [|Hge]; [done|exfalso].
  pose proof ray_leaves_board as Hb. rewrite forallb_forall in Hb.
  specialize (Hb sq). rewrite forallb_forall in Hb.
  specialize (Hb (proj1 (list_elem_of_In _ _) (valid_square_cases sq Hsq))).
  specialize (Hb off). apply list_elem_of_In in Hoff. specialize (Hb Hoff).
  apply existsb_exists in Hb as (k & Hk & Hinv). apply negb_true_iff in Hinv.
  assert (Hi : empty_square b (sq + off + Z.of_nat (Z.to_nat (k - 1)) * off) = true).
  { apply Hall. unfold RAY_FUEL in *. simpl in Hk. lia. }
  unfold empty_square in Hi. apply andb_prop in Hi as [Hv _].
  replace (sq + off + Z.of_nat (Z.to_nat (k - 1)) * off) with (sq + k * off) in Hv
    by (simpl in Hk; lia).
  congruence.
Qed.

(** The ray loop of [square_attacked] and of the slider generators
    always exits within [RAY_FUEL] iterations from a playing square. *)
Theorem ray_end_exits b sq off :
  valid_square sq = true -> off ∈ diag_offsets ++ ortho_offsets ->
  empty_square b (ray_end RAY_FUEL b (sq + off) off) = false.
Proof.
  intros Hsq Hoff.
  destruct (ray_end_steps RAY_FUEL b (sq + off) off) as (j & _ & _ & Hall & Hlast).
  apply Hlast. by apply (ray_short b sq off).
Qed.

(** C9: the [while] loop of lines 326-327 and 339-340, started next to a
    playing square [sq] in a diagonal or orthogonal direction,
    terminates: it runs exactly [j < RAY_FUEL] iterations over empty
    playing squares and stops at the first square where its condition
    [valid_square(cur) && m_pieces[cur] == INVALID_PIECE] fails; the
    model computes that square with any fuel of at least [RAY_FUEL]. *)
Theorem ray_end_fuel_enough b sq off :
  valid_square sq = true -> off ∈ diag_offsets ++ ortho_offsets ->
  exists j : nat, (j < RAY_FUEL)%nat /\
    (forall i : nat, (i < j)%nat -> empty_square b (sq + off + Z.of_nat i * off) = true) /\
    empty_square b (sq + off + Z.of_nat j * off) = false /\
    forall n, (RAY_FUEL <= n)%nat -> ray_end n b (sq + off) off = sq + off + Z.of_nat j * off.
Proof.
  intros Hsq Hoff.
  destruct (ray_end_steps RAY_FUEL b (sq + off) off) as (j & _ & Heq & Hall & Hlast).
  pose proof (ray_short b sq off j Hsq Hoff Hall) as Hj.
  exists j. rewrite <-Heq. split_and!; [done|done|by apply Hlast|].
  intros n Hn. apply ray_end_stable; [done|]. by apply Hlast.
Qed.

(** C10: the early return of line 315 never fires: [get_side] of a
    comparison result (0 or 1) is always [false], so [square_attacked]
    is the plain disjunction of its ray, knight and pawn tests, also on
    a square occupied by the attacking side. *)
Theorem square_attacked_guard_dead b sq side :
  square_attacked b sq side =
    existsb (ray_attacks b sq side (king_square b (side_piece side KING)) is_diag) diag_offsets
    || existsb (ray_attacks b sq side (king_square b (side_piece side KING)) is_ortho) ortho_offsets
    || existsb (fun off => piece_at b (sq + off) =? side_piece side KNIGHT) knight_offsets
    || existsb (fun off => piece_at b (sq + off) =? side_piece side PAWN) (pawn_attack_offsets side).
Proof.
  unfold square_attacked. cbv zeta.
  by destruct (piece_at b sq =? Z.b2z side), (valid_piece (piece_at b sq)).
Qed.

(** ** [square_attacked] reads the cells and the two kings' squares *)

Lemma ray_end_ext n b1 b2 cur off :
  (forall t, piece_at b1 t = piece_at b2 t) -> ray_end n b1 cur off = ray_end n b2 cur off.
Proof. intros Hc. revert cur. induction n as [|n IH]; intros cur; simpl; [done|]. by rewrite Hc, IH. Qed.

Lemma ray_attacks_ext b1 b2 sq side ksq cap off :
  (forall t, piece_at b1 t = piece_at b2 t) ->
  ray_attacks b1 sq side ksq cap off = ray_attacks b2 sq side ksq cap off.
Proof. intros Hc. unfold ray_attacks. by rewrite (ray_end_ext _ b1 b2), Hc. Qed.

Lemma square_attacked_ext b1 b2 sq side :
  (forall t, piece_at b1 t = piece_at b2 t) ->
  king_square b1 (side_piece side KING) = king_square b2 (side_piece side KING) ->
  square_attacked b1 sq side = square_attacked b2 sq side.
Proof.
  intros Hc Hk. unfold square_attacked. cbv zeta. rewrite Hk, Hc.
  rewrite (existsb_ext_in (ray_attacks b1 sq side _ is_diag) (ray_attacks b2 sq side _ is_diag)),
    (existsb_ext_in (ray_attacks b1 sq side _ is_ortho) (ray_attacks b2 sq side _ is_ortho))
    by (intros; by apply ray_attacks_ext).
  rewrite (existsb_ext_in (fun off => piece_at b1 (sq + off) =? _)
                          (fun off => piece_at b2 (sq + off) =? side_piece side KNIGHT)),
    (existsb_ext_in (fun off => piece_at b1 (sq + off) =? _)
                    (fun off => piece_at b2 (sq + off) =? side_piece side PAWN))
    by (intros; by rewrite Hc).
  done.
Qed.

(** With a single king of a colour, equivalent boards agree on its square. *)
Lemma king_square_equiv b1 b2 k :
  b1 ≃b b2 -> 0 <= k -> pcount b1 k = 1%nat -> king_square b1 k = king_square b2 k.
Proof.
  intros Heq Hk Hn. unfold king_square. f_equal. apply take_1_perm_lookup.
  destruct Heq as (_ & H2 & _ & H4 & _). destruct (H4 k Hk) as [_ Hp].
  unfold plive, pcount in *. by rewrite <-H2, Hn in Hp.
Qed.
