(* ===== verification/MakeMove.v ===== *)
(** * MakeMove: [Board::make_move] and [Board::unmake_move]

    [make_move] (board.cpp lines 651-744) pushes an undo record, applies
    the move through the primitives of [Board], updates the fifty-move
    counter, switches sides and reports whether the mover's king is
    safe.  [unmake_move] (lines 746-803) pops the record and reverses
    the piece motion.  The [bool] result of [make_move] is the legality
    verdict; [None] is a failed [ASSERT] (or undefined behaviour).
    [validate_board], which only runs in debug builds, is not called
    here: its checks are the invariant [board_wf] that the theorems
    show preserved.

    The main results: applying then reverting an applicable move gives
    back the board up to the order of the piece lists
    ([make_unmake_restores]), and [make_move] keeps the invariant and
    the hash and gives the king-safety verdict ([make_move_ok]).
    Equivalent boards give the same verdict ([make_move_equiv]), and a
    capture by a piece other than a rook or a king leaves the castle
    mask unchanged whatever it takes ([capture_keeps_castle_right]). *)

From S2P Require Import Prelude Encoding Move Zobrist Board Attack.

Section MakeMove.
Context `{Zobrist}.

(** The piece motion of [make_move], lines 672-725; [cur_side] is the
    side that moves. *)
Definition make_body (m : move_t) (cur_side : bool) (b : Board) : option Board :=
  let flag := move_flag m in
  let from := move_from m in
  let to := move_to m in
  let moved := moved_piece m in
  if move_promoted m then
    b1 ← (if move_captured m then remove_piece to b else Some b);
    b2 ← add_piece to (promoted_piece m) b1;
    b3 ← remove_piece from b2;
    Some (set_en_passant INVALID_SQUARE b3)
  else if move_castled m then
    b2 ← (if negb cur_side then
            b1 ← (if decide (flag = SHORT_CASTLE_MOVE)
                  then move_piece E1 G1 b ≫= move_piece H1 F1
                  else move_piece E1 C1 b ≫= move_piece A1 D1);
            Some (set_castle_state
                    (Z.land (m_castle_state b1) (Z.lnot (Z.lor WHITE_LONG WHITE_SHORT))) b1)
          else
            b1 ← (if decide (flag = SHORT_CASTLE_MOVE)
                  then move_piece E8 G8 b ≫= move_piece H8 F8
                  else move_piece E8 C8 b ≫= move_piece A8 D8);
            Some (set_castle_state
                    (Z.land (m_castle_state b1) (Z.lnot (Z.lor BLACK_LONG BLACK_SHORT))) b1));
    Some (set_en_passant INVALID_SQUARE b2)
  else
    let enpas_square := if negb cur_side then to - 10 else to + 10 in
    let b1 := if decide (flag = DOUBLE_PAWN_MOVE) then set_en_passant enpas_square b
              else set_en_passant INVALID_SQUARE b in
    match flag with
    | QUIET_MOVE => b2 ← move_piece from to b1; Some (update_castling from moved b2)
    | DOUBLE_PAWN_MOVE => move_piece from to b1
    | CAPTURE_MOVE =>
        b2 ← remove_piece to b1; b3 ← move_piece from to b2;
        Some (update_castling from moved b3)
    | EN_PASSANT_MOVE => remove_piece enpas_square b1 ≫= move_piece from to
    | _ => Some b1
    end.

Definition make_move (m : move_t) (b : Board) : option (bool * Board) :=
  let cur_side := m_next_move_colour b in
  let entry := mk_history m (m_castle_state b) (m_en_passant b) (m_fifty_move b) (m_hash b) in
  let b0 := with_half (m_half_move b + 1) (with_history (entry :: m_history b) b) in
  b1 ← make_body m cur_side b0;
  let b2 := with_fifty (if move_captured m || is_pawn (moved_piece m) then 0
                        else m_fifty_move b1 + 1) b1 in
  let b3 := switch_colours b2 in
  let king_piece := side_piece cur_side KING in
  let valid := negb (square_attacked b3 (king_square b3 king_piece) (negb cur_side)) in
  Some (valid, b3).

(** The reversal of the piece motion, lines 768-798; [cur_side] is the
    side that had moved, whose turn it is again. *)
Definition unmake_body (m : move_t) (cur_side : bool) (b : Board) : option Board :=
  let flag := move_flag m in
  let from := move_from m in
  let to := move_to m in
  if move_promoted m then
    b1 ← remove_piece to b;
    b2 ← add_piece from (moved_piece m) b1;
    if move_captured m then add_piece to (captured_piece m) b2 else Some b2
  else if move_castled m then
    if negb cur_side then
      (if decide (flag = SHORT_CASTLE_MOVE)
       then move_piece G1 E1 b ≫= move_piece F1 H1
       else move_piece C1 E1 b ≫= move_piece D1 A1)
    else
      (if decide (flag = SHORT_CASTLE_MOVE)
       then move_piece G8 E8 b ≫= move_piece F8 H8
       else move_piece C8 E8 b ≫= move_piece D8 A8)
  else
    b1 ← move_piece to from b;
    if move_captured m then
      let en_pas_sq := if negb cur_side then m_en_passant b1 - 10 else m_en_passant b1 + 10 in
      let captured_sq := if decide (flag = CAPTURE_MOVE) then to else en_pas_sq in
      add_piece captured_sq (captured_piece m) b1
    else Some b1.

Definition unmake_move (b : Board) : option Board :=
  match m_history b with
  | [] => None
  | entry :: rest =>
      let b1 := set_castle_state (h_castle_state entry) (with_history rest b) in
      let b2 := set_en_passant (h_en_passant entry) b1 in
      let b3 := with_fifty (h_fifty_move entry) b2 in
      if negb (0 <? m_half_move b3) then None else
      let b4 := switch_colours (with_half (m_half_move b3 - 1) b3) in
      b5 ← unmake_body (h_move entry) (m_next_move_colour b4) b4;
      if negb (m_hash b5 =? h_hash entry) then None else Some b5
  end.

End MakeMove.

(** ** The abstract effect of a move on the cells *)

Definition ep_capture_square (side : bool) (to : Z) : Z := if negb side then to - 10 else to + 10.

(** King origin, king target, rook origin, rook target. *)
Definition castle_squares (side : bool) (flag : MoveFlag) : Z * Z * Z * Z :=
  match side, flag with
  | false, SHORT_CASTLE_MOVE => (E1, G1, H1, F1)
  | false, _ => (E1, C1, A1, D1)
  | true, SHORT_CASTLE_MOVE => (E8, G8, H8, F8)
  | true, _ => (E8, C8, A8, D8)
  end.

(** What [make_move] does to the mailbox, specified square by square. *)
Definition make_cells (m : move_t) (side : bool) (c : Z -> Z) : Z -> Z :=
  let from := move_from m in
  let to := move_to m in
  match move_flag m with
  | PROMOTE_MOVE | PROMOTE_CAPTURE_MOVE =>
      set_cell (set_cell c to (promoted_piece m)) from INVALID_PIECE
  | SHORT_CASTLE_MOVE | LONG_CASTLE_MOVE =>
      let '(kf, kt, rf, rt) := castle_squares side (move_flag m) in
      move_cell (move_cell c kf kt) rf rt
  | EN_PASSANT_MOVE => move_cell (set_cell c (ep_capture_square side to) INVALID_PIECE) from to
  | CAPTURE_MOVE => move_cell (set_cell c to INVALID_PIECE) from to
  | QUIET_MOVE | DOUBLE_PAWN_MOVE => move_cell c from to
  end.

(** The conditions under which a move can be made and unmade: the
    moving piece is where the move says, the target is free or holds
    the captured piece, and a promotion has room in its piece list.
    Every move [pseudo_moves] generates satisfies them. *)
Definition move_ok (b : Board) (m : move_t) : Prop :=
  let side := m_next_move_colour b in
  let c := piece_at b in
  let from := move_from m in
  let to := move_to m in
  match move_flag m with
  | QUIET_MOVE | DOUBLE_PAWN_MOVE =>
      valid_square to = true /\ valid_piece (c from) = true /\ c to = INVALID_PIECE
  | CAPTURE_MOVE =>
      valid_square to = true /\ from <> to /\ valid_piece (c from) = true /\
      valid_piece (c to) = true /\ captured_piece m = c to
  | EN_PASSANT_MOVE =>
      let e := ep_capture_square side to in
      valid_square to = true /\ valid_square e = true /\ from <> e /\
      valid_piece (c from) = true /\ c to = INVALID_PIECE /\ to = m_en_passant b /\
      valid_piece (c e) = true /\ captured_piece m = c e
  | SHORT_CASTLE_MOVE | LONG_CASTLE_MOVE =>
      let '(kf, kt, rf, rt) := castle_squares side (move_flag m) in
      valid_piece (c kf) = true /\ c kt = INVALID_PIECE /\
      valid_piece (c rf) = true /\ c rt = INVALID_PIECE
  | PROMOTE_MOVE =>
      valid_square from = true /\ valid_square to = true /\
      valid_piece (c from) = true /\ moved_piece m = c from /\ c to = INVALID_PIECE /\
      valid_piece (promoted_piece m) = true /\
      (cell_count c (promoted_piece m) < MAX_PIECE_FREQ)%nat
  | PROMOTE_CAPTURE_MOVE =>
      valid_square from = true /\ valid_square to = true /\ from <> to /\
      valid_piece (c from) = true /\ moved_piece m = c from /\
      valid_piece (c to) = true /\ captured_piece m = c to /\
      valid_piece (promoted_piece m) = true /\
      (cell_count (set_cell c to INVALID_PIECE) (promoted_piece m) < MAX_PIECE_FREQ)%nat
  end.

(** ** Composing primitive steps *)

(** [b'] is well formed, hashed correctly, has cells [c] and the shape
    and bookkeeping fields of [b]. *)
Definition step_ok `{Zobrist} (b b' : Board) (c : Z -> Z) : Prop :=
  board_wf b' /\ hash_ok b' /\ cells_eq b' c /\ same_shape b b' /\ same_meta b b'.

Lemma set_cell_ext c c' s v : (forall t, c t = c' t) -> forall t, set_cell c s v t = set_cell c' s v t.
Proof. intros Hc t. unfold set_cell. by rewrite Hc. Qed.

Lemma move_cell_ext c c' f t0 :
  (forall t, c t = c' t) -> forall t, move_cell c f t0 t = move_cell c' f t0 t.
Proof. intros Hc t. unfold move_cell, set_cell. by rewrite !Hc. Qed.

Section Steps.
Context `{ZobristOk}.

Lemma cell_count_ext c c' p :
  (forall t, c t = c' t) -> cell_count c p = cell_count c' p.
Proof. intros Hc. unfold cell_count. f_equal. apply list_filter_iff. intros t. by rewrite Hc. Qed.

Lemma step_ok_cells_ext b b' c c' :
  step_ok b b' c -> (forall t, c t = c' t) -> step_ok b b' c'.
Proof. intros (? & ? & Hc & ? & ?) Hcc. split_and!; try done. intros t. by rewrite Hc. Qed.

Lemma step_ok_refl b : board_wf b -> hash_ok b -> step_ok b b (piece_at b).
Proof. intros. split_and!; try done; unfold same_shape, same_meta; naive_solver. Qed.

(** Chain a step: the cell function of the second step is computed from
    the cells of the first board, which the first step fixes. *)
Lemma step_ok_trans b b1 b2 c1 (f : (Z -> Z) -> Z -> Z) :
  (forall c c', (forall t, c t = c' t) -> forall t, f c t = f c' t) ->
  step_ok b b1 c1 -> step_ok b1 b2 (f (piece_at b1)) -> step_ok b b2 (f c1).
Proof.
  intros Hf (_ & _ & Hc1 & Hsh1 & Hm1) (Hw2 & Hh2 & Hc2 & Hsh2 & Hm2).
  split_and!; try done.
  - intros t. rewrite Hc2. by apply Hf.
  - by eapply same_shape_trans.
  - by eapply same_meta_trans.
Qed.

Lemma remove_step b s b1 :
  board_wf b -> hash_ok b -> remove_piece s b = Some b1 ->
  step_ok b b1 (set_cell (piece_at b) s INVALID_PIECE).
Proof.
  intros Hw Hh Hr. destruct (remove_piece_step b s b1 Hw Hh Hr) as (? & ? & ? & ? & ?).
  split_and!; try done. by apply same_scalars_meta.
Qed.

Lemma add_step b s p b1 :
  board_wf b -> valid_square s = true -> hash_ok b -> add_piece s p b = Some b1 ->
  step_ok b b1 (set_cell (piece_at b) s p).
Proof.
  intros Hw Hs Hh Ha. destruct (add_piece_step b s p b1 Hw Hs Hh Ha) as (? & ? & ? & ? & ?).
  split_and!; try done. by apply same_scalars_meta.
Qed.

Lemma move_step b f t b1 :
  board_wf b -> valid_square t = true -> hash_ok b -> move_piece f t b = Some b1 ->
  step_ok b b1 (move_cell (piece_at b) f t).
Proof.
  intros Hw Hs Hh Hm. destruct (move_piece_step b f t b1 Hw Hs Hh Hm) as (? & ? & ? & ? & ?).
  split_and!; try done. by apply same_scalars_meta.
Qed.

(** Updates of the castle mask and of the en-passant square. *)
Lemma scalar_step b b' :
  board_wf b -> hash_ok b -> hash_ok b' ->
  m_pieces b' = m_pieces b -> m_positions b' = m_positions b -> m_num_pieces b' = m_num_pieces b ->
  0 <= m_castle_state b' < 16 -> same_meta b b' -> step_ok b b' (piece_at b).
Proof.
  intros Hw Hh Hh' H1 H2 H3 Hc Hm. split_and!; try done.
  - by apply (board_wf_arrays b).
  - intros t. unfold piece_at. by rewrite H1.
  - unfold same_shape, plist. rewrite H1, H2, H3. naive_solver.
Qed.

Lemma set_en_passant_step b s :
  board_wf b -> hash_ok b -> step_ok b (set_en_passant s b) (piece_at b).
Proof.
  intros Hw Hh. apply scalar_step; [done|done|by apply set_en_passant_hash|done|done|done| |].
  - apply (wf_castle b Hw).
  - unfold same_meta. naive_solver.
Qed.

Lemma set_castle_state_step b s :
  board_wf b -> hash_ok b -> 0 <= s < 16 -> step_ok b (set_castle_state s b) (piece_at b).
Proof.
  intros Hw Hh Hs. apply scalar_step; [done|done|by apply set_castle_state_hash|done|done|done|done|].
  unfold same_meta. naive_solver.
Qed.

Lemma update_castling_step b sq moved :
  board_wf b -> hash_ok b -> step_ok b (update_castling sq moved b) (piece_at b).
Proof.
  intros Hw Hh. pose proof (wf_castle b Hw).
  apply scalar_step; [done|done|by apply update_castling_hash|..];
    unfold update_castling; destruct (is_castle moved); cbn [negb]; try done.
  all: first [unfold same_meta; naive_solver
             |board_simpl; repeat match goal with |- context [if ?c then _ else _] => destruct c end;
              repeat apply castle_mask_range; lia].
Qed.

(** ** Running a primitive from a board with known cells *)

Lemma remove_exec b0 b c s :
  step_ok b0 b c -> valid_piece (c s) = true ->
  exists b', remove_piece s b = Some b' /\ step_ok b0 b' (set_cell c s INVALID_PIECE).
Proof.
  intros Hs Hv. destruct Hs as (Hw & Hh & Hc & Hsh & Hm) eqn:Hst.
  destruct (remove_piece_Some b s Hw) as [b' Hb']; [by rewrite Hc|].
  exists b'. split; [done|].
  apply (step_ok_trans b0 b b' c (fun c => set_cell c s INVALID_PIECE)); [intros ??; apply set_cell_ext|done|].
  by apply remove_step.
Qed.

Lemma add_exec b0 b c s p :
  step_ok b0 b c -> valid_square s = true -> valid_piece p = true -> c s = INVALID_PIECE ->
  (cell_count c p < MAX_PIECE_FREQ)%nat ->
  exists b', add_piece s p b = Some b' /\ step_ok b0 b' (set_cell c s p).
Proof.
  intros Hs Hsq Hv He Hn. destruct Hs as (Hw & Hh & Hc & Hsh & Hm) eqn:Hst.
  destruct (add_piece_Some b s p Hw Hv Hsq) as [b' Hb'].
  { by rewrite Hc. }
  { rewrite (pcount_cells b p Hw (valid_piece_range p Hv) Hv), (cell_count_ext _ c); done. }
  exists b'. split; [done|].
  apply (step_ok_trans b0 b b' c (fun c => set_cell c s p)); [intros ??; apply set_cell_ext|done|].
  by apply add_step.
Qed.

Lemma move_exec b0 b c f t :
  step_ok b0 b c -> valid_square t = true -> c t = INVALID_PIECE -> valid_piece (c f) = true ->
  exists b', move_piece f t b = Some b' /\ step_ok b0 b' (move_cell c f t).
Proof.
  intros Hs Hsq He Hv. destruct Hs as (Hw & Hh & Hc & Hsh & Hm) eqn:Hst.
  destruct (move_piece_Some b f t Hw Hsq) as [b' Hb']; [by rewrite Hc|by rewrite Hc|].
  exists b'. split; [done|].
  apply (step_ok_trans b0 b b' c (fun c => move_cell c f t)); [intros ??; apply move_cell_ext|done|].
  by apply move_step.
Qed.

Lemma scalar_exec b0 b b' c :
  step_ok b0 b c -> step_ok b b' (piece_at b) -> step_ok b0 b' c.
Proof. intros Hs Hs'. by apply (step_ok_trans b0 b b' c id). Qed.

End Steps.

(** Close a side condition on cells after a few updates. *)
Ltac cells_solve :=
  intros; unfold move_cell, set_cell; repeat (case_decide; subst; try lia); try done; try congruence;
  try match goal with
      | H : piece_at _ ?x = INVALID_PIECE, H' : valid_piece (piece_at _ ?x) = true |- _ =>
          rewrite H in H'; discriminate
      end.

Ltac exec_move S f t :=
  let b' := fresh "b" in let E := fresh "E" in let S' := fresh "S" in
  destruct (move_exec _ _ _ f t S ltac:(done) ltac:(cells_solve) ltac:(cells_solve))
    as (b' & E & S'); rewrite E; cbn [mbind option_bind]; clear S.

Tactic Notation "mcbn" "in" "*" :=
  cbn -[move_piece remove_piece add_piece set_en_passant set_castle_state
    update_castling piece_at valid_square valid_piece cell_count set_cell move_cell] in *.

Section MakeBody.
Context `{ZobristOk}.

(** Castling moves king and rook through [move_piece] and sets the
    castle mask to a value in range. *)
Lemma make_body_castle b c kf kt rf rt mask :
  step_ok b b c -> valid_square kt = true -> valid_square rt = true ->
  valid_piece (c kf) = true -> c kt = INVALID_PIECE ->
  valid_piece (move_cell c kf kt rf) = true -> move_cell c kf kt rt = INVALID_PIECE ->
  exists b', ((move_piece kf kt b ≫= move_piece rf rt) ≫= (fun b1 =>
              Some (set_castle_state (Z.land (m_castle_state b1) (Z.lnot mask)) b1)))
             ≫= (fun b2 => Some (set_en_passant INVALID_SQUARE b2)) = Some b' /\
    step_ok b b' (move_cell (move_cell c kf kt) rf rt).
Proof.
  intros S0 Hkt Hrt Hk Hke Hr Hre.
  destruct (move_exec b b c kf kt S0 Hkt Hke Hk) as (b1 & E1 & S1). rewrite E1. cbn [mbind option_bind].
  destruct (move_exec b b1 _ rf rt S1 Hrt Hre Hr) as (b2 & E2 & S2). rewrite E2. cbn [mbind option_bind].
  eexists. split; [reflexivity|]. apply (scalar_exec _ _ _ _ S2).
  destruct S2 as (Hw2 & Hh2 & _). apply (scalar_exec _ _ _ _ (set_castle_state_step _ _ Hw2 Hh2
    (castle_mask_range (m_castle_state b2) mask (wf_castle _ Hw2)))). apply set_en_passant_step.
  - by apply (board_wf_arrays b2); [| | | |apply castle_mask_range, Hw2].
  - by apply set_castle_state_hash.
Qed.

Lemma make_body_ok b m :
  board_wf b -> hash_ok b -> move_ok b m ->
  exists b1, make_body m (m_next_move_colour b) b = Some b1 /\
    step_ok b b1 (make_cells m (m_next_move_colour b) (piece_at b)).
Proof.
  intros Hw Hh Hok. pose proof (step_ok_refl b Hw Hh) as S0.
  destruct m as [from to moved cap prom flag]. unfold move_ok in Hok.
  unfold make_body, make_cells.
  destruct flag; mcbn in *;
    repeat first [rewrite decide_True by done|rewrite decide_False by done];
    cbn [mbind option_bind]; destruct_and?.
  - (* quiet *)
    pose proof (scalar_exec _ _ _ _ S0 (set_en_passant_step b INVALID_SQUARE Hw Hh)) as S1.
    destruct (move_exec _ _ _ from to S1) as (b2 & E2 & S2); [done..|].
    rewrite E2. cbn [mbind option_bind]. eexists. split; [reflexivity|].
    apply (scalar_exec _ _ _ _ S2). apply update_castling_step; apply S2.
  - (* double *)
    pose proof (scalar_exec _ _ _ _ S0 (set_en_passant_step b (ep_capture_square
      (m_next_move_colour b) to) Hw Hh)) as S1.
    destruct (move_exec _ _ _ from to S1) as (b2 & E2 & S2); [done..|].
    eexists. split; [|done]. rewrite <-E2. unfold ep_capture_square. done.
  - (* capture *)
    pose proof (scalar_exec _ _ _ _ S0 (set_en_passant_step b INVALID_SQUARE Hw Hh)) as S1.
    destruct (remove_exec _ _ _ to S1) as (b2 & E2 & S2); [done|]. rewrite E2. cbn [mbind option_bind].
    destruct (move_exec _ _ _ from to S2) as (b3 & E3 & S3); [done|cells_solve|cells_solve|].
    rewrite E3. cbn [mbind option_bind]. eexists. split; [reflexivity|].
    apply (scalar_exec _ _ _ _ S3). apply update_castling_step; apply S3.
  - (* en passant *)
    pose proof (scalar_exec _ _ _ _ S0 (set_en_passant_step b INVALID_SQUARE Hw Hh)) as S1.
    destruct (remove_exec _ _ _ (ep_capture_square (m_next_move_colour b) to) S1)
      as (b2 & E2 & S2); [done|].
    unfold ep_capture_square in E2 |- *. rewrite E2. cbn [mbind option_bind].
    destruct (move_exec _ _ _ from to S2) as (b3 & E3 & S3); [done|cells_solve|cells_solve|].
    by exists b3.
  - (* short castle *)
    destruct (m_next_move_colour b); mcbn in *; destruct_and!;
      (eapply make_body_castle; [exact S0|done|done|done|done|cells_solve|cells_solve]).
  - (* long castle *)
    destruct (m_next_move_colour b); mcbn in *; destruct_and!;
      (eapply make_body_castle; [exact S0|done|done|done|done|cells_solve|cells_solve]).
  - (* promotion *)
    destruct (add_exec _ _ _ to prom S0) as (b1 & E1 & S1); [done..|]. rewrite E1.
    cbn [mbind option_bind].
    destruct (remove_exec _ _ _ from S1) as (b2 & E2 & S2); [cells_solve|]. rewrite E2.
    cbn [mbind option_bind]. eexists. split; [reflexivity|].
    apply (scalar_exec _ _ _ _ S2). apply set_en_passant_step; apply S2.
  - (* promotion with capture *)
    destruct (remove_exec _ _ _ to S0) as (b1 & E1 & S1); [done|]. rewrite E1.
    cbn [mbind option_bind].
    destruct (add_exec _ _ _ to prom S1) as (b2 & E2 & S2); [done|done|cells_solve|done|].
    rewrite E2. cbn [mbind option_bind].
    destruct (remove_exec _ _ _ from S2) as (b3 & E3 & S3); [cells_solve|]. rewrite E3.
    cbn [mbind option_bind]. eexists. split; [reflexivity|].
    apply (step_ok_cells_ext _ _ (set_cell (set_cell (set_cell (piece_at b) to INVALID_PIECE)
      to prom) from INVALID_PIECE)); [|cells_solve].
    apply (scalar_exec _ _ _ _ S3). apply set_en_passant_step; apply S3.
Qed.


(** Re-adding the piece [p] that stood on [s] in [c], when the current
    cells are [c] with [s] emptied: the count check of [add_piece] passes. *)
Lemma readd_count b0 c' s p :
  board_wf b0 -> 0 <= s < 120 -> valid_piece p = true -> piece_at b0 s = p ->
  (forall t, c' t = set_cell (piece_at b0) s INVALID_PIECE t) ->
  (cell_count c' p < MAX_PIECE_FREQ)%nat.
Proof.
  intros Hw Hs Hv Hp Hc. eapply cell_count_hole; [done|exact Hc|done|by apply valid_piece_not_invalid|].
  by apply cell_count_bound.
Qed.

Lemma readd_count2 b0 c' s s2 p :
  board_wf b0 -> 0 <= s < 120 -> valid_piece p = true -> piece_at b0 s = p ->
  (forall t, c' t = set_cell (set_cell (piece_at b0) s INVALID_PIECE) s2 INVALID_PIECE t) ->
  (cell_count c' p < MAX_PIECE_FREQ)%nat.
Proof.
  intros Hw Hs Hv Hp Hc.
  rewrite (cell_count_ext c' (set_cell (set_cell (piece_at b0) s INVALID_PIECE) s2 INVALID_PIECE))
    by done.
  eapply Nat.le_lt_trans; [apply cell_count_set_invalid_le; by apply valid_piece_not_invalid|].
  by apply (readd_count b0 _ s).
Qed.

Lemma unmake_castle b c kf kt rf rt c0 :
  step_ok b b c -> valid_square kf = true -> valid_square rf = true ->
  c kf = INVALID_PIECE -> valid_piece (c kt) = true ->
  move_cell c kt kf rf = INVALID_PIECE -> valid_piece (move_cell c kt kf rt) = true ->
  (forall t, move_cell (move_cell c kt kf) rt rf t = c0 t) ->
  exists b', move_piece kt kf b ≫= move_piece rt rf = Some b' /\ step_ok b b' c0.
Proof.
  intros S0 Hkf Hrf Hke Hk Hre Hr Hc0.
  destruct (move_exec b b c kt kf S0 Hkf Hke Hk) as (b1 & E1 & S1). rewrite E1. cbn [mbind option_bind].
  destruct (move_exec b b1 _ rt rf S1 Hrf Hre Hr) as (b2 & E2 & S2).
  exists b2. split; [done|]. by eapply step_ok_cells_ext.
Qed.

Lemma unmake_body_ok borig b m :
  board_wf borig -> move_ok borig m -> board_wf b -> hash_ok b ->
  cells_eq b (make_cells m (m_next_move_colour borig) (piece_at borig)) ->
  m_en_passant b = m_en_passant borig ->
  exists b', unmake_body m (m_next_move_colour borig) b = Some b' /\ step_ok b b' (piece_at borig).
Proof.
  intros Hwo Hok Hw Hh Hc Hep.
  pose proof (step_ok_cells_ext _ _ _ _ (step_ok_refl b Hw Hh) Hc) as S0.
  destruct m as [from to moved cap prom flag]. unfold move_ok in Hok.
  unfold unmake_body, make_cells in *.
  destruct flag; mcbn in *;
    repeat first [rewrite decide_True by done|rewrite decide_False by done];
    cbn [mbind option_bind].
  - (* quiet *)
    destruct Hok as (Hto & Hvf & Hte). pose proof (piece_on_valid_square _ _ Hwo Hvf).
    destruct (move_exec _ _ _ to from S0) as (b1 & E1 & S1); [done|cells_solve|cells_solve|].
    rewrite E1. cbn [mbind option_bind]. eexists. split; [reflexivity|].
    eapply step_ok_cells_ext; [exact S1|cells_solve].
  - (* double *)
    destruct Hok as (Hto & Hvf & Hte). pose proof (piece_on_valid_square _ _ Hwo Hvf).
    destruct (move_exec _ _ _ to from S0) as (b1 & E1 & S1); [done|cells_solve|cells_solve|].
    rewrite E1. cbn [mbind option_bind]. eexists. split; [reflexivity|].
    eapply step_ok_cells_ext; [exact S1|cells_solve].
  - (* capture *)
    destruct Hok as (Hto & Hne & Hvf & Hvt & Hcap). pose proof (piece_on_valid_square _ _ Hwo Hvf).
    destruct (move_exec _ _ _ to from S0) as (b1 & E1 & S1); [done|cells_solve|cells_solve|].
    rewrite E1. cbn [mbind option_bind]. subst cap. rewrite decide_True by done.
    destruct (add_exec _ _ _ to (piece_at borig to) S1) as (b2 & E2 & S2); [done|done|cells_solve|
      eapply (readd_count borig _ to); [done|apply valid_square_range in Hto; lia|done|done|cells_solve]|].
    eexists. split; [exact E2|]. eapply step_ok_cells_ext; [exact S2|cells_solve].
  - (* en passant *)
    destruct Hok as (Hto & He & Hfe & Hvf & Hte & Hept & Hve & Hcap).
    pose proof (piece_on_valid_square _ _ Hwo Hvf).
    destruct (move_exec _ _ _ to from S0) as (b1 & E1 & S1); [done|cells_solve|cells_solve|].
    rewrite E1. cbn [mbind option_bind]. subst cap. rewrite decide_False by done.
    destruct (move_piece_spec b to from b1 Hw E1) as (_ & _ & _ & _ & (_ & _ & Hep1 & _) & _).
    rewrite Hep1, Hep, <-Hept. fold (ep_capture_square (m_next_move_colour borig) to).
    destruct (add_exec _ _ _ (ep_capture_square (m_next_move_colour borig) to)
      (piece_at borig (ep_capture_square (m_next_move_colour borig) to)) S1) as (b2 & E2 & S2);
      [done|done|cells_solve|
       eapply (readd_count borig _ (ep_capture_square (m_next_move_colour borig) to));
         [done|apply valid_square_range in He; lia|done|done|cells_solve]|].
    eexists. split; [exact E2|]. eapply step_ok_cells_ext; [exact S2|cells_solve].
  - (* short castle *)
    destruct (m_next_move_colour borig); mcbn in *; destruct Hok as (Hk & Hkt & Hr & Hrt);
      (eapply unmake_castle; [exact S0|done|done|cells_solve..]).
  - (* long castle *)
    destruct (m_next_move_colour borig); mcbn in *; destruct Hok as (Hk & Hkt & Hr & Hrt);
      (eapply unmake_castle; [exact S0|done|done|cells_solve..]).
  - (* promotion *)
    destruct Hok as (Hf & Hto & Hvf & Hmv & Hte & Hvp & Hcnt). subst moved.
    destruct (remove_exec _ _ _ to S0) as (b1 & E1 & S1); [cells_solve|]. rewrite E1.
    cbn [mbind option_bind].
    destruct (add_exec _ _ _ from (piece_at borig from) S1) as (b2 & E2 & S2); [done|done|cells_solve|
      eapply (readd_count borig _ from); [done|apply valid_square_range in Hf; lia|done|done|cells_solve]|].
    rewrite E2. cbn [mbind option_bind]. eexists. split; [reflexivity|].
    eapply step_ok_cells_ext; [exact S2|cells_solve].
  - (* promotion with capture *)
    destruct Hok as (Hf & Hto & Hne & Hvf & Hmv & Hvt & Hcap & Hvp & Hcnt). subst moved cap.
    destruct (remove_exec _ _ _ to S0) as (b1 & E1 & S1); [cells_solve|]. rewrite E1.
    cbn [mbind option_bind].
    destruct (add_exec _ _ _ from (piece_at borig from) S1) as (b2 & E2 & S2); [done|done|cells_solve|
      eapply (readd_count2 borig _ from to); [done|apply valid_square_range in Hf; lia|done|done|
      cells_solve]|].
    rewrite E2. cbn [mbind option_bind].
    destruct (add_exec _ _ _ to (piece_at borig to) S2) as (b3 & E3 & S3); [done|done|cells_solve|
      eapply (readd_count borig _ to); [done|apply valid_square_range in Hto; lia|done|done|cells_solve]|].
    eexists. split; [exact E3|]. eapply step_ok_cells_ext; [exact S3|cells_solve].
Qed.

End MakeBody.

(** ** Reversal restores the scalar fields *)

(** Peel the binds of a successful run of primitives into scalar facts. *)
Ltac scalar_chain :=
  repeat match goal with
  | H : mbind _ ?x = Some _ |- _ => apply bind_Some in H as (? & ? & H)
  | H : remove_piece _ _ = Some _ |- _ => apply remove_piece_scalars in H
  | H : add_piece _ _ _ = Some _ |- _ => apply add_piece_scalars in H
  | H : move_piece _ _ _ = Some _ |- _ => apply move_piece_scalars in H
  | H : Some _ = Some _ |- _ => injection H as H; subst
  end.

Lemma unmake_body_scalars `{Zobrist} m side b b' :
  unmake_body m side b = Some b' -> same_scalars b b'.
Proof.
  unfold unmake_body. intros Hu.
  repeat (case_match || case_decide); scalar_chain;
    repeat match goal with H : same_scalars _ _ |- _ => revert H end;
    unfold same_scalars; intros; destruct_and?; split_and!; congruence.
Qed.

Lemma update_castling_det `{Zobrist} sq moved b1 b2 :
  m_castle_state b1 = m_castle_state b2 ->
  m_castle_state (update_castling sq moved b1) = m_castle_state (update_castling sq moved b2).
Proof. intros Hc. unfold update_castling. destruct (is_castle moved); cbn; by rewrite ?Hc. Qed.

Lemma update_castling_ep `{Zobrist} sq moved b : m_en_passant (update_castling sq moved b) = m_en_passant b.
Proof. unfold update_castling. by destruct (is_castle moved). Qed.

(** The castle mask and the en-passant square after [make_body] depend
    only on the move, the side and the castle mask before. *)
Lemma make_body_scalars `{Zobrist} m s b1 b2 r1 r2 :
  m_castle_state b1 = m_castle_state b2 ->
  make_body m s b1 = Some r1 -> make_body m s b2 = Some r2 ->
  m_castle_state r1 = m_castle_state r2 /\ m_en_passant r1 = m_en_passant r2.
Proof.
  intros Hc E1 E2. destruct m as [from to moved cap prom flag]. unfold make_body in *.
  destruct flag, s; mcbn in *;
    repeat first [rewrite decide_True in E1, E2 by done|rewrite decide_False in E1, E2 by done];
    repeat case_match; scalar_chain.
  all: unfold same_scalars, set_en_passant, set_castle_state in *; destruct_and?; board_simpl.
  all: first [split; [apply update_castling_det|rewrite !update_castling_ep]; congruence
             |split; congruence].
Qed.

(** ** Moves that neither take nor make a king *)

Definition keeps_kings (m : move_t) : bool :=
  negb (is_king (captured_piece m)) && negb (is_king (promoted_piece m)) &&
  (negb (move_promoted m) || negb (is_king (moved_piece m))).

(** Such a move keeps the number of each king on the board. *)
Lemma make_cells_kings b m k :
  board_wf b -> move_ok b m -> keeps_kings m = true -> is_king k = true ->
  cell_count (make_cells m (m_next_move_colour b) (piece_at b)) k = cell_count (piece_at b) k.
Proof.
  intros Hw Hok Hkk Hk.
  assert (Hk0 : k <> INVALID_PIECE) by (intros ->; discriminate).
  assert (Hnk : forall p, is_king p = false -> p <> k) by (intros p Hp ->; congruence).
  assert (Hr : forall s, valid_square s = true -> 0 <= s < 120)
    by (intros s Hs; apply valid_square_range in Hs; lia).
  assert (Hf : forall s, valid_piece (piece_at b s) = true -> 0 <= s < 120)
    by (intros s Hs; apply Hr; by apply (piece_on_valid_square b)).
  destruct m as [from to moved cap prom flag]. unfold keeps_kings in Hkk.
  unfold move_ok, make_cells in *.
  destruct flag; mcbn in *; andb_hyps; destruct_and?.
  - apply cell_count_move; auto.
  - apply cell_count_move; auto.
  - rewrite cell_count_move by (auto; unfold set_cell; by rewrite decide_True).
    apply cell_count_set_other; auto. subst cap. auto.
  - rewrite cell_count_move by (auto; unfold set_cell; case_decide; congruence).
    apply cell_count_set_other; auto. subst cap. auto.
  - destruct (m_next_move_colour b); cbn in *; destruct_and?;
      rewrite !cell_count_move by (try lia; cells_solve); done.
  - destruct (m_next_move_colour b); cbn in *; destruct_and?;
      rewrite !cell_count_move by (try lia; cells_solve); done.
  - assert (from <> to) by (intros ->; match goal with
      H : piece_at b to = INVALID_PIECE, H' : valid_piece (piece_at b to) = true |- _ =>
        rewrite H in H'; discriminate end).
    rewrite cell_count_set_other; auto; [apply cell_count_set_other; auto; congruence|].
    unfold set_cell. rewrite decide_False by done. subst moved. auto.
  - rewrite cell_count_set_other; auto; [apply cell_count_set_other; auto; subst cap; auto|].
    unfold set_cell. rewrite decide_False by done. subst moved. auto.
Qed.

(** Applicability only reads the cells, the side and the en-passant square. *)
Lemma move_ok_equiv b1 b2 m : b1 ≃b b2 -> move_ok b1 m -> move_ok b2 m.
Proof.
  intros (Hp & _ & _ & _ & (Hc & _ & He & _) & _).
  assert (Hpa : piece_at b2 = piece_at b1) by (unfold piece_at; by rewrite Hp).
  unfold move_ok. by rewrite Hpa, <-Hc, <-He.
Qed.

(** ** [make_move] and [unmake_move] *)

Definition history_entry (b : Board) (m : move_t) : history_t :=
  mk_history m (m_castle_state b) (m_en_passant b) (m_fifty_move b) (m_hash b).

(** The board [make_move] hands to [make_body] (lines 587-589) and the
    board it returns once the body has run (lines 646-652). *)
Definition pre_body (b : Board) (m : move_t) : Board :=
  with_half (m_half_move b + 1) (with_history (history_entry b m :: m_history b) b).

Definition after_body `{Zobrist} (m : move_t) (x : Board) : Board :=
  switch_colours (with_fifty (if move_captured m || is_pawn (moved_piece m) then 0
                              else m_fifty_move x + 1) x).

Section Top.
Context `{ZobristOk}.

Lemma make_move_spec b m :
  board_wf b -> hash_ok b -> move_ok b m ->
  exists b', make_move m b = Some (negb (square_attacked b'
      (king_square b' (side_piece (m_next_move_colour b) KING)) (negb (m_next_move_colour b))), b') /\
    board_wf b' /\ hash_ok b' /\ cells_eq b' (make_cells m (m_next_move_colour b) (piece_at b)) /\
    m_next_move_colour b' = negb (m_next_move_colour b) /\
    m_history b' = history_entry b m :: m_history b /\ m_half_move b' = m_half_move b + 1 /\
    m_move_cache b' = m_move_cache b /\
    m_fifty_move b' = (if move_captured m || is_pawn (moved_piece m) then 0 else m_fifty_move b + 1).
Proof.
  intros Hw Hh Hok. unfold make_move. cbv zeta. fold (history_entry b m).
  set (b0 := with_half (m_half_move b + 1) (with_history (history_entry b m :: m_history b) b)).
  assert (Hw0 : board_wf b0) by (apply (board_wf_arrays b); try done; apply Hw).
  destruct (make_body_ok b0 m Hw0 Hh Hok) as (b1 & E1 & (Hw1 & Hh1 & Hc1 & _ & Hm1)).
  destruct Hm1 as (Hcol & Hfif & Hhalf & Hhist & Hcache).
  change (make_body m (m_next_move_colour b) b0 = Some b1) in E1.
  rewrite E1. cbn [mbind option_bind].
  eexists. split; [reflexivity|]. split_and!.
  4-8: unfold switch_colours; board_simpl.
  - apply (board_wf_arrays b1); try done. apply Hw1.
  - by apply switch_colours_hash.
  - intros t. apply Hc1.
  - by rewrite Hcol.
  - by rewrite Hhist.
  - by rewrite Hhalf.
  - by rewrite Hcache.
  - by rewrite Hfif.
Qed.

Lemma compute_hash_same b b' :
  cells_eq b' (piece_at b) -> m_castle_state b' = m_castle_state b ->
  m_en_passant b' = m_en_passant b -> m_next_move_colour b' = m_next_move_colour b ->
  compute_hash b' = compute_hash b.
Proof. intros Hc H1 H2 H3. unfold compute_hash. by rewrite (cells_hash_ext _ _ Hc), H1, H2, H3. Qed.

(** The board [unmake_move] hands to [unmake_body]: the undo record
    popped and its scalars restored, the clock wound back, the side
    switched. *)
Definition unmake_prefix (b : Board) (e : history_t) (rest : list history_t) (half : Z) : Board :=
  switch_colours (with_half half (with_fifty (h_fifty_move e)
    (set_en_passant (h_en_passant e) (set_castle_state (h_castle_state e) (with_history rest b))))).

Lemma unmake_prefix_ok b' e rest half :
  board_wf b' -> hash_ok b' -> 0 <= h_castle_state e < 16 ->
  let c := unmake_prefix b' e rest half in
  board_wf c /\ hash_ok c /\ cells_eq c (piece_at b') /\
  m_next_move_colour c = negb (m_next_move_colour b') /\
  m_castle_state c = h_castle_state e /\ m_en_passant c = h_en_passant e /\
  m_fifty_move c = h_fifty_move e /\ m_half_move c = half /\ m_history c = rest /\
  m_move_cache c = m_move_cache b'.
Proof.
  intros Hw Hh Hc c. split_and!.
  4-10: unfold c, unmake_prefix, switch_colours, set_en_passant, set_castle_state; board_simpl;
    reflexivity.
  - by apply (board_wf_arrays b').
  - apply switch_colours_hash, set_en_passant_hash, set_castle_state_hash. exact Hh.
  - intros t. reflexivity.
Qed.

Lemma unmake_move_cons b e rest :
  m_history b = e :: rest ->
  unmake_move b =
    if negb (0 <? m_half_move b) then None else
    let c := unmake_prefix b e rest (m_half_move b - 1) in
    b5 ← unmake_body (h_move e) (m_next_move_colour c) c;
    if negb (m_hash b5 =? h_hash e) then None else Some b5.
Proof. intros He. unfold unmake_move. by rewrite He. Qed.

(** Making an applicable move on a well-formed, correctly hashed
    board and unmaking it gives back the original board (cells, counts,
    castle mask, en-passant square, clocks, history, cache and hash),
    up to the order of the entries of each piece list. *)
Theorem make_unmake_restores b m v b' :
  board_wf b -> hash_ok b -> move_ok b m -> 0 <= m_half_move b ->
  make_move m b = Some (v, b') ->
  exists b'', unmake_move b' = Some b'' /\ b'' ≃b b.
Proof.
  intros Hw Hh Hok Hhalf0 E.
  destruct (make_move_spec b m Hw Hh Hok) as (b1 & E1 & Hw1 & Hh1 & Hc1 & Hcol & Hhist & Hhalf & Hcache & _).
  rewrite E1 in E. injection E as _ <-.
  rewrite (unmake_move_cons b1 _ _ Hhist), Hhalf.
  rewrite (proj2 (Z.ltb_lt 0 (m_half_move b + 1))) by lia. cbn [negb].
  rewrite Z.add_simpl_r. cbv zeta.
  change (h_move (history_entry b m)) with m. change (h_hash (history_entry b m)) with (m_hash b).
  destruct (unmake_prefix_ok b1 (history_entry b m) (m_history b) (m_half_move b) Hw1 Hh1 (wf_castle b Hw))
    as (Hw4 & Hh4 & Hc4 & Hcol4 & Hcs4 & Hep4 & Hf4 & Hhalf4 & Hhist4 & Hcache4).
  set (c4 := unmake_prefix _ _ _ _) in *.
  assert (Hcol4' : m_next_move_colour c4 = m_next_move_colour b) by (rewrite Hcol4, Hcol; apply negb_involutive).
  rewrite Hcol4'.
  destruct (unmake_body_ok b c4 m Hw Hok Hw4 Hh4) as (b5 & E5 & Hw5 & Hh5 & Hc5 & _ & _);
    [intros t; rewrite Hc4; apply Hc1|done|].
  rewrite E5. cbn [mbind option_bind].
  pose proof (unmake_body_scalars _ _ _ _ E5) as Hs5.
  assert (Hsc : same_scalars b5 b).
  { destruct Hs5 as (? & ? & ? & ? & ? & ? & ?). unfold same_scalars. rewrite Hcol4' in *.
    unfold history_entry in *; cbn [h_castle_state h_en_passant h_fifty_move] in *.
    split_and!; congruence. }
  assert (Hhash : m_hash b5 = m_hash b).
  { rewrite Hh5, Hh. pose proof Hsc as (? & ? & ? & _). by apply compute_hash_same. }
  rewrite Hhash, Z.eqb_refl. cbn [negb]. eexists. split; [reflexivity|].
  apply equiv_of_cells; [done|done|done|apply wf_same_shape; done|done|done].
Qed.

(** C2: an applicable move on a well-formed, correctly hashed board is
    made: the verdict is [true] exactly when the mover's king is not
    attacked afterwards, the cells change as [make_cells] says, the
    invariant and the hash hold, the side switches, one undo record is
    pushed, the half-move count grows by one and the fifty-move count is
    reset by a capture or a pawn move and grows by one otherwise. *)
Theorem make_move_ok b m :
  board_wf b -> hash_ok b -> move_ok b m ->
  exists v b', make_move m b = Some (v, b') /\
    (v = true <-> square_attacked b' (king_square b' (side_piece (m_next_move_colour b) KING))
                    (negb (m_next_move_colour b)) = false) /\
    board_wf b' /\ hash_ok b' /\ cells_eq b' (make_cells m (m_next_move_colour b) (piece_at b)) /\
    m_next_move_colour b' = negb (m_next_move_colour b) /\
    m_history b' = history_entry b m :: m_history b /\ m_half_move b' = m_half_move b + 1 /\
    m_fifty_move b' = (if move_captured m || is_pawn (moved_piece m) then 0 else m_fifty_move b + 1).
Proof.
  intros Hw Hh Hok.
  destruct (make_move_spec b m Hw Hh Hok) as (b' & E & Hw' & Hh' & Hc & Hcol & Hhist & Hhalf & _ & Hf).
  eexists _, b'. split; [exact E|]. split; [|done]. by rewrite negb_true_iff.
Qed.
Lemma make_move_body b m x :
  make_body m (m_next_move_colour b) (pre_body b m) = Some x ->
  make_move m b = Some (negb (square_attacked (after_body m x)
      (king_square (after_body m x) (side_piece (m_next_move_colour b) KING))
      (negb (m_next_move_colour b))), after_body m x).
Proof. intros E. unfold make_move. cbv zeta. unfold pre_body, history_entry in E. by rewrite E. Qed.

Lemma make_body_pre b m :
  board_wf b -> hash_ok b -> move_ok b m ->
  exists x, make_body m (m_next_move_colour b) (pre_body b m) = Some x /\
    step_ok (pre_body b m) x (make_cells m (m_next_move_colour b) (piece_at b)).
Proof.
  intros Hw Hh Hok. apply (make_body_ok (pre_body b m) m); [|done|done].
  apply (board_wf_arrays b); try done; apply Hw.
Qed.

Lemma after_body_step b m x c :
  step_ok (pre_body b m) x c ->
  board_wf (after_body m x) /\ hash_ok (after_body m x) /\ cells_eq (after_body m x) c /\
  m_next_move_colour (after_body m x) = negb (m_next_move_colour b) /\
  m_castle_state (after_body m x) = m_castle_state x /\ m_en_passant (after_body m x) = m_en_passant x /\
  m_fifty_move (after_body m x) =
    (if move_captured m || is_pawn (moved_piece m) then 0 else m_fifty_move b + 1) /\
  m_half_move (after_body m x) = m_half_move b + 1 /\
  m_history (after_body m x) = history_entry b m :: m_history b /\
  m_move_cache (after_body m x) = m_move_cache b.
Proof.
  intros (Hw & Hh & Hc & _ & Hcol & Hfif & Hhalf & Hhist & Hcache).
  unfold same_meta, pre_body in *. board_simpl.
  split_and!; try (unfold after_body, switch_colours; board_simpl; congruence).
  - apply (board_wf_arrays x); try done. apply Hw.
  - by apply switch_colours_hash.
  - intros t. apply Hc.
  - unfold after_body, switch_colours. board_simpl. by rewrite Hfif.
Qed.

(** Equivalent boards make a move to equivalent boards with the same verdict. *)
Lemma make_move_equiv b1 b2 m :
  board_wf b1 -> hash_ok b1 -> move_ok b1 m -> keeps_kings m = true -> b1 ≃b b2 ->
  pcount b1 WHITE_KING = 1%nat -> pcount b1 BLACK_KING = 1%nat ->
  exists v r1 r2, make_move m b1 = Some (v, r1) /\ make_move m b2 = Some (v, r2).
Proof.
  intros Hw1 Hh1 Hok1 Hkk Heq Hwk Hbk.
  assert (Hw2 : board_wf b2) by (by rewrite <-Heq).
  assert (Hh2 : hash_ok b2) by (by rewrite <-Heq).
  pose proof (move_ok_equiv _ _ m Heq Hok1) as Hok2.
  pose proof Heq as (Hp & _ & _ & _ & (Hc & Hcs & He & Hf & Hhf & Hhi & Hca) & Hhash).
  assert (Hpa : piece_at b2 = piece_at b1) by (unfold piece_at; by rewrite Hp).
  destruct (make_body_pre b1 m Hw1 Hh1 Hok1) as (x1 & E1 & S1).
  destruct (make_body_pre b2 m Hw2 Hh2 Hok2) as (x2 & E2 & S2).
  rewrite (make_move_body _ _ _ E1), (make_move_body _ _ _ E2), <-Hc.
  rewrite <-Hc in E2, S2. rewrite Hpa in S2.
  destruct (make_body_scalars m _ (pre_body b1 m) (pre_body b2 m) _ _ Hcs E1 E2) as [Hcs' He'].
  pose proof (after_body_step _ _ _ _ S1) as (Hr1 & Hhr1 & Hcr1 & Hcol1 & Hcs1 & He1 & Hf1 & Hm1).
  pose proof (after_body_step _ _ _ _ S2) as (Hr2 & Hhr2 & Hcr2 & Hcol2 & Hcs2 & He2 & Hf2 & Hm2).
  set (r1 := after_body m x1) in *. set (r2 := after_body m x2) in *.
  assert (Hcells : forall t, piece_at r1 t = piece_at r2 t) by (intros t; by rewrite Hcr1, Hcr2).
  assert (Hreq : r1 ≃b r2).
  { apply equiv_of_cells; [done|done|done|by apply wf_same_shape| |].
    - destruct Hm1 as (? & ? & ?), Hm2 as (? & ? & ?).
      unfold same_scalars, history_entry in *. rewrite Hf, Hhf, Hhi, Hca, Hcs, He, Hhash in *.
      split_and!; congruence.
    - rewrite Hhr1, Hhr2. apply compute_hash_same; [intros t; by rewrite Hcells|congruence..]. }
  assert (Hks : forall s, king_square r1 (side_piece s KING) = king_square r2 (side_piece s KING)).
  { intros s. apply king_square_equiv; [done|destruct s; cbn; lia|].
    rewrite (pcount_cells r1) by (try done; destruct s; cbn; (lia || reflexivity)).
    rewrite (cell_count_ext _ _ _ Hcr1), make_cells_kings by (try done; by destruct s).
    rewrite <-pcount_cells by (try done; destruct s; cbn; (lia || reflexivity)). by destruct s. }
  rewrite (square_attacked_ext r1 r2), Hks by done. eauto.
Qed.
(** C11: a capture by a piece other than a rook or a king leaves the
    castle mask as it was, whatever it captures: [make_move] calls
    [update_castling] only with the square the moving piece leaves
    (line 719), so taking a rook on its home square keeps the
    opponent's right to castle with it, and the capturing piece now
    stands on that home square. *)
Theorem capture_keeps_castle_right b m :
  board_wf b -> hash_ok b -> move_ok b m -> move_flag m = CAPTURE_MOVE ->
  is_castle (moved_piece m) = false ->
  exists v b', make_move m b = Some (v, b') /\ m_castle_state b' = m_castle_state b /\
    piece_at b' (move_to m) = piece_at b (move_from m).
Proof.
  intros Hw Hh Hok Hf Hc.
  destruct (make_body_pre b m Hw Hh Hok) as (x & E & S).
  pose proof (after_body_step _ _ _ _ S) as (_ & _ & Hcells & _ & Hcs & _).
  eexists _, (after_body m x). split; [by apply make_move_body|]. split.
  - rewrite Hcs. destruct m as [from to moved cap prom flag]; cbn in Hf, Hc; subst flag.
    unfold make_body in E. mcbn in *. rewrite decide_False in E by done. scalar_chain.
    unfold update_castling. rewrite Hc. cbn [negb].
    unfold same_scalars, set_en_passant, pre_body in *. destruct_and?. board_simpl. congruence.
  - rewrite Hcells. unfold make_cells. rewrite Hf. unfold move_cell, set_cell.
    rewrite decide_True by done. unfold move_ok in Hok. rewrite Hf in Hok. destruct_and?.
    by rewrite decide_False.
Qed.
End Top.
