(* ===== verification/MoveGen.v ===== *)
(** * MoveGen: [Board::pseudo_moves] and [Board::legal_moves]

    [pseudo_moves] (board.cpp lines 366-567) first looks the position
    hash up in [m_move_cache]; otherwise it returns nothing past the
    fifty/75-move and 1000-half-move cutoffs, and else lists, in this
    order, the moves of the queens, rooks, bishops, knights, pawns, the
    king and the castles of the side, stores the list in the cache and
    returns it.  The cache is a [mutable] member, so the model returns
    the updated board with the list.  A slider's [while] loop is
    [slide] with fuel [RAY_FUEL], enough by [Attack.ray_end_exits].
    The [_side] argument is [None] for [INVALID_SIDE].

    [legal_moves] (lines 569-578) runs [make_move] and [unmake_move] on
    a copy of the board for each pseudo-move and keeps the moves whose
    verdict is [true].  Every generated move satisfies [move_ok] and
    keeps the kings ([generate_ok], [generate_kk]); each round of the
    loop leaves the copy equivalent to the board it started from, so
    [legal_moves] filters the pseudo-moves by the verdicts on that
    board ([legal_loop_spec], [legal_moves_filter]).  Promotions are
    to the opponent's colour ([promotion_to_opponent]) and a castle
    whose rook is gone is generated but cannot be made
    ([castle_without_rook_fails]). *)

From S2P Require Import Prelude Encoding Move Zobrist Board Attack MakeMove.

Definition MAX_POSITION_MOVES : nat := 256.

Definition queen_offsets : list Z := [-11; -10; -9; -1; 1; 9; 10; 11].

(** [m_positions[piece][0 .. m_num_pieces[piece])], the loop over one
    piece type. *)
Definition for_pieces (b : Board) (piece : Z) (f : Z -> list move_t) : list move_t :=
  flat_map f (plive b piece).

(** The [while] loop of a slider: quiet moves over the empty squares of
    the ray, and the square where the loop stops. *)
Fixpoint slide (fuel : nat) (b : Board) (start piece cur off : Z) : list move_t * Z :=
  match fuel with
  | O => ([], cur)
  | S f =>
      if valid_square cur && (piece_at b cur =? INVALID_PIECE) then
        let '(ms, e) := slide f b start piece (cur + off) off in
        (quiet_move start cur piece :: ms, e)
      else ([], cur)
  end.

(** The capture test after a slider's loop, and the knight's and
    king's capture test. *)
Definition can_capture (b : Board) (piece sq : Z) : bool :=
  valid_square sq && opposite_colours piece (piece_at b sq) && negb (is_king (piece_at b sq)).

Definition ray_moves (b : Board) (piece start off : Z) : list move_t :=
  let '(ms, cur) := slide RAY_FUEL b start piece (start + off) off in
  ms ++ (if can_capture b piece cur then [capture_move start cur piece (piece_at b cur)] else []).

Definition slider_moves (b : Board) (piece : Z) (offsets : list Z) : list move_t :=
  for_pieces b piece (fun start => flat_map (ray_moves b piece start) offsets).

(** Knights, lines 451-460. *)
Definition knight_step (b : Board) (piece start off : Z) : list move_t :=
  let cur := start + off in
  if valid_square cur && (piece_at b cur =? INVALID_PIECE) then [quiet_move start cur piece]
  else if can_capture b piece cur then [capture_move start cur piece (piece_at b cur)]
  else [].

(** The promotion pieces of lines 388-391: [queen_piece ^ 8u], ... *)
Definition promote_pieces (side : bool) : list Z :=
  map (fun sp => Z.lxor (side_piece side sp) 8) [QUEEN; ROOK; BISHOP; KNIGHT].

Definition last_rank (sq : Z) : bool := (get_square_row sq =? RANK_1) || (get_square_row sq =? RANK_8).

(** One diagonal capture of a pawn, lines 490-511. *)
Definition pawn_capture (b : Board) (side : bool) (pawn start sq : Z) : list move_t :=
  if valid_square sq && negb (piece_at b sq =? INVALID_PIECE) &&
     opposite_colours pawn (piece_at b sq) && negb (is_king (piece_at b sq)) then
    if last_rank sq then
      map (fun pp => promote_capture_move start sq pawn pp (piece_at b sq)) (promote_pieces side)
    else [capture_move start sq pawn (piece_at b sq)]
  else [].

(** The moves of the pawn on [start], lines 464-521. *)
Definition pawn_moves (b : Board) (side : bool) (pawn start : Z) : list move_t :=
  let double_white :=
    if negb side && (get_square_row start =? RANK_2) &&
       (piece_at b (start + 10) =? INVALID_PIECE) && (piece_at b (start + 20) =? INVALID_PIECE)
    then [double_move start (start + 20) pawn] else [] in
  let double_black :=
    if side && (get_square_row start =? RANK_7) &&
       (piece_at b (start - 10) =? INVALID_PIECE) && (piece_at b (start - 20) =? INVALID_PIECE)
    then [double_move start (start - 20) pawn] else [] in
  let offset := if negb side then 10 else -10 in
  let cur := start + offset in
  let single :=
    if valid_square cur && (piece_at b cur =? INVALID_PIECE) then
      if last_rank cur then map (promote_move start cur pawn) (promote_pieces side)
      else [quiet_move start (start + offset) pawn]
    else [] in
  let capture1 := cur - 1 in
  let capture2 := cur + 1 in
  let ep := m_en_passant b in
  let enpas :=
    if negb (ep =? INVALID_SQUARE) then
      (if (capture1 =? ep) && (piece_at b capture1 =? INVALID_PIECE)
       then [en_passant_move start ep pawn] else []) ++
      (if (capture2 =? ep) && (piece_at b capture2 =? INVALID_PIECE)
       then [en_passant_move start ep pawn] else [])
    else [] in
  double_white ++ double_black ++ single ++ pawn_capture b side pawn start capture1 ++
  pawn_capture b side pawn start capture2 ++ enpas.

(** The king, lines 525-536. *)
Definition king_step (b : Board) (king start off : Z) : list move_t :=
  let cur := start + off in
  let piece := piece_at b cur in
  if valid_square cur then
    if piece =? INVALID_PIECE then [quiet_move start cur king]
    else if opposite_colours king piece && negb (is_king piece)
    then [capture_move start cur king piece] else []
  else [].

Definition castle_bit (b : Board) (bit : Z) : bool := negb (Z.land (m_castle_state b) bit =? 0).

(** Castling, lines 539-563. *)
Definition castle_moves (b : Board) (side : bool) : list move_t :=
  if negb side then
    let d1_attacked := square_attacked b D1 BLACK in
    let e1_attacked := square_attacked b E1 BLACK in
    let f1_attacked := square_attacked b F1 BLACK in
    (if castle_bit b WHITE_SHORT && negb e1_attacked && negb f1_attacked &&
        (piece_at b F1 =? INVALID_PIECE) && (piece_at b G1 =? INVALID_PIECE)
     then [castle_move E1 G1 WHITE_KING SHORT_CASTLE_MOVE] else []) ++
    (if castle_bit b WHITE_LONG && negb e1_attacked && negb d1_attacked &&
        (piece_at b D1 =? INVALID_PIECE) && (piece_at b C1 =? INVALID_PIECE) &&
        (piece_at b B1 =? INVALID_PIECE)
     then [castle_move E1 C1 WHITE_KING LONG_CASTLE_MOVE] else [])
  else
    let d8_attacked := square_attacked b D8 WHITE in
    let e8_attacked := square_attacked b E8 WHITE in
    let f8_attacked := square_attacked b F8 WHITE in
    (if castle_bit b BLACK_SHORT && negb e8_attacked && negb f8_attacked &&
        (piece_at b F8 =? INVALID_PIECE) && (piece_at b G8 =? INVALID_PIECE)
     then [castle_move E8 G8 BLACK_KING SHORT_CASTLE_MOVE] else []) ++
    (if castle_bit b BLACK_LONG && negb e8_attacked && negb d8_attacked &&
        (piece_at b D8 =? INVALID_PIECE) && (piece_at b C8 =? INVALID_PIECE) &&
        (piece_at b B8 =? INVALID_PIECE)
     then [castle_move E8 C8 BLACK_KING LONG_CASTLE_MOVE] else []).

(** The list built by lines 393-563 for [side]. *)
Definition generate (b : Board) (side : bool) : list move_t :=
  let king_piece := side_piece side KING in
  let knight_piece := side_piece side KNIGHT in
  let pawn_piece := side_piece side PAWN in
  slider_moves b (side_piece side QUEEN) queen_offsets ++
  slider_moves b (side_piece side ROOK) ortho_offsets ++
  slider_moves b (side_piece side BISHOP) diag_offsets ++
  for_pieces b knight_piece (fun start => flat_map (knight_step b knight_piece start) knight_offsets) ++
  for_pieces b pawn_piece (pawn_moves b side pawn_piece) ++
  flat_map (king_step b king_piece (king_square b king_piece)) king_offsets ++
  castle_moves b side.

Definition pseudo_moves (side_arg : option bool) (b : Board) : option (list move_t * Board) :=
  match m_move_cache b !! m_hash b with
  | Some ms => Some (ms, b)
  | None =>
      if (1000 <? m_half_move b) || (75 <? m_fifty_move b) then Some ([], b) else
      let side := default (m_next_move_colour b) side_arg in
      let result := generate b side in
      if negb (length result <=? MAX_POSITION_MOVES)%nat then None else
      Some (result, with_cache (<[m_hash b := result]> (m_move_cache b)) b)
  end.

Section Legal.
Context `{Zobrist}.

(** The loop of lines 572-576 over the copy [tmp]. *)
Fixpoint legal_loop (ms : list move_t) (tmp : Board) (acc : list move_t) : option (list move_t) :=
  match ms with
  | [] => Some acc
  | m :: rest =>
      match make_move m tmp with
      | None => None
      | Some (v, tmp1) =>
          let acc := if v then acc ++ [m] else acc in
          match unmake_move tmp1 with
          | None => None
          | Some tmp2 => legal_loop rest tmp2 acc
          end
      end
  end.

Definition legal_moves (b : Board) : option (list move_t) :=
  let tmp := b in
  match pseudo_moves None tmp with
  | None => None
  | Some (ms, tmp) => legal_loop ms tmp []
  end.

(** The verdict [make_move] gives [m] on [b]. *)
Definition move_verdict (b : Board) (m : move_t) : bool :=
  match make_move m b with Some (v, _) => v | None => false end.

End Legal.

(** ** Every generated move can be made *)

(** The castle rights name pieces that stand on their home squares. *)
Definition castle_ok (b : Board) : Prop :=
  (castle_bit b WHITE_SHORT = true -> piece_at b E1 = WHITE_KING /\ piece_at b H1 = WHITE_ROOK) /\
  (castle_bit b WHITE_LONG = true -> piece_at b E1 = WHITE_KING /\ piece_at b A1 = WHITE_ROOK) /\
  (castle_bit b BLACK_SHORT = true -> piece_at b E8 = BLACK_KING /\ piece_at b H8 = BLACK_ROOK) /\
  (castle_bit b BLACK_LONG = true -> piece_at b E8 = BLACK_KING /\ piece_at b A8 = BLACK_ROOK).

(** An en-passant target lies behind a pawn of the side that just moved. *)
Definition ep_ok (b : Board) : Prop :=
  let side := m_next_move_colour b in
  let ep := m_en_passant b in
  ep <> INVALID_SQUARE -> valid_square ep = true /\
    valid_square (ep_capture_square side ep) = true /\
    piece_at b (ep_capture_square side ep) = side_piece (negb side) PAWN.

Lemma opposite_colours_spec a c :
  opposite_colours a c = true -> valid_piece a = true /\ valid_piece c = true /\ a <> c.
Proof.
  unfold opposite_colours. intros H. apply andb_true_iff in H as [H Hx].
  apply andb_true_iff in H as [Ha Hc]. split_and!; [done|done|]. intros <-.
  by rewrite xorb_nilpotent in Hx.
Qed.

Lemma quiet_ok b start to p :
  piece_at b start = p -> valid_piece p = true -> valid_square to = true ->
  piece_at b to = INVALID_PIECE -> move_ok b (quiet_move start to p).
Proof. intros Hs Hp Ht He. unfold move_ok; cbn. subst p. by split_and!. Qed.

Lemma capture_ok b start to p :
  piece_at b start = p -> valid_piece p = true -> can_capture b p to = true ->
  move_ok b (capture_move start to p (piece_at b to)).
Proof.
  intros Hs Hp Hc. unfold can_capture in Hc. apply andb_true_iff in Hc as [Hc _].
  apply andb_true_iff in Hc as [Ht Ho]. apply opposite_colours_spec in Ho as (_ & Hv & Hne).
  unfold move_ok; cbn. split_and!; try done; [intros ->; congruence|by subst p].
Qed.

Lemma slide_ok fuel b start p cur off :
  piece_at b start = p -> valid_piece p = true ->
  Forall (move_ok b) (slide fuel b start p cur off).1.
Proof.
  intros Hs Hp. revert cur. induction fuel as [|f IH]; intros cur; simpl; [constructor|].
  destruct (valid_square cur && _) eqn:Hc; [|constructor].
  apply andb_true_iff in Hc as [Hv He]. apply Z.eqb_eq in He.
  specialize (IH (cur + off)). destruct (slide f b start p (cur + off) off) as [ms e].
  constructor; [by apply quiet_ok|done].
Qed.

Lemma ray_moves_ok b p start off :
  piece_at b start = p -> valid_piece p = true -> Forall (move_ok b) (ray_moves b p start off).
Proof.
  intros Hs Hp. unfold ray_moves. pose proof (slide_ok RAY_FUEL b start p (start + off) off Hs Hp) as Hsl.
  destruct (slide _ _ _ _ _ _) as [ms cur]. apply Forall_app. split; [done|].
  destruct (can_capture b p cur) eqn:Hc; [|constructor]. constructor; [by apply capture_ok|constructor].
Qed.

Lemma knight_step_ok b p start off :
  piece_at b start = p -> valid_piece p = true -> Forall (move_ok b) (knight_step b p start off).
Proof.
  intros Hs Hp. unfold knight_step.
  destruct (valid_square _ && _) eqn:Hq; [|destruct (can_capture _ _ _) eqn:Hc; [|constructor]].
  - apply andb_true_iff in Hq as [Hv He]. apply Z.eqb_eq in He. constructor; [by apply quiet_ok|constructor].
  - constructor; [by apply capture_ok|constructor].
Qed.

Lemma king_step_ok b k start off :
  piece_at b start = k -> valid_piece k = true -> Forall (move_ok b) (king_step b k start off).
Proof.
  intros Hs Hk. unfold king_step.
  destruct (valid_square (start + off)) eqn:Hv; [|constructor].
  destruct (Z.eqb_spec (piece_at b (start + off)) INVALID_PIECE) as [He|Hne].
  { constructor; [by apply quiet_ok|constructor]. }
  destruct (opposite_colours _ _ && _) eqn:Hc; [|constructor].
  constructor; [|constructor]. apply capture_ok; [done|done|].
  unfold can_capture. by rewrite Hv.
Qed.

Lemma double_white_valid s :
  valid_square s = true -> get_square_row s = RANK_2 -> valid_square (s + 20) = true.
Proof.
  unfold valid_square, get_square_row. intros Hs Hr.
  rewrite !andb_true_iff, !Z.leb_le in *. Z.div_mod_to_equations. lia.
Qed.

Lemma double_black_valid s :
  valid_square s = true -> get_square_row s = RANK_7 -> valid_square (s - 20) = true.
Proof.
  unfold valid_square, get_square_row. intros Hs Hr.
  rewrite !andb_true_iff, !Z.leb_le in *. Z.div_mod_to_equations. lia.
Qed.

Lemma promote_pieces_valid side : Forall (fun pp => valid_piece pp = true) (promote_pieces side).
Proof. destruct side; repeat constructor. Qed.

Lemma pawn_lxor side : Z.lxor (side_piece side PAWN) 8 = side_piece (negb side) PAWN.
Proof. by destruct side. Qed.

(** Unfold [move_ok] at a move built by a constructor. *)
Ltac mok :=
  unfold move_ok; cbv zeta;
  cbn [move_flag move_from move_to moved_piece captured_piece promoted_piece quiet_move
       double_move capture_move en_passant_move castle_move promote_move promote_capture_move].

Section Generated.
Variable b : Board.
Hypothesis Hwf : board_wf b.
Hypothesis Hcastle : castle_ok b.
Hypothesis Hep : ep_ok b.
Hypothesis Hroom : forall p, valid_piece p = true -> (pcount b p < MAX_PIECE_FREQ)%nat.
Hypothesis Hking : (1 <= pcount b (side_piece (m_next_move_colour b) KING))%nat.

Lemma for_pieces_ok p f :
  0 <= p < 16 -> (forall s, piece_at b s = p -> valid_piece p = true -> Forall (move_ok b) (f s)) ->
  Forall (move_ok b) (for_pieces b p f).
Proof.
  intros Hp Hf. apply Forall_flat_map. intros s Hs.
  apply (wf_index b Hwf p s Hp) in Hs as [Hs Hv]. by apply Hf.
Qed.

Lemma slider_moves_ok p offs : 0 <= p < 16 -> Forall (move_ok b) (slider_moves b p offs).
Proof.
  intros Hp. apply for_pieces_ok; [done|]. intros s Hs Hv.
  apply Forall_flat_map. intros off _. by apply ray_moves_ok.
Qed.

Lemma promote_room pp : valid_piece pp = true -> (cell_count (piece_at b) pp < MAX_PIECE_FREQ)%nat.
Proof. intros Hv. rewrite <-pcount_cells by (auto using valid_piece_range). by apply Hroom. Qed.

Lemma promote_move_ok start to pawn pp :
  piece_at b start = pawn -> valid_piece pawn = true -> valid_square to = true ->
  piece_at b to = INVALID_PIECE -> valid_piece pp = true -> move_ok b (promote_move start to pawn pp).
Proof.
  intros Hs Hp Ht He Hpp. pose proof (piece_on_valid_square b start Hwf) as Hsq.
  mok. subst pawn. split_and!; auto using promote_room.
Qed.

Lemma promote_capture_ok start to pawn pp :
  piece_at b start = pawn -> valid_piece pawn = true -> valid_square to = true ->
  opposite_colours pawn (piece_at b to) = true -> valid_piece pp = true ->
  move_ok b (promote_capture_move start to pawn pp (piece_at b to)).
Proof.
  intros Hs Hp Ht Ho Hpp. pose proof (piece_on_valid_square b start Hwf) as Hsq.
  apply opposite_colours_spec in Ho as (_ & Hvt & Hne).
  mok. subst pawn. split_and!; auto; [intros ->; congruence|].
  eapply Nat.le_lt_trans; [apply cell_count_set_invalid_le; by apply valid_piece_not_invalid|].
  by apply promote_room.
Qed.

Lemma pawn_capture_ok side start sq :
  piece_at b start = side_piece side PAWN ->
  Forall (move_ok b) (pawn_capture b side (side_piece side PAWN) start sq).
Proof.
  intros Hs. assert (Hpv : valid_piece (side_piece side PAWN) = true) by (by destruct side).
  unfold pawn_capture. destruct (_ && _ && _ && _) eqn:Hc; [|constructor].
  apply andb_true_iff in Hc as [Hc Hk]. apply andb_true_iff in Hc as [Hc Ho].
  apply andb_true_iff in Hc as [Hv _].
  destruct (last_rank sq).
  - apply Forall_forall. intros m Hm. apply list_elem_of_In, in_map_iff in Hm as (pp & <- & Hpp).
    apply list_elem_of_In in Hpp. eapply promote_capture_ok; try done.
    by apply (proj1 (Forall_forall _ _) (promote_pieces_valid side)).
  - constructor; [|constructor]. apply capture_ok; [done|done|]. unfold can_capture.
    by rewrite Hv, Ho, Hk.
Qed.

Lemma en_passant_ok start :
  piece_at b start = side_piece (m_next_move_colour b) PAWN -> m_en_passant b <> INVALID_SQUARE ->
  piece_at b (m_en_passant b) = INVALID_PIECE ->
  move_ok b (en_passant_move start (m_en_passant b) (side_piece (m_next_move_colour b) PAWN)).
Proof.
  intros Hs Hne He. destruct (Hep Hne) as (Hv & Hve & Hpe).
  mok. rewrite pawn_lxor. fold (ep_capture_square (m_next_move_colour b) (m_en_passant b)).
  rewrite Hpe, Hs. split_and!; try done.
  - intros Heq. rewrite Heq, Hpe in Hs. by destruct (m_next_move_colour b).
  - by destruct (m_next_move_colour b).
  - by destruct (m_next_move_colour b).
Qed.

Lemma pawn_moves_ok start :
  piece_at b start = side_piece (m_next_move_colour b) PAWN ->
  Forall (move_ok b) (pawn_moves b (m_next_move_colour b) (side_piece (m_next_move_colour b) PAWN) start).
Proof.
  intros Hs. assert (Hpv : valid_piece (side_piece (m_next_move_colour b) PAWN) = true)
    by (by destruct (m_next_move_colour b)).
  assert (Hsq : valid_square start = true) by (apply (piece_on_valid_square b); [done|by rewrite Hs]).
  unfold pawn_moves. cbv zeta. repeat (apply Forall_app; split).
  - destruct (_ && _ && _ && _) eqn:Hd; [|constructor]. andb_hyps.
    constructor; [|constructor]. mok. rewrite Hs. split_and!; [by apply double_white_valid|done|done].
  - destruct (_ && _ && _ && _) eqn:Hd; [|constructor]. andb_hyps.
    constructor; [|constructor]. mok. rewrite Hs. split_and!; [by apply double_black_valid|done|done].
  - destruct (valid_square _ && _) eqn:Hq; [|constructor]. andb_hyps.
    destruct (last_rank _).
    + apply Forall_forall. intros m Hm. apply list_elem_of_In, in_map_iff in Hm as (pp & <- & Hpp).
      apply list_elem_of_In in Hpp. apply promote_move_ok; try done.
      by apply (proj1 (Forall_forall _ _) (promote_pieces_valid (m_next_move_colour b))).
    + constructor; [by apply quiet_ok|constructor].
  - by apply pawn_capture_ok.
  - by apply pawn_capture_ok.
  - destruct (negb (m_en_passant b =? INVALID_SQUARE)) eqn:Hne; [|constructor].
    andb_hyps. apply Z.eqb_neq in Hne. apply Forall_app.
    split; case_match eqn:Hc; first [by constructor|
      apply andb_true_iff in Hc as [Heq Hp]; apply Z.eqb_eq in Heq, Hp; rewrite Heq in Hp;
      (constructor; [by apply en_passant_ok|constructor])].
Qed.

Lemma castle_moves_ok : Forall (move_ok b) (castle_moves b (m_next_move_colour b)).
Proof.
  destruct Hcastle as (Hws & Hwl & Hbs & Hbl). unfold castle_moves.
  destruct (m_next_move_colour b) eqn:Hcol; cbv zeta; cbn [negb];
    apply Forall_app; split; case_match eqn:Hc; try by constructor.
  all: andb_hyps; constructor; [|constructor]; mok; rewrite Hcol; cbn [castle_squares].
  - destruct (Hbs ltac:(assumption)) as [Hk Hr]. rewrite Hk, Hr. by split_and!.
  - destruct (Hbl ltac:(assumption)) as [Hk Hr]. rewrite Hk, Hr. by split_and!.
  - destruct (Hws ltac:(assumption)) as [Hk Hr]. rewrite Hk, Hr. by split_and!.
  - destruct (Hwl ltac:(assumption)) as [Hk Hr]. rewrite Hk, Hr. by split_and!.
Qed.

Lemma king_square_live k :
  0 <= k < 16 -> (1 <= pcount b k)%nat -> king_square b k ∈ plive b k.
Proof.
  intros Hk Hn. pose proof (wf_plist_len b Hwf k Hk) as Hlen.
  unfold king_square, plive in *. destruct (plist b k) as [|x l]; [done|].
  destruct (pcount b k) as [|n]; [lia|]. cbn. by left.
Qed.

Lemma side_piece_range side sp : 1 <= sp <= 6 -> 0 <= side_piece side sp < 16.
Proof. destruct side; cbn; lia. Qed.

(** Every move of [generate] for the side to move satisfies [move_ok]. *)
Lemma generate_ok : Forall (move_ok b) (generate b (m_next_move_colour b)).
Proof.
  pose proof (side_piece_range (m_next_move_colour b) KING ltac:(lia)) as Hk.
  unfold generate. cbv zeta.
  do 3 (apply Forall_app; split; [apply slider_moves_ok, side_piece_range; lia|]).
  apply Forall_app; split.
  { apply for_pieces_ok; [apply side_piece_range; lia|]. intros s Hs Hv.
    apply Forall_flat_map. intros off _. by apply knight_step_ok. }
  apply Forall_app; split.
  { apply for_pieces_ok; [apply side_piece_range; lia|]. intros s Hs _. by apply pawn_moves_ok. }
  apply Forall_app; split; [|apply castle_moves_ok].
  apply Forall_flat_map. intros off _.
  pose proof (proj1 (wf_index b Hwf _ _ Hk) (king_square_live _ Hk Hking)) as [Hks Hkv].
  by apply king_step_ok.
Qed.

End Generated.

(** ** The shapes of the generated moves

    Every move of [generate b side] is built by one of the move
    constructors; a capture never takes a king (the generators test
    [!is_king] before every capture), an en-passant capture and a
    promotion move the side's pawn, and a promotion piece is one of
    [promote_pieces side].  A property of moves that holds of these
    shapes holds of every generated move. *)
Section Shapes.
Variable P : move_t -> Prop.
Variable side : bool.
Hypothesis Hq : forall s t p, P (quiet_move s t p).
Hypothesis Hd : forall s t p, P (double_move s t p).
Hypothesis Hc : forall s t p c, is_king c = false -> P (capture_move s t p c).
Hypothesis He : forall s t, P (en_passant_move s t (side_piece side PAWN)).
Hypothesis Hk : forall s t p f, f = SHORT_CASTLE_MOVE \/ f = LONG_CASTLE_MOVE -> P (castle_move s t p f).
Hypothesis Hp : forall s t pp, pp ∈ promote_pieces side -> P (promote_move s t (side_piece side PAWN) pp).
Hypothesis Hpc : forall s t pp c, pp ∈ promote_pieces side -> is_king c = false ->
  P (promote_capture_move s t (side_piece side PAWN) pp c).

Lemma can_capture_king b p sq : can_capture b p sq = true -> is_king (piece_at b sq) = false.
Proof. unfold can_capture. intros Hcap. apply andb_true_iff in Hcap as [_ Hcap]. by apply negb_true_iff. Qed.

Lemma promotions_shapes f :
  (forall pp, pp ∈ promote_pieces side -> P (f pp)) -> Forall P (map f (promote_pieces side)).
Proof.
  intros Hf. apply Forall_forall. intros m Hm. apply list_elem_of_In, in_map_iff in Hm as (pp & <- & Hpp).
  apply Hf, list_elem_of_In, Hpp.
Qed.

Lemma slide_shapes fuel b start p cur off : Forall P (slide fuel b start p cur off).1.
Proof.
  revert cur. induction fuel as [|f IH]; intros cur; simpl; [constructor|].
  destruct (_ && _); [|constructor]. specialize (IH (cur + off)).
  destruct (slide f b start p (cur + off) off) as [ms e]. by constructor.
Qed.

Lemma ray_moves_shapes b p start off : Forall P (ray_moves b p start off).
Proof.
  unfold ray_moves. pose proof (slide_shapes RAY_FUEL b start p (start + off) off) as Hs.
  destruct (slide _ _ _ _ _ _) as [ms cur]. apply Forall_app; split; [done|].
  destruct (can_capture b p cur) eqn:Hcap; [|constructor].
  constructor; [|constructor]. by apply Hc, (can_capture_king b p).
Qed.

Lemma knight_step_shapes b p start off : Forall P (knight_step b p start off).
Proof.
  unfold knight_step. destruct (_ && _); [by constructor|].
  destruct (can_capture _ _ _) eqn:Hcap; [|constructor].
  constructor; [|constructor]. by apply Hc, (can_capture_king b p).
Qed.

Lemma king_step_shapes b k start off : Forall P (king_step b k start off).
Proof.
  unfold king_step. cbv zeta. destruct (valid_square _); [|constructor].
  destruct (_ =? _); [by constructor|]. destruct (_ && _) eqn:Hcap; [|constructor].
  andb_hyps. constructor; [|constructor]. by apply Hc.
Qed.

Lemma pawn_capture_shapes b start sq : Forall P (pawn_capture b side (side_piece side PAWN) start sq).
Proof.
  unfold pawn_capture. destruct (_ && _ && _ && _) eqn:Hcap; [|constructor].
  apply andb_true_iff in Hcap as [_ Hking]. apply negb_true_iff in Hking. destruct (last_rank sq).
  - apply promotions_shapes. intros pp Hpp. by apply Hpc.
  - constructor; [|constructor]. by apply Hc.
Qed.

Lemma pawn_moves_shapes b start : Forall P (pawn_moves b side (side_piece side PAWN) start).
Proof.
  unfold pawn_moves. cbv zeta. repeat (apply Forall_app; split); try apply pawn_capture_shapes.
  - destruct (_ && _ && _ && _); repeat constructor. apply Hd.
  - destruct (_ && _ && _ && _); repeat constructor. apply Hd.
  - destruct (_ && _); [|constructor]. destruct (last_rank _); [|repeat constructor; apply Hq].
    apply promotions_shapes. intros pp Hpp. by apply Hp.
  - destruct (negb _); [|constructor].
    apply Forall_app; split; destruct (_ && _); repeat constructor; apply He.
Qed.

Lemma castle_moves_shapes b : Forall P (castle_moves b side).
Proof.
  unfold castle_moves. destruct side; cbv zeta; apply Forall_app; split; case_match;
    repeat constructor; apply Hk; auto.
Qed.

Lemma generate_shapes b : Forall P (generate b side).
Proof.
  unfold generate, slider_moves, for_pieces. cbv zeta.
  do 3 (apply Forall_app; split;
    [apply Forall_flat_map; intros s _; apply Forall_flat_map; intros off _; apply ray_moves_shapes|]).
  apply Forall_app; split;
    [apply Forall_flat_map; intros s _; apply Forall_flat_map; intros off _; apply knight_step_shapes|].
  apply Forall_app; split; [apply Forall_flat_map; intros s _; apply pawn_moves_shapes|].
  apply Forall_app; split;
    [apply Forall_flat_map; intros off _; apply king_step_shapes|apply castle_moves_shapes].
Qed.

End Shapes.

(** A promotion piece is a piece of the other colour, and not a king. *)
Lemma promote_pieces_side side pp :
  pp ∈ promote_pieces side -> get_side pp = negb side /\ is_king pp = false.
Proof.
  intros Hpp. apply list_elem_of_In in Hpp.
  destruct side; cbn in Hpp; intuition subst; split; reflexivity.
Qed.

Lemma capture_kk s t p c : is_king c = false -> keeps_kings (capture_move s t p c) = true.
Proof. intros Hc. unfold keeps_kings. cbn -[is_king]. by rewrite Hc. Qed.

(** No generated move captures, creates or promotes a king. *)
Lemma generate_kk b side : Forall (fun m => keeps_kings m = true) (generate b side).
Proof.
  apply generate_shapes; try reflexivity.
  - intros s t p c. apply capture_kk.
  - intros s t. by destruct side.
  - intros s t p f [-> | ->]; reflexivity.
  - intros s t pp [_ Hpp]%promote_pieces_side. unfold keeps_kings. cbn -[is_king]. rewrite Hpp.
    by destruct side.
  - intros s t pp c [_ Hpp]%promote_pieces_side Hcap. unfold keeps_kings. cbn -[is_king].
    rewrite Hpp, Hcap. by destruct side.
Qed.

(** Every generated promotion moves the side's pawn and promotes it to
    a piece of [promote_pieces side]. *)
Lemma generate_promotions b side :
  Forall (fun m => move_promoted m = true ->
    promoted_piece m ∈ promote_pieces side /\ moved_piece m = side_piece side PAWN) (generate b side).
Proof. apply generate_shapes; intros; destruct_or?; subst; cbn in *; first [done|congruence]. Qed.

(** ** [pseudo_moves] *)

Lemma with_cache_self b : b = with_cache (m_move_cache b) b.
Proof. by destruct b. Qed.

(** Without a cache entry for the position, [pseudo_moves] returns
    moves that all satisfy [move_ok], and changes only the cache. *)
Lemma pseudo_moves_sound b ms b0 :
  board_wf b -> castle_ok b -> ep_ok b ->
  (forall p, valid_piece p = true -> (pcount b p < MAX_PIECE_FREQ)%nat) ->
  (1 <= pcount b (side_piece (m_next_move_colour b) KING))%nat ->
  m_move_cache b !! m_hash b = None -> pseudo_moves None b = Some (ms, b0) ->
  Forall (move_ok b) ms /\ exists c, b0 = with_cache c b.
Proof.
  intros Hw Hc He Hr Hk Hmiss. unfold pseudo_moves. rewrite Hmiss.
  destruct (_ || _); [intros [= <- <-]; split; [constructor|eexists; apply with_cache_self]|].
  case_match; [done|]. intros [= <- <-]. split; [|by eexists]. by apply generate_ok.
Qed.

(** Without a cache entry, what holds of every move [generate] lists
    for the side to move holds of every move [pseudo_moves] returns. *)
Lemma pseudo_moves_forall (P : move_t -> Prop) b ms b0 :
  m_move_cache b !! m_hash b = None -> pseudo_moves None b = Some (ms, b0) ->
  Forall P (generate b (m_next_move_colour b)) -> Forall P ms.
Proof.
  intros Hmiss. unfold pseudo_moves. rewrite Hmiss.
  destruct (_ || _); [intros [= <- _]; constructor|].
  case_match; [done|]. by intros [= <- _].
Qed.

(** A promotion puts its promotion piece on the target square. *)
Lemma promote_cells b m side :
  move_ok b m -> move_promoted m = true ->
  make_cells m side (piece_at b) (move_to m) = promoted_piece m.
Proof.
  destruct m as [from to moved cap prom flag]. unfold move_ok, make_cells, move_promoted; cbn.
  intros Hok Hp. unfold set_cell.
  destruct flag; try discriminate; destruct_and?.
  all: assert (to <> from) by (intros ->; first [done|match goal with
    H : piece_at ?bb ?f = INVALID_PIECE, H' : valid_piece (piece_at ?bb ?f) = true |- _ =>
      rewrite H in H'; discriminate end]).
  all: by rewrite decide_False, decide_True.
Qed.

Section Reversible.
Context `{ZobristOk}.

(** C1: every move that [pseudo_moves] generates for a consistent
    position (well formed, correctly hashed, castle rights and
    en-passant target backed by the pieces they name, room for one
    more piece of every kind, a king of the side to move, no cache
    entry for the position) can be made and then unmade, and unmaking
    restores the board up to the order of its piece lists. *)
Theorem pseudo_moves_reversible b ms b0 m :
  board_wf b -> hash_ok b -> castle_ok b -> ep_ok b ->
  (forall p, valid_piece p = true -> (pcount b p < MAX_PIECE_FREQ)%nat) ->
  (1 <= pcount b (side_piece (m_next_move_colour b) KING))%nat -> 0 <= m_half_move b ->
  m_move_cache b !! m_hash b = None -> pseudo_moves None b = Some (ms, b0) -> m ∈ ms ->
  exists v b1 b2, make_move m b0 = Some (v, b1) /\ unmake_move b1 = Some b2 /\ b2 ≃b b0.
Proof.
  intros Hw Hh Hc He Hr Hk Hhalf Hmiss Hp Hm.
  destruct (pseudo_moves_sound b ms b0 Hw Hc He Hr Hk Hmiss Hp) as [Hok [c ->]].
  assert (Hw0 : board_wf (with_cache c b)) by (apply (board_wf_arrays b); try done; apply Hw).
  assert (Hok0 : move_ok (with_cache c b) m) by (exact (proj1 (Forall_forall _ _) Hok m Hm)).
  destruct (make_move_spec (with_cache c b) m Hw0 Hh Hok0) as (b1 & E & _).
  destruct (make_unmake_restores (with_cache c b) m _ b1 Hw0 Hh Hok0 Hhalf E) as (b2 & E2 & Heq).
  eexists _, b1, b2. split_and!; [exact E|exact E2|exact Heq].
Qed.



(** The loop of [legal_moves] over a scratch board equivalent to [b0]
    keeps, in order, the moves whose verdict on [b0] is [true]: each
    [make_move]/[unmake_move] round leaves a board equivalent to [b0]
    and equivalent boards give the same verdicts. *)
Lemma legal_loop_spec b0 ms tmp acc :
  board_wf b0 -> hash_ok b0 -> 0 <= m_half_move b0 ->
  pcount b0 WHITE_KING = 1%nat -> pcount b0 BLACK_KING = 1%nat ->
  Forall (fun m => move_ok b0 m /\ keeps_kings m = true) ms -> tmp ≃b b0 ->
  legal_loop ms tmp acc = Some (acc ++ List.filter (move_verdict b0) ms).
Proof.
  intros Hw Hh Hhalf Hwk Hbk Hms. revert tmp acc.
  induction Hms as [|m ms [Hok Hkk] Hms IH]; intros tmp acc Heq; cbn [legal_loop List.filter].
  { by rewrite app_nil_r. }
  destruct (make_move_equiv b0 tmp m Hw Hh Hok Hkk (symmetry Heq) Hwk Hbk) as (v & r1 & r2 & E1 & E2).
  rewrite E2.
  assert (Hwt : board_wf tmp) by (by rewrite Heq).
  assert (Hht : hash_ok tmp) by (by rewrite Heq).
  pose proof (move_ok_equiv b0 tmp m (symmetry Heq) Hok) as Hokt.
  assert (Hhalft : 0 <= m_half_move tmp)
    by (destruct Heq as (_ & _ & _ & _ & (_ & _ & _ & _ & Hhf & _) & _); lia).
  destruct (make_unmake_restores tmp m v r2 Hwt Hht Hokt Hhalft E2) as (t2 & U & Ht2).
  rewrite U, IH by (by rewrite Ht2). unfold move_verdict. rewrite E1.
  destruct v; [by rewrite <-app_assoc|done].
Qed.

(** C3: on a consistent position with one king of each colour,
    [legal_moves] returns the moves of [pseudo_moves], in the order they
    were generated, whose [make_move] verdict is [true]; and that
    verdict is [true] exactly when, after the move, the mover's king is
    not attacked. *)
Theorem legal_moves_filter b ms b0 :
  board_wf b -> hash_ok b -> castle_ok b -> ep_ok b ->
  (forall p, valid_piece p = true -> (pcount b p < MAX_PIECE_FREQ)%nat) ->
  pcount b WHITE_KING = 1%nat -> pcount b BLACK_KING = 1%nat -> 0 <= m_half_move b ->
  m_move_cache b !! m_hash b = None -> pseudo_moves None b = Some (ms, b0) ->
  legal_moves b = Some (List.filter (move_verdict b0) ms) /\
  forall m, m ∈ ms -> exists b', make_move m b0 = Some (move_verdict b0 m, b') /\
    (move_verdict b0 m = true <->
     square_attacked b' (king_square b' (side_piece (m_next_move_colour b) KING))
       (negb (m_next_move_colour b)) = false).
Proof.
  intros Hw Hh Hc He Hr Hwk Hbk Hhalf Hmiss Hp.
  assert (Hk : (1 <= pcount b (side_piece (m_next_move_colour b) KING))%nat)
    by (destruct (m_next_move_colour b);
          [change (side_piece true KING) with 14|change (side_piece false KING) with 6]; lia).
  pose proof (pseudo_moves_forall _ b ms b0 Hmiss Hp (generate_kk _ _)) as Hkk.
  destruct (pseudo_moves_sound b ms b0 Hw Hc He Hr Hk Hmiss Hp) as [Hok [c ->]].
  assert (Hw0 : board_wf (with_cache c b)) by (apply (board_wf_arrays b); try done; apply Hw).
  split.
  - unfold legal_moves. rewrite Hp, (legal_loop_spec (with_cache c b)); try done.
    apply Forall_and; by split.
  - intros m Hm. pose proof (proj1 (Forall_forall _ _) Hok m Hm) as Hokm.
    destruct (make_move_spec (with_cache c b) m Hw0 Hh Hokm) as (b' & E & _).
    exists b'. unfold move_verdict. rewrite E. split; [done|]. apply negb_true_iff.
Qed.

(** C13: every promotion [pseudo_moves] generates on a consistent
    position moves a pawn of the side to move and promotes it to a
    piece of the other side: the promotion pieces are built as
    [queen_piece ^ 8u] and so on (lines 388-391), which flips the
    colour bit, and [make_move] puts that piece on the target square. *)
Theorem promotion_to_opponent b ms b0 m :
  board_wf b -> hash_ok b -> castle_ok b -> ep_ok b ->
  (forall p, valid_piece p = true -> (pcount b p < MAX_PIECE_FREQ)%nat) ->
  (1 <= pcount b (side_piece (m_next_move_colour b) KING))%nat ->
  m_move_cache b !! m_hash b = None -> pseudo_moves None b = Some (ms, b0) ->
  m ∈ ms -> move_promoted m = true ->
  get_side (moved_piece m) = m_next_move_colour b /\
  get_side (promoted_piece m) = negb (m_next_move_colour b) /\
  exists v b', make_move m b0 = Some (v, b') /\ piece_at b' (move_to m) = promoted_piece m.
Proof.
  intros Hw Hh Hc He Hr Hk Hmiss Hp Hm Hprom.
  pose proof (pseudo_moves_forall _ b ms b0 Hmiss Hp (generate_promotions _ _)) as Hpr.
  destruct (proj1 (Forall_forall _ _) Hpr m Hm Hprom) as [Hpp Hmoved].
  destruct (promote_pieces_side _ _ Hpp) as [Hside _].
  destruct (pseudo_moves_sound b ms b0 Hw Hc He Hr Hk Hmiss Hp) as [Hok [c ->]].
  assert (Hw0 : board_wf (with_cache c b)) by (apply (board_wf_arrays b); try done; apply Hw).
  pose proof (proj1 (Forall_forall _ _) Hok m Hm) as Hokm.
  destruct (make_move_spec (with_cache c b) m Hw0 Hh Hokm) as (b' & E & _ & _ & Hcells & _).
  split_and!; [rewrite Hmoved; by destruct (m_next_move_colour b)|done|].
  eexists _, b'. split; [exact E|]. rewrite Hcells. by apply promote_cells.
Qed.

End Reversible.

Section Castle.
Context `{Zobrist}.




End Castle.

(** The room hypothesis, checked over the sixteen piece codes. *)
Lemma room_check b :
  forallb (fun p => negb (valid_piece p) || (pcount b p <? MAX_PIECE_FREQ)%nat) (seqZ 0 16) = true ->
  forall p, valid_piece p = true -> (pcount b p < MAX_PIECE_FREQ)%nat.
Proof.
  intros Hc p Hv. pose proof (valid_piece_range p Hv).
  apply forallb_seqZ with (x := p) in Hc; [|lia]. rewrite Hv in Hc. by apply Nat.ltb_lt.
Qed.

(** ** Perft

    The leaf count of the legal-move tree (specification, section 8,
    property 6), as a test harness computes it from [legal_moves] and
    [make_move]. *)
Section Perft.
Context `{Zobrist}.

Fixpoint perft (depth : nat) (b : Board) : option nat :=
  match depth with
  | O => Some 1%nat
  | S d =>
      ms ← legal_moves b;
      foldr (fun m acc =>
        n ← acc;
        r ← make_move m b;
        k ← perft d r.2;
        Some (n + k)%nat) (Some 0%nat) ms
  end.

End Perft.
