(* ===== verification/Validate.v ===== *)
(** * Validate: [Board::validate_board]

    [validate_board] (board.cpp lines 136-188) is a debug-build check
    run after the FEN constructor: it counts the pieces on the 120
    cells, checks each piece list against the cells, bounds the castle
    mask and the en-passant square, and checks that the side that just
    moved is not in check.  It is modelled as the conjunction of its
    [ASSERT]s, one boolean per assertion, in the code's order.

    [validate_board_wf] shows that a board of the right array sizes
    whose border cells are empty and that passes the check satisfies
    the invariant [board_wf] of [Board].  The border condition is needed:
    [validate_board] never looks at where a piece stands, so it accepts
    a piece on a border cell ([Scenarios.validate_accepts_border_piece]). *)

From S2P Require Import Prelude Encoding Move Zobrist Board Attack.

(** ** The check *)

(** [piece_count[m_pieces[sq]]++] over the 120 cells. *)
Definition count_step (b : Board) (cnt : list nat) (sq : Z) : list nat :=
  let p := Z.to_nat (piece_at b sq) in <[p := S (cnt !!! p)]> cnt.

Definition piece_count (b : Board) : list nat :=
  foldl (count_step b) (replicate 16 0%nat) (seqZ 0 120).

(** The assertions of the loop over one piece list, lines 150-167. *)
Definition validate_list (b : Board) (cnt : list nat) (piece : Z) : bool :=
  let end_ := pcount b piece in
  let pos := plist b piece in
  (valid_piece piece || (end_ =? 0)%nat) &&
  (negb (valid_piece piece) || (end_ =? cnt !!! Z.to_nat piece)%nat) &&
  (end_ <=? MAX_PIECE_FREQ)%nat &&
  forallb (fun num =>
    (piece_at b (pos !!! num) =? piece) &&
    forallb (fun compare_idx => negb (pos !!! num =? pos !!! compare_idx))
      (seq (S num) (end_ - S num)))
    (seq 0 end_).

Definition validate_board (b : Board) : bool :=
  let cnt := piece_count b in
  forallb (fun sq => valid_piece (piece_at b sq) || (piece_at b sq =? INVALID_PIECE)) (seqZ 0 120) &&
  (pcount b WHITE_KING =? 1)%nat && (pcount b BLACK_KING =? 1)%nat &&
  forallb (validate_list b cnt) (seqZ 0 16) &&
  (0 <=? m_castle_state b) && (m_castle_state b <? 16) &&
  (valid_square (m_en_passant b) || (m_en_passant b =? INVALID_SQUARE)) &&
  (negb ((Bool.eqb (m_next_move_colour b) BLACK) && negb (m_en_passant b =? INVALID_SQUARE))
     || (get_square_row (m_en_passant b) =? RANK_3)) &&
  (negb ((Bool.eqb (m_next_move_colour b) WHITE) && negb (m_en_passant b =? INVALID_SQUARE))
     || (get_square_row (m_en_passant b) =? RANK_6)) &&
  let king_piece := if m_next_move_colour b then WHITE_KING else BLACK_KING in
  negb (square_attacked b (king_square b king_piece) (m_next_move_colour b)).

(** The fixed array sizes of [class Board], and empty border cells. *)
Definition board_shape (b : Board) : bool :=
  (length (m_pieces b) =? 120)%nat && (length (m_positions b) =? 16)%nat &&
  (length (m_num_pieces b) =? 16)%nat &&
  forallb (fun p => (length (plist b p) =? MAX_PIECE_FREQ)%nat) (seqZ 0 16).

Definition border_empty (b : Board) : bool :=
  forallb (fun sq => valid_square sq || (piece_at b sq =? INVALID_PIECE)) (seqZ 0 120).

(** ** What the check establishes *)

Lemma piece_at_out b sq :
  length (m_pieces b) = 120%nat -> ~ (0 <= sq < 120) -> piece_at b sq = INVALID_PIECE.
Proof.
  intros Hlen Hout. destruct (decide (piece_at b sq = INVALID_PIECE)) as [|Hne]; [done|].
  exfalso. apply Hout. by apply (piece_at_in_board b).
Qed.

(** The counting loop counts. *)
Lemma piece_count_spec b p :
  (forall sq, 0 <= piece_at b sq < 16) -> 0 <= p < 16 ->
  piece_count b !!! Z.to_nat p = length (filter (fun s => piece_at b s = p) (seqZ 0 120)).
Proof.
  intros Hr Hp. unfold piece_count.
  change (count_step b) with (fun (c : list nat) (s : Z) =>
    <[Z.to_nat (piece_at b s) := S (c !!! Z.to_nat (piece_at b s))]> c).
  rewrite foldl_count; rewrite ?length_replicate; [|apply Forall_forall; intros s _; specialize (Hr s); lia|lia].
  rewrite lookup_total_replicate_2 by lia. cbn [Nat.add]. f_equal.
  apply list_filter_iff. intros s. specialize (Hr s). lia.
Qed.

Lemma validate_list_spec b cnt p :
  validate_list b cnt p = true ->
  (valid_piece p = false -> pcount b p = 0%nat) /\
  (valid_piece p = true -> pcount b p = cnt !!! Z.to_nat p) /\
  (pcount b p <= MAX_PIECE_FREQ)%nat /\
  (forall i, (i < pcount b p)%nat -> piece_at b (plist b p !!! i) = p) /\
  (forall i j, (i < j < pcount b p)%nat -> plist b p !!! i <> plist b p !!! j).
Proof.
  unfold validate_list. rewrite !andb_true_iff, forallb_seq. intros (((H1 & H2) & H3) & H4).
  split_and!.
  - intros Hv. rewrite Hv in H1. by apply Nat.eqb_eq.
  - intros Hv. rewrite Hv in H2. by apply Nat.eqb_eq.
  - by apply Nat.leb_le.
  - intros i Hi. specialize (H4 i ltac:(lia)). apply andb_true_iff in H4 as [H4 _].
    by apply Z.eqb_eq.
  - intros i j Hij. specialize (H4 i ltac:(lia)). apply andb_true_iff in H4 as [_ H4].
    rewrite forallb_seq in H4. specialize (H4 j ltac:(lia)).
    by apply negb_true_iff, Z.eqb_neq in H4.
Qed.

Lemma validate_board_spec b :
  validate_board b = true ->
  (forall sq, 0 <= sq < 120 -> valid_piece (piece_at b sq) = true \/ piece_at b sq = INVALID_PIECE) /\
  (forall p, 0 <= p < 16 -> validate_list b (piece_count b) p = true) /\
  0 <= m_castle_state b < 16.
Proof.
  unfold validate_board. cbv zeta. rewrite !andb_true_iff, !forallb_seqZ.
  intros (((((((((HA & _) & _) & HD) & HE) & HF) & _) & _) & _) & _).
  split_and!; [|intros p Hp; apply HD; lia|lia..].
  intros sq Hsq. specialize (HA sq ltac:(lia)). apply orb_true_iff in HA as [|HA]; [by left|].
  right. by apply Z.eqb_eq.
Qed.

(** The piece list of [p] holds exactly the squares carrying [p]: its
    entries carry [p], and it is as long as their number. *)
Lemma validate_index b p sq :
  length (m_pieces b) = 120%nat -> length (plist b p) = MAX_PIECE_FREQ -> 0 <= p < 16 ->
  (forall s, 0 <= piece_at b s < 16) -> validate_list b (piece_count b) p = true ->
  sq ∈ plive b p <-> piece_at b sq = p /\ valid_piece p = true.
Proof.
  intros Hlen Hpl Hp Hr Hvl.
  destruct (validate_list_spec b _ p Hvl) as (Hinv & Hcnt & Hle & Hat & Hpw).
  assert (Hlive : forall x, x ∈ plive b p <-> exists i, (i < pcount b p)%nat /\ plist b p !!! i = x).
  { intros x. unfold plive. apply elem_of_take_total. lia. }
  destruct (valid_piece p) eqn:Hvp.
  2: { rewrite Hlive. split; [intros (i & Hi & _); rewrite Hinv in Hi by done; lia|by intros [_ ?]]. }
  set (S := filter (fun s => piece_at b s = p) (seqZ 0 120)).
  assert (HS : forall x, x ∈ S <-> piece_at b x = p).
  { intros x. unfold S. rewrite list_elem_of_filter, elem_of_seqZ. split; [naive_solver|].
    intros Hx. split; [done|]. pose proof (valid_piece_not_invalid p Hvp).
    enough (0 <= x < 120) by lia. apply (piece_at_in_board b); [congruence|done]. }
  assert (Hsub : forall x, x ∈ plive b p -> x ∈ S).
  { intros x Hx. apply HS. apply Hlive in Hx as (i & Hi & <-). by apply Hat. }
  assert (HlenS : length S = length (plive b p)).
  { unfold plive. rewrite length_take, Hcnt, piece_count_spec by done.
    pose proof Hle as Hle'. rewrite Hcnt, piece_count_spec in Hle' by done. unfold S. lia. }
  split; [intros Hx; split; [by apply HS, Hsub|done]|].
  intros [Hx _]. apply HS in Hx. apply list_elem_of_In. apply list_elem_of_In in Hx.
  revert Hx. apply NoDup_length_incl; [unfold plive; apply NoDup_ListNoDup, NoDup_take_pairwise; intros; by apply Hpw|lia|].
  intros x Hx. apply list_elem_of_In, Hsub, list_elem_of_In, Hx.
Qed.

Lemma board_shape_spec b :
  board_shape b = true ->
  length (m_pieces b) = 120%nat /\ length (m_positions b) = 16%nat /\
  length (m_num_pieces b) = 16%nat /\
  (forall p, 0 <= p < 16 -> length (plist b p) = MAX_PIECE_FREQ).
Proof.
  unfold board_shape. rewrite !andb_true_iff, forallb_seqZ, !Nat.eqb_eq.
  intros (((H1 & H2) & H3) & H4). split_and!; try done.
  intros p Hp. apply Nat.eqb_eq, H4. lia.
Qed.

(** A board of the right shape, empty on its border cells, that passes
    [validate_board] satisfies the piece-list invariant. *)
Theorem validate_board_wf b :
  board_shape b = true -> border_empty b = true -> validate_board b = true -> board_wf b.
Proof.
  intros Hs He Hv. apply board_shape_spec in Hs as (Hl1 & Hl2 & Hl3 & Hl4).
  unfold border_empty in He. rewrite forallb_seqZ in He.
  destruct (validate_board_spec b Hv) as (Hcells & Hlists & Hc).
  assert (Hr : forall sq, 0 <= piece_at b sq < 16).
  { intros sq. destruct (decide (0 <= sq < 120)) as [Hin|Hout]; [|rewrite piece_at_out; done || lia].
    destruct (Hcells sq Hin) as [Hvp| ->]; [by apply valid_piece_range|lia]. }
  constructor; try done.
  - intros sq. destruct (decide (0 <= sq < 120)) as [Hin|Hout]; [|left; by apply piece_at_out].
    specialize (He sq ltac:(lia)). destruct (Hcells sq Hin) as [Hvp|Hinv]; [|by left].
    apply orb_true_iff in He as [Hvs|Hinv]; [by right|left; by apply Z.eqb_eq].
  - intros p Hp. apply (validate_list_spec b _ p (Hlists p Hp)).
  - intros p Hp. destruct (validate_list_spec b _ p (Hlists p Hp)) as (_ & _ & _ & _ & Hpw).
    apply NoDup_take_pairwise. intros. by apply Hpw.
  - intros p sq Hp. apply validate_index; auto.
Qed.

Lemma board_shape_intro b :
  length (m_pieces b) = 120%nat -> length (m_positions b) = 16%nat ->
  length (m_num_pieces b) = 16%nat ->
  (forall p, 0 <= p < 16 -> length (plist b p) = MAX_PIECE_FREQ) -> board_shape b = true.
Proof.
  intros H1 H2 H3 H4. unfold board_shape. rewrite H1, H2, H3. cbn.
  apply forallb_seqZ. intros p Hp. apply Nat.eqb_eq, H4. lia.
Qed.

Lemma border_empty_intro b :
  (forall sq, valid_square sq = false -> piece_at b sq = INVALID_PIECE) -> border_empty b = true.
Proof.
  intros Hb. apply forallb_seqZ. intros sq _. destruct (valid_square sq) eqn:Hv; [done|].
  by rewrite Hb.
Qed.
