(* ===== verification/Fen.v ===== *)
(** * Fen: the constructor [Board::Board(const std::string &fen)]

    The constructor (board.cpp lines 13-134) reads the six fields of a
    FEN string through a [const char*] cursor.  The cursor is modelled
    as the suffix of the string it points to: dereferencing the end
    reads the terminating NUL, and moving past it is undefined
    behaviour ([None]).  Each [while] loop over characters is a
    structural recursion on that suffix, so every loop terminates by
    construction.  [square_idx] and the clocks are [unsigned] and are
    kept modulo 2^32 ([u32]); [full_move] is a [size_t] ([u64]).

    An assertion failure and an out-of-range array write are both
    [None].  [board_of_fen] is the release-build constructor;
    [board_of_fen_debug] adds the [validate_board] call of debug
    builds.  [board_of_fen_debug_ok] shows that its boards satisfy the
    invariant and the hash; [fen_en_passant_beside_target] pins the
    test that elides en-passant targets. *)

From Stdlib Require Import Ascii String.
From S2P Require Import Prelude Encoding Move Zobrist Board Attack Validate.

Definition u32 (x : Z) : Z := x mod 2 ^ 32.
Definition u64 (x : Z) : Z := x mod 2 ^ 64.

(** [*next_chr]: the end of the string reads as NUL. *)
Definition deref (cs : list ascii) : ascii :=
  match cs with [] => "000"%char | c :: _ => c end.

(** [next_chr++]; moving past the NUL is undefined. *)
Definition next (cs : list ascii) : option (list ascii) :=
  match cs with [] => None | _ :: r => Some r end.

Definition code (c : ascii) : Z := Z.of_nat (nat_of_ascii c).

(** [piece_from_char] of [piece.hpp] (not in the repository). *)
Definition piece_from_char (c : ascii) : Z :=
  match c with
  | "P"%char => WHITE_PAWN | "N"%char => WHITE_KNIGHT | "B"%char => WHITE_BISHOP
  | "R"%char => WHITE_ROOK | "Q"%char => WHITE_QUEEN | "K"%char => WHITE_KING
  | "p"%char => BLACK_PAWN | "n"%char => BLACK_KNIGHT | "b"%char => BLACK_BISHOP
  | "r"%char => BLACK_ROOK | "q"%char => BLACK_QUEEN | "k"%char => BLACK_KING
  | _ => INVALID_PIECE
  end.

(** The board before parsing: the three [fill] calls of lines 14-18;
    the other members are assigned before they are read. *)
Definition empty_board : Board :=
  mk_board (replicate 120 INVALID_PIECE) (replicate 16 (replicate MAX_PIECE_FREQ INVALID_SQUARE))
    (replicate 16 0%nat) WHITE 0 INVALID_SQUARE 0 0 0 [] ∅.

(** [m_pieces[sq] = v] on the 120-cell array. *)
Definition store_piece (sq v : Z) (b : Board) : option Board :=
  if (0 <=? sq) && (sq <? 120) then Some (write_piece sq v b) else None.

(** [for (i = 0; i < n; ++i) m_pieces[square_idx + i] = INVALID_PIECE;] *)
Fixpoint fill_empty (sq : Z) (n : nat) (b : Board) : option Board :=
  match n with
  | O => Some b
  | S k => b' ← fill_empty sq k b; store_piece (u32 (sq + Z.of_nat k)) INVALID_PIECE b'
  end.

(** One piece letter, lines 38-48. *)
Definition place_piece (sq : Z) (c : ascii) (b : Board) : option Board :=
  let piece_idx := piece_from_char c in
  if negb (valid_square sq) then None else
  if negb (valid_piece piece_idx) then None else
  let b1 := write_piece sq piece_idx b in
  let n := pcount b1 piece_idx in
  if negb (n <? MAX_PIECE_FREQ)%nat then None else
  let b2 := write_plist piece_idx (<[n := sq]> (plist b1 piece_idx)) b1 in
  Some (write_pcount piece_idx (S n) b2).

Definition rank_ok (sq : Z) : bool := (sq mod 10 =? 9) || valid_square sq.

(** Part 1, the loop of lines 24-50.  It stops at the space, which it
    leaves under the cursor. *)
Fixpoint parse_placement (cs : list ascii) (sq : Z) (b : Board) : option (list ascii * Z * Board) :=
  match cs with
  | [] => None
  | c :: rest =>
      if Ascii.eqb c " " then Some (cs, sq, b)
      else if Ascii.eqb c "/" then
        if negb (sq mod 10 =? 9) then None else parse_placement rest (u32 (sq - 18)) b
      else if (code "1" <=? code c) && (code c <=? code "8") then
        let num_spaces := code c - code "0" in
        b' ← fill_empty sq (Z.to_nat num_spaces) b;
        let sq' := u32 (sq + num_spaces) in
        if negb (rank_ok sq') then None else parse_placement rest sq' b'
      else
        b' ← place_piece sq c b;
        let sq' := u32 (sq + 1) in
        if negb (rank_ok sq') then None else parse_placement rest sq' b'
  end.

(** Part 3, the castling letters, lines 64-82. *)
Fixpoint parse_castle (cs : list ascii) (st : Z) : option (list ascii * Z) :=
  match cs with
  | [] => None
  | c :: rest =>
      if Ascii.eqb c " " then Some (cs, st) else
      match c with
      | "K"%char => parse_castle rest (Z.lor st WHITE_SHORT)
      | "Q"%char => parse_castle rest (Z.lor st WHITE_LONG)
      | "k"%char => parse_castle rest (Z.lor st BLACK_SHORT)
      | "q"%char => parse_castle rest (Z.lor st BLACK_LONG)
      | _ => None
      end
  end.

(** Parts 5 and 6: decimal counters.  The half-move clock stops at a
    space; the full-move counter runs to the end of the string. *)
Definition is_digit (c : ascii) : bool := (code "0" <=? code c) && (code c <=? code "9").

Fixpoint parse_clock (cs : list ascii) (n : Z) : option (list ascii * Z) :=
  match cs with
  | [] => None
  | c :: rest =>
      if Ascii.eqb c " " then Some (cs, n)
      else if negb (is_digit c) then None
      else parse_clock rest (u32 (10 * n + (code c - code "0")))
  end.

Fixpoint parse_full_move (cs : list ascii) (n : Z) : option Z :=
  match cs with
  | [] => Some n
  | c :: rest =>
      if negb (is_digit c) then None
      else parse_full_move rest (u64 (10 * n + (code c - code "0")))
  end.

(** [m_pieces[sq]] read by the en-passant elision. *)
Definition read_piece (b : Board) (sq : Z) : option Z :=
  if (0 <=? sq) && (sq <? 120) then Some (piece_at b sq) else None.

(** Part 4, lines 87-107: the cursor is on the field's first character. *)
Definition parse_en_passant (cs : list ascii) (b : Board) : option (list ascii * Z) :=
  if Ascii.eqb (deref cs) "-" then r ← next cs; Some (r, INVALID_SQUARE) else
  let row := u32 (code (deref (drop 1 cs)) - code "1") in
  let col := u32 (code (deref cs) - code "a") in
  if negb (m_next_move_colour b) && negb (row =? RANK_6) then None else
  if m_next_move_colour b && negb (row =? RANK_3) then None else
  let ep := get_square_120_rc row col in
  let my_pawn := if negb (m_next_move_colour b) then WHITE_PAWN else BLACK_PAWN in
  left ← read_piece b (ep - 1);
  right ← read_piece b (ep + 1);
  let ep' := if negb (left =? my_pawn) && negb (right =? my_pawn) then INVALID_SQUARE else ep in
  r ← next cs; r ← next r; Some (r, ep').

Definition expect_space (cs : list ascii) : option unit :=
  if Ascii.eqb (deref cs) " " then Some () else None.

(** The constructor, release build. *)
Definition parse_fen `{Zobrist} (s : list ascii) : option Board :=
  '(cs, sq, b) ← parse_placement s A8 empty_board;
  if negb (sq =? 29) then None else
  cs ← next cs;
  let side := deref cs in
  if negb (Ascii.eqb side "w" || Ascii.eqb side "b") then None else
  let b := with_colour (if Ascii.eqb side "w" then WHITE else BLACK) b in
  cs ← next cs; cs ← next cs;
  '(cs, castle) ← (if Ascii.eqb (deref cs) "-" then cs ← next cs; Some (cs, 0)
                    else parse_castle cs 0);
  let b := with_castle castle b in
  expect_space cs;;
  cs ← next cs;
  '(cs, ep) ← parse_en_passant cs b;
  let b := with_en_passant ep b in
  expect_space cs;;
  cs ← next cs;
  '(cs, fifty) ← parse_clock cs 0;
  let b := with_fifty fifty b in
  cs ← next cs;
  full_move ← parse_full_move cs 0;
  let b := with_half (2 * full_move + Z.b2z (m_next_move_colour b)) b in
  Some (with_hash (compute_hash b) b).

Definition board_of_fen `{Zobrist} (s : string) : option Board := parse_fen (list_ascii_of_string s).

(** Debug builds end the constructor with [validate_board()]. *)
Definition board_of_fen_debug `{Zobrist} (s : string) : option Board :=
  b ← board_of_fen s; if validate_board b then Some b else None.

Definition start_fen : string := "rnbqkbnr/pppppppp/8/8/8/8/PPPPPPPP/RNBQKBNR w KQkq - 0 1".

(** ** What the constructor builds *)

(** The array sizes stay those of [class Board] and no piece is put on a
    border cell. *)
Definition fen_inv (b : Board) : Prop :=
  length (m_pieces b) = 120%nat /\ length (m_positions b) = 16%nat /\
  length (m_num_pieces b) = 16%nat /\
  (forall p, 0 <= p < 16 -> length (plist b p) = MAX_PIECE_FREQ) /\
  (forall sq, valid_square sq = false -> piece_at b sq = INVALID_PIECE).

Lemma fen_inv_empty : fen_inv empty_board.
Proof.
  split_and!; try done.
  - intros p Hp. unfold plist. cbn [m_positions empty_board].
    rewrite lookup_replicate_2 by lia. done.
  - intros sq _. unfold piece_at. cbn [m_pieces empty_board].
    case_match; [|done]. destruct (decide (Z.to_nat sq < 120)%nat).
    + by rewrite lookup_replicate_2.
    + rewrite lookup_ge_None_2; [done|rewrite length_replicate; lia].
Qed.

Lemma fen_inv_arrays b b' :
  m_pieces b' = m_pieces b -> m_positions b' = m_positions b -> m_num_pieces b' = m_num_pieces b ->
  fen_inv b -> fen_inv b'.
Proof.
  intros H1 H2 H3 (L1 & L2 & L3 & L4 & Hb). split_and!; try congruence.
  - intros p Hp. unfold plist. rewrite H2. by apply L4.
  - intros sq Hsq. unfold piece_at. rewrite H1. by apply Hb.
Qed.

Lemma store_piece_inv sq b b' :
  store_piece sq INVALID_PIECE b = Some b' -> fen_inv b -> fen_inv b'.
Proof.
  unfold store_piece. intros Hs (L1 & L2 & L3 & L4 & Hb).
  destruct (_ && _) eqn:Hr; [|done]. injection Hs as <-. apply andb_true_iff in Hr as [Hr1 Hr2].
  apply Z.leb_le in Hr1. apply Z.ltb_lt in Hr2.
  split_and!; try done.
  - unfold write_piece. cbn [m_pieces with_pieces]. by rewrite length_insert.
  - intros sq' Hsq'. rewrite piece_at_write by lia. case_decide; [done|by apply Hb].
Qed.

Lemma fill_empty_inv sq n b b' : fill_empty sq n b = Some b' -> fen_inv b -> fen_inv b'.
Proof.
  revert b'. induction n as [|n IH]; intros b' Hf Hi; cbn [fill_empty] in Hf.
  - by injection Hf as <-.
  - apply bind_Some in Hf as (b1 & H1 & H2). eapply store_piece_inv; [exact H2|]. by apply (IH b1).
Qed.

Lemma place_piece_inv sq c b b' : place_piece sq c b = Some b' -> fen_inv b -> fen_inv b'.
Proof.
  unfold place_piece. intros Hp (L1 & L2 & L3 & L4 & Hb).
  destruct (valid_square sq) eqn:Hsq; [|done]. destruct (valid_piece _) eqn:Hv; [|done].
  cbn [negb] in Hp. case_match; [done|]. injection Hp as <-.
  pose proof (valid_square_range sq Hsq). pose proof (valid_piece_range _ Hv).
  set (p := piece_from_char c) in *. set (w := write_piece sq p b). unfold fen_inv.
  split_and!.
  - unfold write_pcount, write_plist, w, write_piece; cbn. by rewrite length_insert.
  - unfold write_pcount, write_plist; cbn. by rewrite length_insert.
  - unfold write_pcount; cbn. by rewrite length_insert.
  - intros q Hq. change (plist (write_pcount p _ ?x) q) with (plist x q).
    rewrite plist_write by (cbn; lia).
    case_decide; subst; [rewrite length_insert|]; apply L4; lia.
  - intros sq' Hsq'. change (piece_at (write_pcount _ _ (write_plist _ _ w)) sq') with (piece_at w sq').
    unfold w. rewrite piece_at_write by lia. case_decide; [congruence|by apply Hb].
Qed.

Lemma parse_placement_inv cs sq b cs' sq' b' :
  parse_placement cs sq b = Some (cs', sq', b') -> fen_inv b -> fen_inv b'.
Proof.
  revert sq b. induction cs as [|c cs IH]; intros sq b Hp Hi; cbn [parse_placement] in Hp; [done|].
  repeat case_match; simplify_eq; try done; try by eapply IH.
  all: apply bind_Some in Hp as (b1 & Hs1 & Hs2);
    first [done|eapply IH; [exact Hs2|]; first [by eapply fill_empty_inv|by eapply place_piece_inv]].
Qed.

Lemma parse_fen_inv `{Zobrist} s b : parse_fen s = Some b -> fen_inv b /\ hash_ok b.
Proof.
  unfold parse_fen. intros Hp.
  destruct (parse_placement s A8 empty_board) as [[[cs sq] b0]|] eqn:Hpl; [|done].
  cbn [mbind option_bind] in Hp.
  pose proof (parse_placement_inv _ _ _ _ _ _ Hpl fen_inv_empty) as Hi.
  repeat (simplify_option_eq || case_match).
  all: split; [by apply (fen_inv_arrays b0)|reflexivity].
Qed.

(** C4: in a debug build, a board the constructor returns satisfies the
    piece-list invariant and carries the hash of its contents. *)
Theorem board_of_fen_debug_ok `{Zobrist} s b :
  board_of_fen_debug s = Some b -> board_wf b /\ hash_ok b.
Proof.
  unfold board_of_fen_debug, board_of_fen. intros Hb.
  apply bind_Some in Hb as (b0 & Hp & Hv). destruct (validate_board b0) eqn:Hval; [|done].
  injection Hv as <-. destruct (parse_fen_inv _ _ Hp) as ((L1 & L2 & L3 & L4 & Hbord) & Hh).
  split; [|done]. apply validate_board_wf; [by apply board_shape_intro|by apply border_empty_intro|done].
Qed.

(** ** The en-passant field *)

Lemma read_piece_Some b sq p : read_piece b sq = Some p -> p = piece_at b sq.
Proof. unfold read_piece. case_match; [by intros [=]|done]. Qed.

(** A target that [parse_en_passant] keeps has a pawn of the side to
    move on one of the two squares beside it on its own rank. *)
Lemma parse_en_passant_kept cs b r ep :
  parse_en_passant cs b = Some (r, ep) -> ep <> INVALID_SQUARE ->
  piece_at b (ep - 1) = side_piece (m_next_move_colour b) PAWN \/
  piece_at b (ep + 1) = side_piece (m_next_move_colour b) PAWN.
Proof.
  unfold parse_en_passant. intros Hp Hne.
  destruct (Ascii.eqb _ _); [apply bind_Some in Hp as (? & _ & [= _ <-]); done|].
  destruct (negb (m_next_move_colour b) && _); [done|].
  destruct (m_next_move_colour b && _); [done|].
  apply bind_Some in Hp as (l & Hl%read_piece_Some & Hp).
  apply bind_Some in Hp as (rt & Hr%read_piece_Some & Hp).
  apply bind_Some in Hp as (r1 & _ & Hp). apply bind_Some in Hp as (r2 & _ & [= _ <-]).
  case_match eqn:Hc; [done|]. subst l rt.
  apply andb_false_iff in Hc as [Hc|Hc]; apply negb_false_iff, Z.eqb_eq in Hc; [left|right];
    rewrite Hc; by destruct (m_next_move_colour b).
Qed.

(** C12: the constructor keeps an en-passant target only when a pawn of
    the side to move stands beside the target square on the target's
    own rank (lines 100-104).  The pawn that could take en passant
    stands beside the pawn that has just moved, one rank further, so a
    usable target with no such pawn on the target's rank is dropped. *)
Theorem fen_en_passant_beside_target `{Zobrist} s b :
  parse_fen s = Some b -> m_en_passant b <> INVALID_SQUARE ->
  piece_at b (m_en_passant b - 1) = side_piece (m_next_move_colour b) PAWN \/
  piece_at b (m_en_passant b + 1) = side_piece (m_next_move_colour b) PAWN.
Proof.
  unfold parse_fen. intros Hp Hne.
  destruct (parse_placement s A8 empty_board) as [[[cs sq] b0]|] eqn:Hpl; [|done].
  cbn [mbind option_bind] in Hp.
  repeat (simplify_option_eq || case_match).
  all: by eapply parse_en_passant_kept.
Qed.
