(* ===== verification/Scenarios.v ===== *)
(** * Scenarios: concrete positions

    Boards built by the FEN constructor model [board_of_fen] with the
    example Zobrist tables, on which the theorems of the other files
    are applied, the counterexample showing that make/unmake is not the
    identity, and runs of the model that illustrate the findings and
    reproduce the specification's perft counts. *)

From Stdlib Require Import String.
From S2P Require Import Prelude Encoding Move Zobrist Board Attack MakeMove MoveGen Validate Fen.

#[local] Existing Instances example_tables example_tables_ok.

Definition board_or_empty (o : option Board) : Board := default empty_board o.

Definition start_board : Board := board_or_empty (board_of_fen start_fen).

(** A parsed board that passes [validate_board] is well formed. *)
Lemma parsed_wf s :
  let b := board_or_empty (board_of_fen s) in
  board_shape b = true -> border_empty b = true -> validate_board b = true -> board_wf b.
Proof. intros b. apply validate_board_wf. Qed.

Lemma start_board_wf : board_wf start_board.
Proof. apply parsed_wf; vm_compute; reflexivity. Qed.

Lemma start_board_hash : hash_ok start_board.
Proof. unfold hash_ok. vm_compute. reflexivity. Qed.

(** 1. e2-e4: squares 35 and 55 of the mailbox. *)
Definition e2e4 : move_t := double_move 35 55 WHITE_PAWN.

Definition after (m : move_t) (b : Board) : bool * Board := default (false, b) (make_move m b).

Lemma make_move_ok_witness :
  exists v b', make_move e2e4 start_board = Some (v, b') /\ board_wf b' /\ hash_ok b' /\
    m_next_move_colour b' = BLACK.
Proof.
  destruct (make_move_ok start_board e2e4 start_board_wf start_board_hash)
    as (v & b' & E & _ & Hw & Hh & _ & Hc & _); [vm_compute; split_and!; reflexivity|].
  exists v, b'. split_and!; [exact E|exact Hw|exact Hh|exact Hc].
Defined.

(** ** Witnesses of the contracts *)

Lemma board_of_fen_debug_ok_witness :
  board_wf (board_or_empty (board_of_fen_debug start_fen)) /\
  hash_ok (board_or_empty (board_of_fen_debug start_fen)).
Proof. apply (board_of_fen_debug_ok start_fen). vm_compute. reflexivity. Defined.

Lemma remove_piece_correct_witness :
  exists b', remove_piece 35 start_board = Some b' /\ board_wf b' /\ hash_ok b' /\
    cells_eq b' (set_cell (piece_at start_board) 35 INVALID_PIECE) /\
    plive b' (piece_at start_board 35) ++ [35] ≡ₚ plive start_board (piece_at start_board 35) /\
    same_scalars start_board b'.
Proof.
  apply remove_piece_correct; [apply start_board_wf|apply start_board_hash|vm_compute; reflexivity].
Defined.

Lemma add_piece_correct_witness :
  exists b', add_piece 55 WHITE_QUEEN start_board = Some b' /\ board_wf b' /\ hash_ok b' /\
    cells_eq b' (set_cell (piece_at start_board) 55 WHITE_QUEEN) /\
    plive b' WHITE_QUEEN = plive start_board WHITE_QUEEN ++ [55] /\ same_scalars start_board b'.
Proof.
  apply add_piece_correct; [apply start_board_wf|apply start_board_hash|vm_compute; first [reflexivity|lia]..].
Defined.

Lemma move_piece_correct_witness :
  exists b', move_piece 35 55 start_board = Some b' /\ board_wf b' /\ hash_ok b' /\
    cells_eq b' (move_cell (piece_at start_board) 35 55) /\
    (exists i, plive start_board (piece_at start_board 35) !! i = Some 35 /\
       plive b' (piece_at start_board 35) = <[i:=55]> (plive start_board (piece_at start_board 35))) /\
    same_scalars start_board b'.
Proof.
  apply move_piece_correct; [apply start_board_wf|apply start_board_hash|vm_compute; reflexivity..].
Defined.

Lemma scalar_updates_hash_ok_witness :
  hash_ok (set_castle_state 3 start_board) /\ hash_ok (set_en_passant 45 start_board) /\
  hash_ok (switch_colours start_board) /\ hash_ok (update_castling E1 WHITE_KING start_board).
Proof. apply (scalar_updates_hash_ok start_board 3 45 E1 WHITE_KING). apply start_board_hash. Defined.

(** From e2 northwards the walk crosses e3 to e6 and stops on e7. *)
Lemma ray_end_fuel_enough_witness :
  exists j : nat, (j < RAY_FUEL)%nat /\
    (forall i : nat, (i < j)%nat -> empty_square start_board (E1 + 10 + 10 + Z.of_nat i * 10) = true) /\
    empty_square start_board (E1 + 10 + 10 + Z.of_nat j * 10) = false /\
    forall n, (RAY_FUEL <= n)%nat ->
      ray_end n start_board (E1 + 10 + 10) 10 = E1 + 10 + 10 + Z.of_nat j * 10.
Proof. apply ray_end_fuel_enough; [vm_compute; reflexivity|vm_compute; set_solver]. Defined.

Example ray_end_e2_north : ray_end RAY_FUEL start_board (E1 + 20) 10 = E1 + 60.
Proof. vm_compute. reflexivity. Qed.

(** ** Move generation *)

Definition pm (b : Board) : list move_t * Board := default ([], b) (pseudo_moves None b).

Lemma pseudo_moves_reversible_witness :
  exists v b1 b2, make_move e2e4 (pm start_board).2 = Some (v, b1) /\
    unmake_move b1 = Some b2 /\ b2 ≃b (pm start_board).2.
Proof.
  apply (pseudo_moves_reversible start_board (pm start_board).1);
    [apply start_board_wf|apply start_board_hash| | | | | | | |].
  - vm_compute. split_and!; intros _; split; reflexivity.
  - vm_compute. intros []. reflexivity.
  - apply room_check. vm_compute. reflexivity.
  - vm_compute. lia.
  - vm_compute. discriminate.
  - vm_compute. reflexivity.
  - vm_compute. reflexivity.
  - apply (bool_decide_unpack _). vm_compute. reflexivity.
Defined.

Lemma legal_moves_filter_witness :
  legal_moves start_board =
    Some (List.filter (move_verdict (pm start_board).2) (pm start_board).1) /\
  forall m, m ∈ (pm start_board).1 -> exists b', make_move m (pm start_board).2 =
      Some (move_verdict (pm start_board).2 m, b') /\
    (move_verdict (pm start_board).2 m = true <->
     square_attacked b' (king_square b' (side_piece (m_next_move_colour start_board) KING))
       (negb (m_next_move_colour start_board)) = false).
Proof.
  apply (legal_moves_filter start_board (pm start_board).1);
    [apply start_board_wf|apply start_board_hash| | | | | | | |].
  - vm_compute. split_and!; intros _; split; reflexivity.
  - vm_compute. intros []. reflexivity.
  - apply room_check. vm_compute. reflexivity.
  - vm_compute. reflexivity.
  - vm_compute. reflexivity.
  - vm_compute. discriminate.
  - vm_compute. reflexivity.
  - vm_compute. reflexivity.
Defined.

(** ** Divergences from the specification *)

Definition fen_board (s : string) : Board := board_or_empty (board_of_fen s).

(** [m] is a legal move of [b]: listed by [legal_moves] and made with
    the verdict [true]; the board after it. *)
Definition legal_play (m : move_t) (b : Board) : option Board :=
  ms ← legal_moves b;
  if bool_decide (m ∈ ms) then
    match make_move m b with Some (true, b') => Some b' | _ => None end
  else None.



(** A white knight on g6 and a black rook on h8. *)
Definition knight_fen : string := "4k2r/8/6N1/8/8/8/8/4K3 w k - 0 1".
Definition knight_takes_h8 : move_t := capture_move 77 H8 WHITE_KNIGHT BLACK_ROOK.
Definition black_short_castle : move_t := castle_move E8 G8 BLACK_KING SHORT_CASTLE_MOVE.

Lemma capture_keeps_castle_right_witness :
  captured_piece knight_takes_h8 = BLACK_ROOK /\ move_to knight_takes_h8 = H8 /\
  exists v b', make_move knight_takes_h8 (fen_board knight_fen) = Some (v, b') /\
    m_castle_state b' = m_castle_state (fen_board knight_fen) /\
    piece_at b' (move_to knight_takes_h8) = piece_at (fen_board knight_fen) (move_from knight_takes_h8).
Proof.
  split; [reflexivity|]. split; [reflexivity|].
  apply capture_keeps_castle_right;
    [apply parsed_wf; vm_compute; reflexivity|unfold hash_ok; vm_compute; reflexivity| |reflexivity|reflexivity].
  vm_compute. split_and!; first [reflexivity|discriminate].
Defined.

(** The run behind the finding: after the knight takes on h8 black still
    has its short castle right, and the castle is made with the verdict
    [true], carrying the white knight from h8 to f8. *)
Example knight_takes_h8_then_castle :
  let b1 := snd (after knight_takes_h8 (fen_board knight_fen)) in
  Z.land (m_castle_state b1) BLACK_SHORT = BLACK_SHORT /\ piece_at b1 H8 = WHITE_KNIGHT /\
  after black_short_castle b1 = (true, snd (after black_short_castle b1)) /\
  piece_at (snd (after black_short_castle b1)) F8 = WHITE_KNIGHT /\
  piece_at (snd (after black_short_castle b1)) G8 = BLACK_KING.
Proof. vm_compute. split_and!; reflexivity. Qed.

(** White to move after ...e7-e5, a white pawn on d6 beside e6. *)
Definition ep_kept_fen : string := "4k3/8/3P4/4pP2/8/8/8/4K3 w - e6 0 1".

Lemma fen_en_passant_beside_target_witness :
  let b := fen_board ep_kept_fen in
  piece_at b (m_en_passant b - 1) = side_piece (m_next_move_colour b) PAWN \/
  piece_at b (m_en_passant b + 1) = side_piece (m_next_move_colour b) PAWN.
Proof.
  apply (fen_en_passant_beside_target (list_ascii_of_string ep_kept_fen));
    vm_compute; [reflexivity|discriminate].
Defined.

(** White has just played d2-d4 beside the black pawn on e4: black can
    take en passant on d3, but c3 and e3 hold no black pawn, and the
    constructor drops the target. *)
Definition ep_fen : string := "rnbqkbnr/pppp1ppp/8/8/3Pp3/8/PPP1PPPP/RNBQKBNR b KQkq d3 0 2".

Example fen_ep_d3_dropped :
  let b := fen_board ep_fen in
  board_of_fen ep_fen = Some b /\ m_en_passant b = INVALID_SQUARE /\
  piece_at b 55 = BLACK_PAWN /\ piece_at b 54 = WHITE_PAWN.
Proof. vm_compute. split_and!; reflexivity. Qed.

(** The fifth position of the specification's perft table; the pawn on
    d7 takes the bishop on c8. *)
Definition position5 : Board := fen_board "rnbq1k1r/pp1Pbppp/2p5/8/2B5/8/PPP1NnPP/RNBQK2R w KQ - 1 8".
Definition d7c8 : move_t := promote_capture_move 84 C8 WHITE_PAWN BLACK_QUEEN BLACK_BISHOP.

Lemma promotion_to_opponent_witness :
  get_side (moved_piece d7c8) = m_next_move_colour position5 /\
  get_side (promoted_piece d7c8) = negb (m_next_move_colour position5) /\
  exists v b', make_move d7c8 (pm position5).2 = Some (v, b') /\
    piece_at b' (move_to d7c8) = promoted_piece d7c8.
Proof.
  apply (promotion_to_opponent position5 (pm position5).1);
    [apply parsed_wf; vm_compute; reflexivity|unfold hash_ok; vm_compute; reflexivity| | | | | | | |].
  - vm_compute. split_and!; intros H; first [discriminate H|split; reflexivity].
  - vm_compute. intros []. reflexivity.
  - apply room_check. vm_compute. reflexivity.
  - vm_compute. lia.
  - vm_compute. reflexivity.
  - vm_compute. reflexivity.
  - apply (bool_decide_unpack _). vm_compute. reflexivity.
  - reflexivity.
Defined.

(** A black pawn on a7 lets black wait while the knight takes on h8 and
    leaves for f7; every move is legal. *)
Definition crash_start : Board := fen_board "4k2r/p7/6N1/8/8/8/8/4K3 w k - 0 1".
Definition crash_run : option Board :=
  b1 ← legal_play knight_takes_h8 crash_start;
  b2 ← legal_play (quiet_move 81 71 BLACK_PAWN) b1;
  legal_play (quiet_move H8 86 WHITE_KNIGHT) b2.
Definition crash_board : Board := board_or_empty crash_run.


(** The position is reached by legal moves, and [legal_moves] fails on it. *)
Example castle_without_rook_reachable :
  crash_run = Some crash_board /\ castle_bit crash_board BLACK_SHORT = true /\
  legal_moves crash_board = None.
Proof. split_and!; vm_compute; reflexivity. Qed.

(** ** Runs of the model *)

(** The positions of the specification's perft table. *)
Definition kiwipete : Board :=
  fen_board "r3k2r/p1ppqpb1/bn2pnp1/3PN3/1p2P3/2N2Q1p/PPPBBPPP/R3K2R w KQkq - 0 1".
Definition position3 : Board := fen_board "8/2p5/3p4/KP5r/1R3p1k/8/4P1P1/8 w - - 0 1".
Definition position4 : Board :=
  fen_board "r3k2r/Pppp1ppp/1b3nbN/nP6/BBP1P3/q4N2/Pp1P2PP/R2Q1RK1 w kq - 0 1".

(** The model's perft counts agree with the specification's table at
    depth two on the first four positions and at depth one on the
    fifth; at depth two the fifth gives 1516 where the table has 1486,
    because of the promotions to the opponent's colour. *)
Example perft_table_runs :
  perft 2 start_board = Some 400%nat /\ perft 2 kiwipete = Some 2039%nat /\
  perft 2 position3 = Some 191%nat /\ perft 2 position4 = Some 264%nat /\
  perft 1 position5 = Some 44%nat /\ perft 2 position5 = Some 1516%nat.
Proof. split_and!; vm_compute; reflexivity. Qed.

(** The cache is consulted before the 75-move cutoff: once the start
    position's moves are cached, the same position with a fifty-move
    count of 80 still gets its twenty moves. *)
Example cache_before_cutoff_run :
  let b := (pm start_board).2 in
  length (pm (with_fifty 80 b)).1 = 20%nat /\ (pm (with_fifty 80 start_board)).1 = [].
Proof. vm_compute. split; reflexivity. Qed.

(** [move_piece] onto the border cell left of a1 gives a board that
    passes [validate_board]. *)
Example border_knight_run :
  exists b, move_piece B1 20 start_board = Some b /\ piece_at b 20 = WHITE_KNIGHT /\
    valid_square 20 = false /\ border_empty b = false /\ validate_board b = true.
Proof. eexists. split; [vm_compute; reflexivity|]. split_and!; vm_compute; reflexivity. Qed.
